(** * social-auto-upload: the upload router and the filename normalizer

    A shallow embedding of [cli_main.py] (schedule parser, video file
    discovery, the [main] router) and of [video_preprocessor.py] (the
    [VideoPreprocessor] class), with the properties the specification
    states about them.

    Conventions.
    - A Python [str] is a list of Unicode code points ([N]); [len] is
      [length].  String literals of the source are written with [lit]
      when they are ASCII, and code point by code point otherwise.
    - Library functions the source calls ([str.replace], [re.escape],
      [re.sub], [datetime.strptime], [pathlib] globbing, ...) are
      modelled after CPython 3.7+ on a POSIX platform; each model says
      what it covers.
    - Unicode tables that CPython ships as data are taken as an
      interface ([UnicodeDB]); everything ASCII is spelled out. *)

From Stdlib Require Import Ascii String.
From Stdlib Require Import List NArith ZArith Lia Bool.
From Stdlib Require Import Sorting.Sorted Sorting.Permutation.
Import ListNotations.
Local Open Scope list_scope.

Set Implicit Arguments.
Set Warnings "-register-all".

(* ===================================================================== *)
(** * Part I. Definitions                                                 *)
(* ===================================================================== *)

(** ** Python strings *)

Module PyStr.

Definition char := N.
Definition str := list char.

(** An ASCII literal of the source. *)
Definition lit (s : string) : str := map N_of_ascii (list_ascii_of_string s).

Fixpoint str_eqb (a b : str) : bool :=
match a, b with
| [], [] => true
| x :: a', y :: b' => N.eqb x y && str_eqb a' b'
| _, _ => false
end.

(** [s.startswith(p)] *)
Fixpoint startswith (p s : str) : bool :=
match p, s with
| [], _ => true
| x :: p', y :: s' => N.eqb x y && startswith p' s'
| _ :: _, [] => false
end.

(** [s.endswith(p)] *)
Definition endswith (p s : str) : bool := startswith (rev p) (rev s).

(** [p in s] for strings: some suffix of [s] starts with [p]. *)
Fixpoint contains (p s : str) : bool :=
startswith p s ||
match s with
| [] => false
| _ :: s' => contains p s'
end.

(** [c in s] for a one-character needle. *)
Definition has_char (c : char) (s : str) : bool := existsb (N.eqb c) s.

(** The scanning loop of [str.replace] for a non-empty [old]: occurrences
    are found left to right and do not overlap.  [skip] counts the
    characters of the occurrence just replaced that are still to be
    passed over. *)
Fixpoint replace_from (old new : str) (skip : nat) (s : str) : str :=
match s with
| [] => []
| c :: s' =>
  match skip with
  | S k => replace_from old new k s'
  | O => if startswith old s
         then new ++ replace_from old new (length old - 1) s'
         else c :: replace_from old new 0 s'
  end
end.

(** [s.replace(old, new)].  With an empty [old] Python inserts [new]
    before every character and at the end. *)
Definition replace (s old new : str) : str :=
match old with
| [] => new ++ flat_map (fun c => c :: new) s
| _ :: _ => replace_from old new 0 s
end.

(** [s.split(sep)] for a one-character separator. *)
Fixpoint split (sep : char) (s : str) : list str :=
match s with
| [] => [[]]
| c :: s' =>
  if N.eqb c sep then [] :: split sep s'
  else match split sep s' with
       | seg :: segs => (c :: seg) :: segs
       | [] => [[c]]
       end
end.

(** [sep.join(parts)] *)
Fixpoint join (sep : str) (parts : list str) : str :=
match parts with
| [] => []
| [p] => p
| p :: ps => p ++ sep ++ join sep ps
end.

(** [s[:stop]] for a Python integer [stop]: a negative [stop] counts
    from the end, and is clipped at the start of the string. *)
Definition slice_to (s : str) (stop : Z) : str :=
if (0 <=? stop)%Z then firstn (Z.to_nat stop) s
else firstn (Z.to_nat (Z.of_nat (length s) + stop)) s.

(** [Py_UNICODE_ISSPACE]: the characters [str.strip()] removes and the
    class [\s] of a [str] pattern matches. *)
Definition is_space (c : char) : bool :=
((9 <=? c) && (c <=? 13) || (28 <=? c) && (c <=? 32)
 || (c =? 133) || (c =? 160) || (c =? 5760)
 || (8192 <=? c) && (c <=? 8202)
 || (c =? 8232) || (c =? 8233) || (c =? 8239) || (c =? 8287)
 || (c =? 12288))%N.

Fixpoint lstrip (s : str) : str :=
match s with
| [] => []
| c :: s' => if is_space c then lstrip s' else s
end.

Definition rstrip (s : str) : str := rev (lstrip (rev s)).

(** [s.strip()] *)
Definition strip (s : str) : str := rstrip (lstrip s).

Definition is_ascii_digit (c : char) : bool := ((48 <=? c) && (c <=? 57))%N.
Definition is_ascii_upper (c : char) : bool := ((65 <=? c) && (c <=? 90))%N.
Definition is_ascii_lower (c : char) : bool := ((97 <=? c) && (c <=? 122))%N.
Definition is_ascii_alnum (c : char) : bool :=
is_ascii_digit c || is_ascii_upper c || is_ascii_lower c.

(** Comparison of strings by code points, as [<] on [str]. *)
Fixpoint str_ltb (a b : str) : bool :=
match a, b with
| _, [] => false
| [], _ :: _ => true
| x :: a', y :: b' => (x <? y)%N || ((x =? y)%N && str_ltb a' b')
end.

Definition str_leb (a b : str) : bool := negb (str_ltb b a).

(** A surrogate code point, U+D800 to U+DFFF: what the [utf-8] codec
    refuses to encode. *)
Definition is_surrogate (c : char) : bool := (55296 <=? c)%N && (c <=? 57343)%N.

(** [s.encode('utf-8')] does not raise. *)
Definition encodable (s : str) : bool := negb (existsb is_surrogate s).

End PyStr.
Import PyStr.

(** ** The Unicode tables used by [re], [str.lower] and [int] *)

(** CPython answers these from its Unicode database.  Below 128 the
    answers are fixed here; above, they are the three fields. *)
Class UnicodeDB := {
  uni_alnum   : char -> bool;          (* [str.isalnum] of one character *)
  uni_lower   : char -> str;           (* [str.lower] of one character *)
  uni_decimal : char -> option N       (* decimal digit value, class Nd *)
}.

(** A database that knows no character above 127. *)
Definition ascii_only_db : UnicodeDB :=
{| uni_alnum := fun _ => false;
   uni_lower := fun c => [c];
   uni_decimal := fun _ => None |}.

Section Classes.
Context {U : UnicodeDB}.

(** The class [\w] of a [str] pattern: alphanumeric or underscore. *)
Definition is_word (c : char) : bool :=
if (c <? 128)%N then is_ascii_alnum c || (c =? 95)%N else uni_alnum c.

(** The class [\d] of a [str] pattern, with the digit's value. *)
Definition digit_value (c : char) : option N :=
if (c <? 128)%N then (if is_ascii_digit c then Some (c - 48)%N else None)
else uni_decimal c.

Definition lower_char (c : char) : str :=
if (c <? 128)%N then (if is_ascii_upper c then [(c + 32)%N] else [c])
else uni_lower c.

(** [s.lower()] *)
Definition lower (s : str) : str := flat_map lower_char s.

End Classes.

(** ** The fragment of [re] the normalizer uses *)

Module Re.

(** [re.escape] (CPython 3.7+): a backslash before each of
    [()[]{}?*+-|^$\.&~#] and the ASCII whitespace characters. *)
Definition special_chars : str :=
lit "()[]{}?*+-|^$\.&~# " ++ [9; 10; 13; 11; 12]%N.

Definition is_special (c : char) : bool := has_char c special_chars.

Definition escape_char (c : char) : str :=
if is_special c then [92%N; c] else [c].

Definition escape (s : str) : str := flat_map escape_char s.

(** Patterns built from literal characters and the lazy wildcard. *)
Inductive tok := Lit (c : char) | LazyAny.
Definition regex := list tok.

(** Characters with a meaning of their own in a pattern. *)
Definition is_meta (c : char) : bool := has_char c (lit ".^$*+?{}[]\|()").

(** Parsing of a pattern string.  [None] is "outside the fragment": a
    backslash before an ASCII letter or digit (a class, an anchor or a
    back reference), a dangling backslash, or a metacharacter other than
    the three of the lazy wildcard. A backslash before any other
    character stands for that character. *)
Fixpoint parse (s : str) : option regex :=
match s with
| [] => Some []
| c :: s1 =>
  if (c =? 92)%N then
    match s1 with
    | [] => None
    | d :: s2 =>
      if ((d <? 128)%N && is_ascii_alnum d) then None
      else option_map (cons (Lit d)) (parse s2)
    end
  else if (c =? 46)%N then
    match s1 with
    | a :: q :: s3 =>
      if ((a =? 42)%N && (q =? 63)%N) then option_map (cons LazyAny) (parse s3)
      else None
    | _ => None
    end
  else if is_meta c then None
  else option_map (cons (Lit c)) (parse s1)
end.

(** One attempt of the backtracking matcher at the start of [s]: the
    number of characters the first successful path consumes.  The lazy
    wildcard tries the rest of the pattern first and takes one more
    character (any but a line feed) when that fails.  [need] is the
    engine's [must_advance]: an empty match is refused. *)
Fixpoint match_here (r : regex) (need : bool) (s : str) {struct r} : option nat :=
match r with
| [] => if need then None else Some 0
| Lit c :: r' =>
  match s with
  | x :: s' => if (x =? c)%N then option_map S (match_here r' false s') else None
  | [] => None
  end
| LazyAny :: r' =>
  (fix lazy (need : bool) (s : str) {struct s} : option nat :=
     match match_here r' need s with
     | Some n => Some n
     | None =>
       match s with
       | x :: s' => if (x =? 10)%N then None else option_map S (lazy false s')
       | [] => None
       end
     end) need s
end.

(** [re.search]: the first position with a match, as (characters before
    the match, length of the match). *)
Fixpoint search (r : regex) (s : str) : option (nat * nat) :=
match match_here r false s with
| Some n => Some (0, n)
| None =>
  match s with
  | [] => None
  | _ :: s' => option_map (fun '(b, n) => (S b, n)) (search r s')
  end
end.

(** [re.sub(r, '', s)]: every match is deleted, scanning left to right.
    After an empty match the engine looks again at the same position for
    a match that is not empty (CPython 3.7+); when there is none the
    character is kept and the scan moves on.  [skip] counts the
    characters of the match being deleted. *)
Fixpoint sub_from (r : regex) (skip : nat) (s : str) : str :=
match s with
| [] => []
| c :: s' =>
  match skip with
  | S k => sub_from r k s'
  | O =>
    match match_here r false s with
    | Some (S n) => sub_from r n s'
    | Some O =>
      match match_here r true s with
      | Some (S n) => sub_from r n s'
      | _ => c :: sub_from r 0 s'
      end
    | None => c :: sub_from r 0 s'
    end
  end
end.

Definition sub_delete (r : regex) (s : str) : str := sub_from r 0 s.

End Re.

(** ** Exceptions, and computations that may raise *)

(** The subclasses of Python's [Exception] that the two programs meet.
    [ServiceError] stands for whatever the text service's client
    raises; [ReError] is [re.error]. *)
Inductive exception :=
| ValueError (msg : str)
| FileNotFoundError (what : str)
| TypeError
| IndexError
| AttributeError
| IsADirectoryError
| NotADirectoryError
| OSError (errno : N)
| ReError
| ServiceError (code : N)
| UnicodeEncodeError.

(** What a [raise] can carry out of [main]: an [Exception], or the
    [SystemExit] of [exit()] and of [parser.error], which
    [except Exception] does not catch. *)
Inductive raised :=
| Exc (e : exception)
| SystemExit (code : Z).

(** A computation over a state [S] that returns an [A] or raises an
    [E]; the state reached so far is kept when it raises. *)
Definition M (S E A : Type) : Type := S -> (E + A) * S.

Definition ret {S E A} (a : A) : M S E A := fun s => (inr a, s).
Definition raise {S E A} (e : E) : M S E A := fun s => (inl e, s).
Definition bind {S E A B} (m : M S E A) (k : A -> M S E B) : M S E B :=
fun s => match m s with
         | (inr a, s') => k a s'
         | (inl e, s') => (inl e, s')
         end.
Definition get {S E} : M S E S := fun s => (inr s, s).
Definition modify {S E} (f : S -> S) : M S E unit := fun s => (inr tt, f s).

(** [try: m  except Exception as e: h e] where everything [m] can raise
    is an [Exception]. *)
Definition try_except {S E E' A} (m : M S E A) (h : E -> M S E' A) : M S E' A :=
fun s => match m s with
         | (inr a, s') => (inr a, s')
         | (inl e, s') => h e s'
         end.

(** A pure result that may be an error, run as a computation. *)
Definition lift {S E A} (r : E + A) : M S E A := fun s => (r, s).

(** [for x in xs: body x] *)
Fixpoint for_each {S E A} (xs : list A) (body : A -> M S E unit) : M S E unit :=
match xs with
| [] => ret tt
| x :: xs' => bind (body x) (fun _ => for_each xs' body)
end.

(** Every run of [m] takes a state to one that [R] relates to it,
    whether it returns or raises. *)
Definition preserves {S E A} (R : S -> S -> Prop) (m : M S E A) : Prop :=
forall s, R s (snd (m s)).

Declare Scope py_scope.
Delimit Scope py_scope with py.
Notation "x <- m ;; k" := (bind m (fun x => k))
  (at level 61, m at next level, right associativity) : py_scope.
Notation "m ;;; k" := (bind m (fun _ => k))
  (at level 61, right associativity) : py_scope.
Notation "' pat <- m ;; k" := (bind m (fun x => match x with pat => k end))
  (at level 61, pat pattern, m at next level, right associativity) : py_scope.

(** ** Paths and the file tree *)

Module FS.

(** A file tree: the file system as the process sees it, with the
    working directory of the process at its root.  A directory lists
    its entries in the order [os.scandir] reports them.  There are
    regular files and directories only: symbolic links (and with them
    entries that a directory lists and [stat] does not find) are not
    modelled. *)
Inductive node :=
| File (data : str)
| Dir (entries : list (str * node)).

(** A path, as its components below the root of the tree (the working
    directory of the process). *)
Definition path := list str.

(** [Path(s)]: the components of [s], without empty and [.] components.
    Absolute paths and [..] are outside the model. *)
Definition Path (s : str) : path :=
filter (fun c => negb (str_eqb c [] || str_eqb c (lit "."))) (split 47%N s).

(** [str(p)] *)
Definition path_str (p : path) : str :=
match p with
| [] => lit "."
| _ => join (lit "/") p
end.

Definition path_eqb (p q : path) : bool :=
(length p =? length q)%nat && forallb (fun '(a, b) => str_eqb a b) (combine p q).

(** [p.name], [p.parent] *)
Definition name (p : path) : str := last p [].
Definition parent (p : path) : path := removelast p.

(** The index [name.rfind('.')] finds, when there is a dot. *)
Fixpoint rfind_dot (s : str) : option nat :=
match s with
| [] => None
| c :: s' =>
  match rfind_dot s' with
  | Some i => Some (S i)
  | None => if (c =? 46)%N then Some 0%nat else None
  end
end.

(** [p.suffix]: from the last dot of the name on, unless that dot is
    the first or the last character. *)
Definition suffix (p : path) : str :=
let n := name p in
match rfind_dot n with
| Some i => if ((0 <? i) && (i <? length n - 1))%nat then skipn i n else []
| None => []
end.

(** [p.stem]: the name without its suffix. *)
Definition stem (p : path) : str :=
let n := name p in
match rfind_dot n with
| Some i => if ((0 <? i) && (i <? length n - 1))%nat then firstn i n else n
| None => n
end.

Fixpoint assoc (x : str) (es : list (str * node)) : option node :=
match es with
| [] => None
| (y, m) :: es' => if str_eqb x y then Some m else assoc x es'
end.

Fixpoint remove_entry (x : str) (es : list (str * node)) : list (str * node) :=
match es with
| [] => []
| (y, m) :: es' => if str_eqb x y then remove_entry x es' else (y, m) :: remove_entry x es'
end.

(** The entry [x] becomes [m]: in place when it exists, at the end of
    the listing otherwise. *)
Fixpoint set_entry (x : str) (m : node) (es : list (str * node)) : list (str * node) :=
match es with
| [] => [(x, m)]
| (y, m') :: es' => if str_eqb x y then (x, m) :: es' else (y, m') :: set_entry x m es'
end.

Fixpoint lookup (p : path) (n : node) : option node :=
match p with
| [] => Some n
| x :: p' =>
  match n with
  | File _ => None
  | Dir es => match assoc x es with
              | Some m => lookup p' m
              | None => None
              end
  end
end.

(** The path resolution of [stat] on the components of a path string
    as [/] separates them, from the directory [cur] whose ancestors
    are [up], nearest first.  Every component, also an empty one, [.]
    and [..], is looked up in a directory; an empty component (a
    doubled or final separator) and [.] stay there, [..] goes to the
    parent, which for the root is the root. *)
Fixpoint resolve (up : list node) (cur : node) (parts : list str) : option node :=
match parts with
| [] => Some cur
| x :: rest =>
  match cur with
  | File _ => None
  | Dir es =>
    if str_eqb x [] || str_eqb x (lit ".") then resolve up cur rest
    else if str_eqb x (lit "..") then
      match up with
      | [] => resolve [] cur rest
      | above :: up' => resolve up' above rest
      end
    else match assoc x es with
         | Some m => resolve (cur :: up) m rest
         | None => None
         end
  end
end.

(** [Path.exists], [Path.is_file], [Path.is_dir] *)
Definition exists_ (fs : node) (p : path) : bool :=
match lookup p fs with Some _ => true | None => false end.
Definition is_file (fs : node) (p : path) : bool :=
match lookup p fs with Some (File _) => true | _ => false end.

(** The listing of the directory at [p] rewritten by [f]; an error when
    [p] is not a directory. *)
Fixpoint with_dir (p : path) (f : list (str * node) -> exception + list (str * node))
  (n : node) : exception + node :=
match n with
| File _ => inl NotADirectoryError
| Dir es =>
  match p with
  | [] => match f es with inr es' => inr (Dir es') | inl e => inl e end
  | x :: p' =>
    match assoc x es with
    | None => inl (FileNotFoundError x)
    | Some m =>
      match with_dir p' f m with
      | inr m' => inr (Dir (set_entry x m' es))
      | inl e => inl e
      end
    end
  end
end.

(** [rename(2)] between two names of one directory. *)
Definition rename_entry (src dst : str) (es : list (str * node))
  : exception + list (str * node) :=
match assoc src es with
| None => inl (FileNotFoundError src)
| Some m =>
  if str_eqb src dst then inr es
  else match m, assoc dst es with
       | File _, Some (Dir _) => inl IsADirectoryError
       | Dir _, Some (File _) => inl NotADirectoryError
       | Dir _, Some (Dir (_ :: _)) => inl (OSError 39)
       | _, _ => inr (set_entry dst m (remove_entry src es))
       end
end.

(** [open(name, 'w').write(data)] in one directory. *)
Definition write_entry (x : str) (data : str) (es : list (str * node))
  : exception + list (str * node) :=
match assoc x es with
| Some (Dir _) => inl IsADirectoryError
| _ => inr (set_entry x (File data) es)
end.

(** [fnmatch] of a name against [*<ext>]. *)
Definition fnmatch_star (ext name : str) : bool := endswith ext name.

(** [dir.glob('*<ext>')]: the entries of [dir] whose name ends with
    [ext], compared case-sensitively; nothing when [dir] is not a
    directory.  The listing is read once, before the first result. *)
Definition glob (fs : node) (dir : path) (ext : str) : list path :=
match lookup dir fs with
| Some (Dir es) =>
  map (fun e => dir ++ [fst e]) (filter (fun e => fnmatch_star ext (fst e)) es)
| _ => []
end.

(** What [**] ranges over: the directory itself, then the directories
    below each of its entries, as paths relative to it. *)
Fixpoint iterate_directories (n : node) : list path :=
match n with
| File _ => []
| Dir es => [] :: flat_map (fun e => map (cons (fst e)) (iterate_directories (snd e))) es
end.

(** [dir.glob('**/*<ext>')] *)
Definition rglob (fs : node) (dir : path) (ext : str) : list path :=
match lookup dir fs with
| Some d => flat_map (fun sub => glob fs (dir ++ sub) ext) (iterate_directories d)
| None => []
end.

End FS.

(** ** video_preprocessor.py: the normalizer *)

Module VideoPreprocessor.
Import FS.
Local Open Scope py_scope.

(** The configuration loaded from [config.yml].  The two keys the code
    reads with [config.get] may be absent. *)
Record Config := {
  video_directory : path;
  remove_patterns : list str;
  translate_to_chinese : option bool;
  max_filename_length : option Z
}.

(** The two system prompts of the requests to the text service. *)
Inductive prompt := TranslatePrompt | DescribePrompt.

(** A file operation the normalizer asks of the operating system. *)
Inductive fs_call :=
| Rename (src dst : path)
| WriteText (file : path) (data : str).

(** The world outside the process.  [chat_create] is
    [openai.ChatCompletion.create] with model [gpt-4o-mini], a system
    prompt and the user's text: it raises, or answers with the
    [message.content] of each choice ([None] for a null content).
    [io_fault] lets the operating system refuse a file operation (a
    renaming, the opening of a file) for a reason the file tree does
    not show, such as permissions.  [write_fault] lets it fail the
    writing of a file that was opened, a disk that fills up, with what
    is left in the file. *)
Class Env (W : Type) := {
  chat_create : prompt -> str -> W -> (exception + list (option str)) * W;
  io_fault : fs_call -> W -> option exception;
  write_fault : path -> str -> W -> option (exception * str)
}.

Inductive log_record :=
| ErrTranslate (e : exception)                 (* 翻译出错 *)
| ErrDescribe (e : exception)                  (* 生成描述出错 *)
| ErrNoDirectory (dir : path)                  (* 目录不存在 *)
| InfoRenamed (src dst : path)                 (* 重命名文件 *)
| InfoSidecar (file : path)                    (* 生成描述文件 *)
| ErrFile (file : path) (e : exception).       (* 处理文件 ... 时出错 *)

(** The state a run works on: the file tree, the log, the file
    operations issued so far (latest first), and the outside world. *)
Record state (W : Type) := {
  fs : node;
  log : list log_record;
  calls : list fs_call;
  world : W
}.

Section WithEnv.
Context {U : UnicodeDB} {W : Type} {E : Env W}.

Local Abbreviation P := (M (state W) exception).

Definition logging (r : log_record) : P unit :=
modify (fun s => {| fs := fs s; log := r :: log s; calls := calls s; world := world s |}).

Definition ask (p : prompt) (text : str) : P (list (option str)) :=
fun s => let '(r, w) := chat_create p text (world s) in
         (r, {| fs := fs s; log := log s; calls := calls s; world := w |}).

(** [response.choices[0].message.content.strip()] *)
Definition first_content_stripped (choices : list (option str)) : P str :=
match choices with
| [] => raise IndexError
| None :: _ => raise AttributeError
| Some content :: _ => ret (strip content)
end.

(** A file operation: recorded, refused by the operating system or
    carried out on the tree. *)
Definition perform (c : fs_call) (dir : path)
  (f : list (str * node) -> exception + list (str * node)) : P unit :=
fun s =>
  let s1 := {| fs := fs s; log := log s; calls := c :: calls s; world := world s |} in
  match io_fault c (world s) with
  | Some e => (inl e, s1)
  | None =>
    match with_dir dir f (fs s) with
    | inl e => (inl e, s1)
    | inr t => (inr tt, {| fs := t; log := log s; calls := c :: calls s; world := world s |})
    end
  end.

(** [src.rename(dst)], for two paths with the same parent. *)
Definition rename (src dst : path) : P unit :=
perform (Rename src dst) (parent src) (rename_entry (name src) (name dst)).

(** The content of the file that is open becomes [data]. *)
Definition store (file : path) (data : str) : P unit :=
fun s =>
  match with_dir (parent file) (write_entry (name file) data) (fs s) with
  | inl e => (inl e, s)
  | inr t => (inr tt, {| fs := t; log := log s; calls := calls s; world := world s |})
  end.

(** [with open(file, 'w', encoding='utf-8') as f: f.write(data)].
    Opening creates the file or empties it; then the text is encoded,
    which raises for a surrogate and leaves the file empty; then the
    bytes are written and the file is closed. *)
Definition write_text (file : path) (data : str) : P unit :=
perform (WriteText file data) (parent file) (write_entry (name file) []) ;;;
if negb (encodable data) then raise UnicodeEncodeError
else
  s <- get ;;
  match write_fault file data (world s) with
  | Some (e, remains) => store file remains ;;; raise e
  | None => store file data
  end.

Definition _translate_text (text : str) : P str :=
try_except
  (response <- ask TranslatePrompt text ;;
   first_content_stripped response)
  (fun e => logging (ErrTranslate e) ;;; ret text).

(** The text before the name in the fallback description:
    无法生成描述, a colon and a space. *)
Definition fallback_prefix : str :=
[26080; 27861; 29983; 25104; 25551; 36848; 58; 32]%N.

Definition _get_video_description (video_name : str) : P str :=
try_except
  (response <- ask DescribePrompt video_name ;;
   first_content_stripped response)
  (fun e => logging (ErrDescribe e) ;;; ret (fallback_prefix ++ video_name)).

(** The pattern string the code compiles for a remove-pattern with a
    wildcard (lines 100-101). *)
Definition wildcard_regex (pattern : str) : str :=
let regex_pattern := replace pattern (lit "*") (lit ".*?") in
replace (Re.escape regex_pattern) (lit "\.\*\?") (lit ".*?").

(** One turn of the loop over [remove_patterns]. *)
Definition remove_pattern (name pattern : str) : exception + str :=
if has_char 42%N pattern then
  match Re.parse (wildcard_regex pattern) with
  | Some r => inr (Re.sub_delete r name)
  | None => inl ReError
  end
else inr (replace name pattern []).

Fixpoint remove_all (patterns : list str) (name : str) : exception + str :=
match patterns with
| [] => inr name
| p :: ps =>
  match remove_pattern name p with
  | inr name' => remove_all ps name'
  | inl e => inl e
  end
end.

(** [re.sub(r'[^\w\s\-\.]', '', name)]: the characters the class
    excludes are kept. *)
Definition keep_char (c : char) : bool :=
is_word c || is_space c || (c =? 45)%N || (c =? 46)%N.

Definition strip_special (name : str) : str := filter keep_char name.

Definition max_length (cfg : Config) : Z :=
match max_filename_length cfg with Some n => n | None => 100%Z end.

(** Lines 115-117. *)
Definition truncate (cfg : Config) (name : str) : str :=
if (Z.of_nat (length name) >? max_length cfg)%Z
then slice_to name (max_length cfg) else name.

Definition truthy (b : option bool) : bool :=
match b with Some true => true | _ => false end.

(** Lines 93-112 of [_clean_filename]: the name after the removal of
    the patterns, the optional translation and the removal of the
    special characters. *)
Definition before_truncation (cfg : Config) (filename : str) : P str :=
name <- lift (remove_all (remove_patterns cfg) filename) ;;
name <- (if truthy (translate_to_chinese cfg) then _translate_text name else ret name) ;;
ret (strip_special name).

Definition _clean_filename (cfg : Config) (filename : str) : P str :=
name <- before_truncation cfg filename ;;
let name := truncate cfg name in
ret (strip name).

(** Whether a remove-pattern finds anything in [name]: a match of the
    compiled pattern ([re.search]) for a pattern with a wildcard, an
    occurrence of the pattern otherwise. *)
Definition pattern_matches (pattern name : str) : bool :=
if has_char 42%N pattern then
  match Re.parse (wildcard_regex pattern) with
  | Some r => match Re.search r name with Some _ => true | None => false end
  | None => false
  end
else contains pattern name.

(** Lines 141-143. *)
Definition rename_if_needed (video_file new_video_path : path) : P unit :=
if negb (path_eqb video_file new_video_path)
then rename video_file new_video_path ;;;
     logging (InfoRenamed video_file new_video_path)
else ret tt.

(** The body of the [try] of the loop, lines 131-152. *)
Definition process_file (cfg : Config) (video_file : path) : P unit :=
let original_name := stem video_file in
new_name <- _clean_filename cfg original_name ;;
let new_video_path := parent video_file ++ [new_name ++ lit ".mp4"] in
rename_if_needed video_file new_video_path ;;;
description <- _get_video_description new_name ;;
let txt_path := parent video_file ++ [new_name ++ lit ".txt"] in
write_text txt_path description ;;;
logging (InfoSidecar txt_path).

(** The loop of lines 129-155 over the files [glob] found. *)
Definition process_files (cfg : Config) (files : list path) : P unit :=
for_each files (fun video_file =>
  try_except (process_file cfg video_file)
             (fun e => logging (ErrFile video_file e))).

Definition process_directory (cfg : Config) : P unit :=
let video_dir := video_directory cfg in
s <- get ;;
if negb (exists_ (fs s) video_dir)
then logging (ErrNoDirectory video_dir)
else process_files cfg (glob (fs s) video_dir (lit ".mp4")).

(** What the text service gave for [text]: the content of the first
    choice, or [None] when the call raised, answered without a choice
    or with a null content. *)
Definition answer (p : prompt) (text : str) (w : W) : option str :=
match fst (chat_create p text w) with
| inr (Some content :: _) => Some content
| _ => None
end.

(** [new_name] is what [_clean_filename] makes of the stem of
    [video_file], in some state of the world. *)
Definition cleans_to (cfg : Config) (video_file : path) (new_name : str) : Prop :=
exists s s' : state W,
  _clean_filename cfg (stem video_file) s = (inr new_name, s').

(** The description [_get_video_description] settles on. *)
Definition description_of (video_name : str) (w : W) : str :=
match answer DescribePrompt video_name w with
| Some content => strip content
| None => fallback_prefix ++ video_name
end.

End WithEnv.

(** A file operation the loop may issue for the matches [files] of the
    glob, where [named f n] says that [n] is a cleaned stem of the
    match [f]: the renaming of a match to its cleaned stem with [.mp4],
    beside it, or the writing of the file named by the cleaned stem of
    a match with [.txt], beside that match. *)
Definition allowed_call (named : path -> str -> Prop) (files : list path)
  (c : fs_call) : Prop :=
match c with
| Rename src dst =>
  In src files
  /\ exists new_name, named src new_name
                      /\ dst = parent src ++ [new_name ++ lit ".mp4"]
| WriteText file _ =>
  exists video_file new_name,
    In video_file files /\ named video_file new_name
    /\ file = parent video_file ++ [new_name ++ lit ".txt"]
end.

(** The entries of [dir] whose name ends neither in [.mp4] nor in
    [.txt], and everything below them, are the same in both trees. *)
Definition untouched (dir : path) (t t' : node) : Prop :=
forall (n : str) (rest : path),
  endswith (lit ".mp4") n = false ->
  endswith (lit ".txt") n = false ->
  lookup (dir ++ n :: rest) t' = lookup (dir ++ n :: rest) t.

(** The relation between the states before and after any part of a
    run over the matches [files] of [dir]. *)
Definition frame {W} (named : path -> str -> Prop) (dir : path)
  (files : list path) (s s' : state W) : Prop :=
untouched dir (fs s) (fs s')
/\ exists issued, calls s' = issued ++ calls s
                  /\ Forall (allowed_call named files) issued.

End VideoPreprocessor.

(** ** cli_main.py: the schedule parser *)

Module Schedule.
Local Open Scope N_scope.

(** A naive [datetime] with seconds and microseconds zero and no
    [tzinfo], which is all the format [%Y-%m-%d %H:%M] can produce. *)
Record datetime := {
  year : N; month : N; day : N; hour : N; minute : N
}.

Section WithUnicode.
Context {U : UnicodeDB}.

(** A backtracking matcher: the ways to match a prefix of the input, in
    the engine's order of preference, each with the value read and the
    rest of the input. *)
Definition parser (A : Type) : Type := str -> list (A * str).

Definition alt {A} (p q : parser A) : parser A := fun s => p s ++ q s.

Definition pbind {A B} (p : parser A) (k : A -> parser B) : parser B :=
fun s => flat_map (fun '(a, rest) => k a rest) (p s).

Definition pret {A} (a : A) : parser A := fun s => [(a, s)].

(** The class [\d], with the value [int] gives the digit. *)
Definition any_digit : parser N :=
fun s => match s with
         | c :: rest => match digit_value c with
                        | Some v => [(v, rest)]
                        | None => []
                        end
         | [] => []
         end.

(** A class [[lo-hi]] of ASCII digits. *)
Definition digit_in (lo hi : N) : parser N :=
fun s => match s with
         | c :: rest => if ((48 + lo <=? c) && (c <=? 48 + hi))%N
                        then [((c - 48)%N, rest)] else []
         | [] => []
         end.

Definition literal (c : char) : parser unit :=
fun s => match s with
         | x :: rest => if (x =? c)%N then [(tt, rest)] else []
         | [] => []
         end.

(** [\s+], greedy: the longest run first. *)
Fixpoint spaces1 (s : str) : list (unit * str) :=
match s with
| c :: rest => if is_space c then spaces1 rest ++ [(tt, rest)] else []
| [] => []
end.

Local Notation "x <~ p ;; k" := (pbind p (fun x => k))
  (at level 61, p at next level, right associativity).

(** [%Y] is [\d\d\d\d]. *)
Definition dir_Y : parser N :=
a <~ any_digit ;; b <~ any_digit ;; c <~ any_digit ;; d <~ any_digit ;;
pret (1000 * a + 100 * b + 10 * c + d)%N.

(** [%m] is [1[0-2]|0[1-9]|[1-9]]. *)
Definition dir_m : parser N :=
alt (_ <~ digit_in 1 1 ;; b <~ digit_in 0 2 ;; pret (10 + b)%N)
(alt (_ <~ digit_in 0 0 ;; b <~ digit_in 1 9 ;; pret b)
     (digit_in 1 9)).

(** [%d] is [3[0-1]|[1-2]\d|0[1-9]|[1-9]| [1-9]]. *)
Definition dir_d : parser N :=
alt (_ <~ digit_in 3 3 ;; b <~ digit_in 0 1 ;; pret (30 + b)%N)
(alt (a <~ digit_in 1 2 ;; b <~ any_digit ;; pret (10 * a + b)%N)
(alt (_ <~ digit_in 0 0 ;; b <~ digit_in 1 9 ;; pret b)
(alt (digit_in 1 9)
     (_ <~ literal 32 ;; b <~ digit_in 1 9 ;; pret b)))).

(** [%H] is [2[0-3]|[0-1]\d|\d]. *)
Definition dir_H : parser N :=
alt (_ <~ digit_in 2 2 ;; b <~ digit_in 0 3 ;; pret (20 + b)%N)
(alt (a <~ digit_in 0 1 ;; b <~ any_digit ;; pret (10 * a + b)%N)
     any_digit).

(** [%M] is [[0-5]\d|\d]. *)
Definition dir_M : parser N :=
alt (a <~ digit_in 0 5 ;; b <~ any_digit ;; pret (10 * a + b)%N)
    any_digit.

(** The pattern [_strptime] compiles for ['%Y-%m-%d %H:%M']; the blank
    of the format becomes [\s+]. *)
Definition format_regex : parser datetime :=
y <~ dir_Y ;; _ <~ literal 45 ;; m <~ dir_m ;; _ <~ literal 45 ;; d <~ dir_d ;;
_ <~ spaces1 ;;
h <~ dir_H ;; _ <~ literal 58 ;; mi <~ dir_M ;;
pret {| year := y; month := m; day := d; hour := h; minute := mi |}.

Definition is_leap (y : N) : bool :=
((y mod 4 =? 0) && (negb (y mod 100 =? 0) || (y mod 400 =? 0)))%N.

Definition days_in_month (y m : N) : N :=
if (m =? 2)%N then (if is_leap y then 29 else 28)%N
else if ((m =? 4) || (m =? 6) || (m =? 9) || (m =? 11))%N then 30%N
else 31%N.

(** The checks of the [date] and [datetime] constructors. *)
Definition valid_date (dt : datetime) : bool :=
((1 <=? year dt) && (year dt <=? 9999) && (1 <=? month dt) && (month dt <=? 12)
 && (1 <=? day dt) && (day dt <=? days_in_month (year dt) (month dt))
 && (hour dt <=? 23) && (minute dt <=? 59))%N.

(** The three messages of the [ValueError]s of [strptime]. *)
Definition msg_no_match : str := lit "does not match format".
Definition msg_unconverted : str := lit "unconverted data remains".
Definition msg_out_of_range : str := lit "out of range".

(** [datetime.strptime(data, '%Y-%m-%d %H:%M')]: the first match of the
    pattern at the start of [data] must reach its end, and the fields
    must name a day of the calendar. *)
Definition strptime (data : str) : exception + datetime :=
match format_regex data with
| [] => inl (ValueError msg_no_match)
| (dt, rest) :: _ =>
  match rest with
  | _ :: _ => inl (ValueError msg_unconverted)
  | [] => if valid_date dt then inr dt else inl (ValueError msg_out_of_range)
  end
end.

Definition parse_schedule (schedule_raw : option str) : exception + option datetime :=
match schedule_raw with
| Some (c :: s) =>
  match strptime (c :: s) with
  | inr schedule => inr (Some schedule)
  | inl e => inl e
  end
| _ => inr None
end.

(** Every way the matcher [p] finds is a prefix [t] of its input, with
    [P t v] for the value [v] it reads. *)
Definition reads {A} (P : str -> A -> Prop) (p : parser A) : Prop :=
forall s v rest, In (v, rest) (p s) -> exists t, s = t ++ rest /\ P t v.

(** The matcher [p] reads one digit, whose value satisfies [P]. *)
Definition one_digit (P : N -> Prop) (p : parser N) : Prop :=
forall s v rest, In (v, rest) (p s) ->
  exists c, s = c :: rest /\ digit_value c = Some v /\ P v.

(** The way the matcher [p] prefers on [s] reads [v] and leaves
    [rest]. *)
Definition first_is {A} (p : parser A) (s : str) (v : A) (rest : str) : Prop :=
exists more, p s = (v, rest) :: more.

(** *** The two readings of "the format" *)

(** [int] of a text of decimal digits. *)
Fixpoint decimal_from (acc : N) (t : str) : option N :=
match t with
| [] => Some acc
| c :: t' =>
  match digit_value c with
  | Some v => decimal_from (10 * acc + v) t'
  | None => None
  end
end.

Definition decimal (t : str) : option N :=
match t with
| [] => None
| _ => decimal_from 0 t
end.

(** A numeral of [lo] to [hi] digits with value [v]. *)
Definition numeral (lo hi : nat) (t : str) (v : N) : Prop :=
(lo <= length t <= hi)%nat /\ decimal t = Some v.

(** What [strptime] is prepared to read as [dt]: four digits, a
    hyphen, one or two digits, a hyphen, one or two digits (or a blank
    and a digit), whitespace, one or two digits, a colon, one or two
    digits, which together name a minute of the calendar. *)
Definition reads_as (s : str) (dt : datetime) : Prop :=
exists Y m d ws H Mi,
  s = Y ++ [45] ++ m ++ [45] ++ d ++ ws ++ H ++ [58] ++ Mi
  /\ numeral 4 4 Y (year dt)
  /\ numeral 1 2 m (month dt)
  /\ (numeral 1 2 d (day dt) \/ exists c, d = [32; c] /\ decimal [c] = Some (day dt))
  /\ ws <> [] /\ Forall (fun c => is_space c = true) ws
  /\ numeral 1 2 H (hour dt)
  /\ numeral 1 2 Mi (minute dt)
  /\ valid_date dt = true.

(** Follows the specification, not the code: the fixed format
    [YYYY-MM-DD HH:MM], sixteen characters with ASCII digits in the
    places of the letters, and the fields it shows. *)
Definition fixed_format (s : str) : option datetime :=
match s with
| [y1; y2; y3; y4; h1; m1; m2; h2; d1; d2; b; H1; H2; c; M1; M2] =>
  if forallb is_ascii_digit [y1; y2; y3; y4; m1; m2; d1; d2; H1; H2; M1; M2]
     && (h1 =? 45) && (h2 =? 45) && (b =? 32) && (c =? 58)
  then Some {| year := 1000 * (y1 - 48) + 100 * (y2 - 48) + 10 * (y3 - 48) + (y4 - 48);
               month := 10 * (m1 - 48) + (m2 - 48);
               day := 10 * (d1 - 48) + (d2 - 48);
               hour := 10 * (H1 - 48) + (H2 - 48);
               minute := 10 * (M1 - 48) + (M2 - 48) |}
  else None
| _ => None
end.

End WithUnicode.
End Schedule.

(** ** cli_main.py: discovery of the video files *)

Module Discovery.
Import FS.

Definition video_extensions : list str :=
map lit [".mp4"; ".mov"; ".avi"; ".mkv"; ".wmv"; ".flv"]%string.

(** [sorted] on a list of strings: a stable insertion sort by code
    points. *)
Fixpoint insert_sorted (x : str) (l : list str) : list str :=
match l with
| [] => [x]
| y :: l' => if str_leb x y then x :: l else y :: insert_sorted x l'
end.

Definition sorted (l : list str) : list str := fold_right insert_sorted [] l.

Section WithUnicode.
Context {U : UnicodeDB}.

Definition get_video_files (fs : node) (path : str) : list str :=
let path := Path path in
if is_file fs path then
  (if existsb (str_eqb (lower (suffix path))) video_extensions
   then [path_str path] else [])
else
  let video_files :=
    flat_map (fun ext => map path_str (rglob fs path ext)) video_extensions in
  sorted video_files.

End WithUnicode.
End Discovery.

(** ** cli_main.py: the router *)

Module Router.
Import FS Schedule Discovery.
Local Open Scope py_scope.

(** The platforms [main] tells apart; [OtherPlatform] is a supported
    name that none of the four constants equals. *)
Inductive platform :=
| Douyin | Tiktok | Tencent | Kuaishou
| OtherPlatform (name : str).

(** The actions of [get_cli_action()]. *)
Inductive action :=
| Login | Upload
| OtherAction (name : str).

(** The namespace [parser.parse_args()] returns.  [files] and
    [directory] are [None] when their option was not given. *)
Record Args := {
  arg_platform : platform;
  account_name : str;
  arg_action : action;
  files : option (list str);
  directory : option str;
  publish_type : Z;
  schedule : option str
}.

(** [BASE_DIR / "cookies" / f"{platform}_{account_name}.json"] *)
Record account_file := {
  cookie_platform : platform;
  cookie_account : str
}.

(** The value an adapter receives as its publish date: the integer [0],
    a [datetime], or [None]. *)
Inductive publish_date :=
| Zero
| At (instant : datetime)
| NoDate.

(** [TencentZoneTypes.LIFESTYLE.value] *)
Inductive category := LIFESTYLE.

(** An upload job: [DouYinVideo], [TiktokVideo], [TencentVideo] or
    [KSVideo] with the arguments of its constructor. *)
Record job := {
  job_platform : platform;
  job_title : str;
  job_file : str;
  job_tags : list str;
  job_date : publish_date;
  job_account : account_file;
  job_category : option category
}.

Inductive message :=
| Found (count : nat)           (* 找到 n 个视频文件 *)
| Item (video : str)
| Logging_in (account : str) (p : platform)
| Uploading (video : str)       (* 正在上传 *)
| Planning (video : str)        (* 计划上传 *)
| Uploaded (video : str)        (* 完成上传 *)
| Wrong_platform.

(** What [main] does that can be observed from outside. *)
Inductive event :=
| Print (m : message)
| Mkdir (cookie : account_file)
| Title_of (video : str)
| Setup (p : platform) (cookie : account_file) (handle : bool)
| Construct (j : job)
| Run (j : job).

(** The collaborators of [main] that live outside the two source files:
    the title extractor, the four [*_setup] functions, the [main] of
    the four job classes, and the [mkdir] of the cookie directory. *)
Class Adapters (W : Type) := {
  get_title_and_hashtags : str -> W -> (raised + (str * list str)) * W;
  platform_setup : platform -> account_file -> bool -> W -> (raised + unit) * W;
  app_main : job -> W -> (raised + unit) * W;
  mkdir_cookies : account_file -> W -> (raised + unit) * W
}.

(** The events so far (latest first) and the outside world. *)
Record state (W : Type) := {
  events : list event;
  world : W
}.

Section WithAdapters.
Context {U : UnicodeDB} {W : Type} {A : Adapters W}.

Local Abbreviation P := (M (state W) raised).

Definition emit (e : event) : P unit :=
modify (fun s => {| events := e :: events s; world := world s |}).

Definition print (m : message) : P unit := emit (Print m).

(** A call of a collaborator: noted, then made. *)
Definition call {B} (e : event) (f : W -> (raised + B) * W) : P B :=
fun s => let '(r, w) := f (world s) in
         (r, {| events := e :: events s; world := w |}).

(** [os.path.exists] of a string: whether [stat] finds the path,
    resolved from the working directory, which is the root of the
    tree.  It is false for the empty string and (from Python 3.8 on)
    for a string with a null character, which no argument of a command
    line and no name of a file holds; a final separator asks for a
    directory. *)
Definition os_exists (fs : node) (p : str) : bool :=
match p with
| [] => false
| _ =>
  if has_char 0%N p then false
  else match resolve [] fs (split 47%N p) with
       | Some _ => true
       | None => false
       end
end.

Definition nonempty {B} (l : option (list B)) : bool :=
match l with Some (_ :: _) => true | _ => false end.

(** Lines 64-75: the list of videos the checks run on. *)
Definition collect_videos (fs : node) (args : Args) : P (list str) :=
match files args, directory args with
| Some (f :: fs'), _ => ret (f :: fs')
| _, Some (c :: d) =>
  let dir := c :: d in
  if negb (os_exists fs dir) then raise (Exc (FileNotFoundError dir))
  else
    let video_files := get_video_files fs dir in
    match video_files with
    | [] => raise (Exc (ValueError dir))
    | _ =>
      print (Found (length video_files)) ;;;
      for_each video_files (fun video => print (Item video)) ;;;
      ret video_files
    end
| _, _ => ret []
end.

(** Lines 63-82. *)
Definition check_args (fs : node) (args : Args) : P unit :=
match arg_action args with
| Upload =>
  video_files <- collect_videos fs args ;;
  for_each video_files (fun video_file =>
    if negb (os_exists fs video_file)
    then raise (Exc (FileNotFoundError video_file))
    else ret tt) ;;;
  if ((publish_type args =? 1)%Z && negb (nonempty (schedule args)))
  then raise (SystemExit 2)
  else ret tt
| _ => ret tt
end.

Definition of_exception {B} (r : exception + B) : P B :=
match r with
| inr b => ret b
| inl e => raise (Exc e)
end.

(** Lines 102-126: the job for one video. *)
Definition build_app (args : Args) (cookie : account_file) (video_file : str) : P job :=
'(title, tags) <- call (Title_of video_file) (get_title_and_hashtags video_file) ;;
publish_date <-
  (if (publish_type args =? 0)%Z
   then print (Uploading video_file) ;;; ret Zero
   else print (Planning video_file) ;;;
        d <- of_exception (parse_schedule (schedule args)) ;;
        ret (match d with Some t => At t | None => NoDate end)) ;;
let make handle cat :=
  let p := arg_platform args in
  call (Setup p cookie handle) (platform_setup p cookie handle) ;;;
  let app := {| job_platform := p; job_title := title; job_file := video_file;
                job_tags := tags; job_date := publish_date;
                job_account := cookie; job_category := cat |} in
  emit (Construct app) ;;; ret app in
match arg_platform args with
| Douyin => make false None
| Tiktok => make true None
| Tencent => make true (Some LIFESTYLE)
| Kuaishou => make true None
| OtherPlatform _ => print Wrong_platform ;;; raise (SystemExit 0)
end.

(** Lines 101-129: one turn of the upload loop. *)
Definition upload_one (args : Args) (cookie : account_file) (video_file : str) : P unit :=
app <- build_app args cookie video_file ;;
call (Run app) (app_main app) ;;;
print (Uploaded video_file).

(** Line 99. *)
Definition upload_list (fs : node) (args : Args) : P (list str) :=
match files args with
| Some (f :: fs') => ret (f :: fs')
| _ =>
  match directory args with
  | Some d => ret (get_video_files fs d)
  | None => raise (Exc TypeError)
  end
end.

(** Line 84: the credential file of the platform and the account. *)
Definition cookie_of (args : Args) : account_file :=
{| cookie_platform := arg_platform args; cookie_account := account_name args |}.

Definition main (fs : node) (args : Args) : P unit :=
check_args fs args ;;;
let cookie := cookie_of args in
call (Mkdir cookie) (mkdir_cookies cookie) ;;;
match arg_action args with
| Login =>
  print (Logging_in (account_name args) (arg_platform args)) ;;;
  match arg_platform args with
  | OtherPlatform _ => ret tt
  | p => call (Setup p cookie true) (platform_setup p cookie true)
  end
| Upload =>
  video_files <- upload_list fs args ;;
  for_each video_files (upload_one args cookie)
| OtherAction _ => ret tt
end.

End WithAdapters.

(** The namespace with another value for [--schedule]. *)
Definition set_schedule (t : option str) (args : Args) : Args :=
{| arg_platform := arg_platform args; account_name := account_name args;
   arg_action := arg_action args; files := files args;
   directory := directory args; publish_type := publish_type args;
   schedule := t |}.

Definition is_print (e : event) : bool :=
match e with Print _ => true | _ => false end.

(** The events of an upload: the establishment of a session, the
    construction of a job, its execution. *)
Definition is_upload_event (e : event) : bool :=
match e with
| Setup _ _ _ | Construct _ | Run _ => true
| _ => false
end.

(** From [s] to [s'] only events that satisfy [ok] were added. *)
Definition added {W} (ok : event -> bool) (s s' : state W) : Prop :=
exists new, events s' = new ++ events s /\ forallb ok new = true.

(** From [s] to [s'] nothing happened but printing. *)
Definition only_printed {W} (s s' : state W) : Prop :=
world s' = world s /\ added is_print s s'.

(** An event that carries a job carries one dated [0]. *)
Definition dated_zero (e : event) : bool :=
match e with
| Construct j | Run j => match job_date j with Zero => true | _ => false end
| _ => true
end.

End Router.

(** ** The wildcard construction in the specification's words *)

Module WildcardSpec.

(** Follows the specification, not the code: split the pattern on the
    wildcard, escape each literal segment, join the segments with the
    non-greedy match-any rule. *)
Definition wildcard_regex_spec (pattern : str) : str :=
join (lit ".*?") (map Re.escape (split 42%N pattern)).

(** The pattern read token by token: the wildcard is the lazy
    match-any, every other character stands for itself. *)
Definition wildcard_tokens (pattern : str) : Re.regex :=
map (fun c => if (c =? 42)%N then Re.LazyAny else Re.Lit c) pattern.

(** The escaped form of the three characters that replaced a wildcard,
    and those three characters. *)
Definition escaped_wildcard : str := [92; 46; 92; 42; 92; 63]%N.
Definition lazy_wildcard : str := [46; 42; 63]%N.

(** The pattern after the first [replace] and [re.escape], character by
    character of the remove-pattern. *)
Definition escaped_piece (c : char) : str :=
if (c =? 42)%N then escaped_wildcard else Re.escape_char c.

(** The same after the second [replace]. *)
Definition final_piece (c : char) : str :=
if (c =? 42)%N then lazy_wildcard else Re.escape_char c.

End WildcardSpec.

(** ** Concrete worlds, configurations and trees for the examples *)

Module Sample.
Import FS VideoPreprocessor.

(** A text service that is down, on an operating system that refuses
    no file operation. *)
Definition offline : Env unit :=
{| chat_create := fun _ _ w => (inl (ServiceError 503), w);
   io_fault := fun _ _ => None;
   write_fault := fun _ _ _ => None |}.

(** A configuration with the bracket pattern and a short maximum. *)
Definition short_cfg : Config :=
{| video_directory := [lit "videos"];
   remove_patterns := [lit "[*]"; lit "(Official)"];
   translate_to_chinese := None;
   max_filename_length := Some 5%Z |}.

(** The same with the default maximum. *)
Definition default_cfg : Config :=
{| video_directory := [lit "videos"];
   remove_patterns := [lit "[*]"; lit "(Official)"];
   translate_to_chinese := Some true;
   max_filename_length := None |}.

Definition song : str := lit "Song [Copyright Free] Track".

(** A working directory with a directory of videos. *)
Definition tree : node :=
Dir [ (lit "videos",
       Dir [ (lit "Song [Copyright Free] Track.mp4", File (lit "a"));
             (lit "clip.mov", File (lit "b"));
             (lit "LOUD.MP4", File (lit "c"));
             (lit "plain.mp4", File (lit "d"));
             (lit "sub", Dir [ (lit "deep.mp4", File (lit "e")) ]) ]);
      (lit "notes.txt", File (lit "f")) ].

Definition start : state unit :=
{| fs := tree; log := []; calls := []; world := tt |}.

(** Collaborators of the router that count the jobs run so far and let
    the second one fail. *)
Definition flaky : Router.Adapters nat :=
{| Router.get_title_and_hashtags := fun video w => (inr (video, [lit "#tag"]), w);
   Router.platform_setup := fun _ _ _ w => (inr tt, w);
   Router.app_main := fun _ w =>
     if (w =? 1)%nat then (inl (Exc (OSError 5)), S w) else (inr tt, S w);
   Router.mkdir_cookies := fun _ w => (inr tt, w) |}.

Definition upload_args (l : list str) : Router.Args :=
{| Router.arg_platform := Router.Douyin;
   Router.account_name := lit "xiaoA";
   Router.arg_action := Router.Upload;
   Router.files := Some l;
   Router.directory := None;
   Router.publish_type := 0%Z;
   Router.schedule := None |}.

Definition quiet : Router.state nat :=
{| Router.events := []; Router.world := 0%nat |}.

End Sample.

(** ** Names of a real file system *)

Module Names.
Import FS.

(** A name an entry of a directory can have: not empty, not [.], and
    without a separator. *)
Definition good_name (n : str) : bool :=
negb (str_eqb n []) && negb (str_eqb n (lit ".")) && negb (has_char 47%N n).

(** Every entry that can be reached in the tree has such a name. *)
Definition well_named (t : node) : Prop :=
forall (p : path) (es : list (str * node)) (n : str) (m : node),
  lookup p t = Some (Dir es) -> In (n, m) es -> good_name n = true.

(** The same, checked by going through the tree. *)
Fixpoint all_names_good (t : node) : bool :=
match t with
| File _ => true
| Dir es => forallb (fun e => good_name (fst e) && all_names_good (snd e)) es
end.

End Names.

(** ** The discovery with the extensions in another order *)

Module DiscoveryOrder.
Import FS Discovery.

(** The directory branch of [get_video_files] (lines 33-36) with the
    set of extensions iterated in the order [exts]. *)
Definition discover (exts : list str) (fs : node) (path : path) : list str :=
sorted (flat_map (fun ext => map path_str (rglob fs path ext)) exts).

End DiscoveryOrder.

(** ** The outcome of the checks of [main] *)

Module Checks.
Import FS Schedule Discovery Router.

(** Line 81: scheduled publishing without a schedule. *)
Definition schedule_missing (args : Args) : bool :=
(publish_type args =? 1)%Z && negb (nonempty (schedule args)).

(** What lines 77-82 come to on a list of videos: the first path that
    does not exist is reported, else the missing schedule. *)
Definition checks_outcome (fs : node) (args : Args) (video_files : list str)
  : raised + unit :=
match find (fun v => negb (os_exists fs v)) video_files with
| Some v => inl (Exc (FileNotFoundError v))
| None => if schedule_missing args then inl (SystemExit 2) else inr tt
end.

(** The lines printed for the videos found in a directory, latest
    first. *)
Definition found_lines (video_files : list str) : list event :=
rev (map (fun v => Print (Item v)) video_files) ++ [Print (Found (length video_files))].

End Checks.

(** ** What a run of [main] is expected to leave *)

Module Runs.
Import Schedule Router.

(** Lines 111-123: only the session of douyin is set up without
    handling, only the job of tencent has a category. *)
Definition handle_of (p : platform) : bool :=
match p with Douyin => false | _ => true end.

Definition category_of (p : platform) : option category :=
match p with Tencent => Some LIFESTYLE | _ => None end.

Definition known (p : platform) : bool :=
match p with OtherPlatform _ => false | _ => true end.

(** Lines 104-109: the publish date of the jobs of a run, when the
    schedule parses. *)
Definition date_of {U : UnicodeDB} (args : Args) : option publish_date :=
if (publish_type args =? 0)%Z then Some Zero
else match parse_schedule (schedule args) with
     | inr (Some t) => Some (At t)
     | inr None => Some NoDate
     | inl _ => None
     end.

(** The line printed before a video is uploaded. *)
Definition announce (args : Args) (video : str) : message :=
if (publish_type args =? 0)%Z then Uploading video else Planning video.

(** The events of the upload of one video that went through, latest
    first. *)
Definition upload_events (args : Args) (j : job) : list event :=
[ Print (Uploaded (job_file j)); Run j; Construct j;
  Setup (job_platform j) (job_account j) (handle_of (job_platform j));
  Print (announce args (job_file j)); Title_of (job_file j) ].

(** Collaborators that never raise. *)
Definition never_fail {W} (A : Adapters W) : Prop :=
(forall v w, exists r w', get_title_and_hashtags v w = (inr r, w'))
/\ (forall p c h w, exists w', platform_setup p c h w = (inr tt, w'))
/\ (forall j w, exists w', app_main j w = (inr tt, w'))
/\ (forall c w, exists w', mkdir_cookies c w = (inr tt, w')).

(** The events a login may add: no title is extracted, no job is
    constructed or run, and a session is set up with handling. *)
Definition login_event (e : event) : bool :=
match e with
| Title_of _ | Construct _ | Run _ => false
| Setup _ _ handle => handle
| _ => true
end.

End Runs.

(** ** Measures on the results of the normalizer *)

Module Measures.
Import VideoPreprocessor.

(** [a] is [b] with some characters left out. *)
Inductive subseq : str -> str -> Prop :=
| subseq_nil : subseq [] []
| subseq_keep (c : char) (a b : str) : subseq a b -> subseq (c :: a) (c :: b)
| subseq_drop (c : char) (a b : str) : subseq a b -> subseq a (c :: b).

(** The record that closes the turn of one file: its sidecar was
    written, or its processing raised. *)
Definition closes_file (r : log_record) : bool :=
match r with
| InfoSidecar _ | ErrFile _ _ => true
| _ => false
end.

Definition files_closed (l : list log_record) : nat := length (filter closes_file l).

End Measures.

(** ** The turns of the loop of the normalizer *)

Module Turns.
Import FS VideoPreprocessor Measures.

Section WithEnv.
Context {U : UnicodeDB} {W : Type} {E : Env W}.

(** One turn of the loop of lines 129-155: the body under its [try]. *)
Definition turn (cfg : Config) (video_file : path) : M (state W) exception unit :=
try_except (process_file cfg video_file) (fun e => logging (ErrFile video_file e)).

(** The state [turn] ends in when the body raised [e] in [s]. *)
Definition caught (video_file : path) (e : exception) (s : state W) : state W :=
{| fs := fs s; log := ErrFile video_file e :: log s; calls := calls s; world := world s |}.

(** The record that closes the turn of [video_file]: its error, or
    the sidecar of a cleaned stem of it. *)
Definition closes (cfg : Config) (video_file : path) (r : log_record) : Prop :=
(exists e, r = ErrFile video_file e)
\/ exists new_name,
     cleans_to cfg video_file new_name
     /\ r = InfoSidecar (parent video_file ++ [new_name ++ lit ".txt"]).

(** The file operations of the turn of [video_file], latest first:
    none, the renaming to a cleaned stem, the writing of its sidecar,
    or both. *)
Definition turn_ops (cfg : Config) (video_file : path) (ops : list fs_call) : Prop :=
ops = []
\/ exists new_name,
     cleans_to cfg video_file new_name
     /\ let mv := Rename video_file (parent video_file ++ [new_name ++ lit ".mp4"]) in
        let txt := parent video_file ++ [new_name ++ lit ".txt"] in
        ops = [mv] \/ exists d, ops = [WriteText txt d] \/ ops = [WriteText txt d; mv].

End WithEnv.


(** A step issues no file operation and adds no closing record. *)
Definition quiet_step {W} (s s' : state W) : Prop :=
calls s' = calls s
/\ exists added, log s' = added ++ log s /\ filter closes_file added = [].

End Turns.

(** ** More sample inputs *)

Module Cases.
Import FS VideoPreprocessor.

(** Collaborators of the router that never raise; the world counts
    the jobs that ran. *)
Definition steady : Router.Adapters nat :=
{| Router.get_title_and_hashtags := fun video w => (inr (video, [lit "#tag"]), w);
   Router.platform_setup := fun _ _ _ w => (inr tt, w);
   Router.app_main := fun _ w => (inr tt, S w);
   Router.mkdir_cookies := fun _ w => (inr tt, w) |}.

Definition login_args (p : Router.platform) : Router.Args :=
{| Router.arg_platform := p;
   Router.account_name := lit "xiaoA";
   Router.arg_action := Router.Login;
   Router.files := None;
   Router.directory := None;
   Router.publish_type := 0%Z;
   Router.schedule := None |}.

(** An upload from a directory, immediate or planned without a
    schedule. *)
Definition directory_args (d : str) (publish_type : Z) : Router.Args :=
{| Router.arg_platform := Router.Kuaishou;
   Router.account_name := lit "xiaoA";
   Router.arg_action := Router.Upload;
   Router.files := None;
   Router.directory := Some d;
   Router.publish_type := publish_type;
   Router.schedule := None |}.

(** Configurations of the normalizer without translation. *)
Definition plain_cfg : Config :=
{| video_directory := [lit "videos"];
   remove_patterns := [lit "[*]"];
   translate_to_chinese := Some false;
   max_filename_length := None |}.

Definition star_cfg : Config :=
{| video_directory := [lit "videos"];
   remove_patterns := [lit "(Official)"; lit "*"];
   translate_to_chinese := None;
   max_filename_length := None |}.




(** A directory where the cleaned name of [a b!.mp4] is taken, by a
    file and by a directory. *)
Definition crowded : state unit :=
{| fs := Dir [ (lit "videos",
                Dir [ (lit "a b!.mp4", File (lit "x"));
                      (lit "a b.mp4", File (lit "y")) ]) ];
   log := []; calls := []; world := tt |}.

Definition blocked : state unit :=
{| fs := Dir [ (lit "videos",
                Dir [ (lit "a b!.mp4", File (lit "x"));
                      (lit "a b.mp4", Dir []) ]) ];
   log := []; calls := []; world := tt |}.

End Cases.

(* ===================================================================== *)
(** * Part II. Properties                                                 *)
(* ===================================================================== *)

Unset Implicit Arguments.

#[local] Arguments N.eqb : simpl never.
#[local] Arguments N.leb : simpl never.
#[local] Arguments N.ltb : simpl never.

(** Membership in a literal list of characters, case by case. *)
Ltac char_cases H :=
  cbn [existsb] in H;
  repeat (apply orb_true_iff in H; destruct H as [H|H]);
  try discriminate H;
  try (apply N.eqb_eq in H; subst).

(** ** Strings *)

Section StrFacts.

Lemma str_eqb_eq (a b : str) : str_eqb a b = true <-> a = b.
Proof.
revert b; induction a as [|x a IH]; intros [|y b]; simpl; split; intro H;
  try reflexivity; try discriminate.
- apply andb_true_iff in H as [Hx Hr]. apply N.eqb_eq in Hx.
  apply IH in Hr. now subst.
- injection H as -> ->. rewrite N.eqb_refl. simpl. now apply IH.
Qed.

Lemma str_eqb_refl (a : str) : str_eqb a a = true.
Proof. now apply str_eqb_eq. Qed.

Lemma startswith_app (p s : str) : startswith p (p ++ s) = true.
Proof. induction p as [|x p IH]; simpl; [reflexivity|]. now rewrite N.eqb_refl. Qed.

Lemma startswith_prefix (p s : str) :
  startswith p s = true <-> exists t, s = p ++ t.
Proof.
revert s; induction p as [|x p IH]; intros s; simpl.
- split; [intros _; now exists s | reflexivity].
- destruct s as [|y s]; [split; [discriminate | intros [t Ht]; discriminate]|].
  rewrite andb_true_iff, N.eqb_eq, IH. split.
  + intros [-> [t ->]]. now exists t.
  + intros [t Ht]. injection Ht as -> ->. split; [reflexivity | now exists t].
Qed.

Lemma startswith_cons (x : char) (p : str) (y : char) (s : str) :
  startswith (x :: p) (y :: s) = (x =? y)%N && startswith p s.
Proof. reflexivity. Qed.

Lemma startswith_app_false (a b s : str) :
  startswith a s = false -> startswith (a ++ b) s = false.
Proof.
revert s; induction a as [|x a IH]; intros s H; [discriminate|].
destruct s as [|y s]; [reflexivity|].
cbn [app]. rewrite startswith_cons in *.
destruct (x =? y)%N; [|reflexivity]. cbn [andb] in *. now apply IH.
Qed.

(** Passing over the rest of a replaced occurrence. *)
Lemma replace_from_skip (old new pre rest : str) :
  replace_from old new (length pre) (pre ++ rest) = replace_from old new 0 rest.
Proof.
induction pre as [|c pre IH]; simpl; [|exact IH].
destruct rest; reflexivity.
Qed.

Lemma replace_from_hit (old new rest : str) :
  old <> [] ->
  replace_from old new 0 (old ++ rest) = new ++ replace_from old new 0 rest.
Proof.
destruct old as [|c old]; [congruence|]. intros _.
change ((c :: old) ++ rest) with (c :: (old ++ rest)).
cbn [replace_from].
change (c :: old ++ rest) with ((c :: old) ++ rest).
rewrite startswith_app. f_equal.
replace (length (c :: old) - 1) with (length old) by (simpl; lia).
apply replace_from_skip.
Qed.

Lemma replace_from_miss (old new : str) (c : char) (rest : str) :
  startswith old (c :: rest) = false ->
  replace_from old new 0 (c :: rest) = c :: replace_from old new 0 rest.
Proof. intros H. cbn [replace_from]. now rewrite H. Qed.

Lemma lstrip_idem (s : str) : lstrip (lstrip s) = lstrip s.
Proof.
induction s as [|c s IH]; [reflexivity|]. simpl.
destruct (is_space c) eqn:Hc; [exact IH|]. simpl. now rewrite Hc.
Qed.

Lemma lstrip_length (s : str) : (length (lstrip s) <= length s)%nat.
Proof.
induction s as [|c s IH]; simpl; [lia|]. destruct (is_space c); simpl; lia.
Qed.

Lemma lstrip_In (s : str) (c : char) : In c (lstrip s) -> In c s.
Proof.
induction s as [|d s IH]; simpl; [tauto|].
destruct (is_space d); simpl; intuition.
Qed.

Lemma lstrip_snoc (w : str) (c : char) :
  is_space c = false -> lstrip (w ++ [c]) = lstrip w ++ [c].
Proof.
intros Hc. induction w as [|d w IH]; simpl; [now rewrite Hc|].
destruct (is_space d); [exact IH | reflexivity].
Qed.

(** A string [lstrip] leaves alone is empty or starts with a character
    that is not a space. *)
Lemma lstrip_fix_head (c : char) (s : str) :
  lstrip (c :: s) = c :: s -> is_space c = false.
Proof.
simpl. destruct (is_space c); [|reflexivity].
intros H. pose proof (lstrip_length s) as L. rewrite H in L. simpl in L. lia.
Qed.

Lemma strip_length (s : str) : (length (strip s) <= length s)%nat.
Proof.
unfold strip, rstrip. rewrite length_rev.
pose proof (lstrip_length (rev (lstrip s))) as A.
pose proof (lstrip_length s) as B. rewrite length_rev in A. lia.
Qed.

Lemma strip_In (s : str) (c : char) : In c (strip s) -> In c s.
Proof.
unfold strip, rstrip. intros H. apply in_rev in H.
apply lstrip_In in H. apply in_rev in H. now apply lstrip_In.
Qed.

Lemma lstrip_rstrip (s : str) : lstrip s = s -> lstrip (rstrip s) = rstrip s.
Proof.
destruct s as [|c s]; [reflexivity|]. intros H.
apply lstrip_fix_head in H. unfold rstrip. cbn [rev].
rewrite (@lstrip_snoc (rev s) c H), rev_app_distr. simpl. now rewrite H.
Qed.

(** [strip] leaves its own results alone. *)
Lemma strip_idem (s : str) : strip (strip s) = strip s.
Proof.
unfold strip.
rewrite (@lstrip_rstrip (lstrip s) (lstrip_idem s)).
unfold rstrip. rewrite rev_involutive, lstrip_idem. reflexivity.
Qed.

Lemma slice_to_firstn (s : str) (stop : Z) :
  (0 <= stop)%Z -> slice_to s stop = firstn (Z.to_nat stop) s.
Proof. intros H. unfold slice_to. now apply Z.leb_le in H as ->. Qed.

Lemma firstn_In_str (n : nat) (s : str) (c : char) : In c (firstn n s) -> In c s.
Proof.
revert s; induction n as [|n IH]; intros [|d s]; simpl; try tauto.
intros [H|H]; [now left | right; now apply IH].
Qed.

Lemma slice_to_In (s : str) (stop : Z) (c : char) : In c (slice_to s stop) -> In c s.
Proof. unfold slice_to. destruct (0 <=? stop)%Z; apply firstn_In_str. Qed.

Lemma filter_all (A : Type) (f : A -> bool) (l : list A) :
  (forall x, In x l -> f x = true) -> filter f l = l.
Proof.
induction l as [|x l IH]; intros H; simpl; [reflexivity|].
rewrite (H x (or_introl eq_refl)). f_equal. apply IH. intros y Hy. apply H. now right.
Qed.

(** Nothing is replaced where the old string does not occur. *)
Lemma replace_absent (s old new : str) :
  contains old s = false -> replace s old new = s.
Proof.
intros H. unfold replace. destruct old as [|o old]; [destruct s; discriminate|].
induction s as [|c s IH]; [reflexivity|].
cbn [contains] in H. apply orb_false_iff in H as [H1 H2].
rewrite replace_from_miss by exact H1. f_equal. now apply IH.
Qed.

End StrFacts.

(** ** The pattern compiled for a wildcard *)

Section Wildcard.
Import Re VideoPreprocessor WildcardSpec.

Lemma special_92 : is_special 92%N = true. Proof. reflexivity. Qed.
Lemma special_46 : is_special 46%N = true. Proof. reflexivity. Qed.
Lemma special_42 : is_special 42%N = true. Proof. reflexivity. Qed.

Lemma replace_star (p : str) :
  replace p (lit "*") (lit ".*?")
  = flat_map (fun c => if (c =? 42)%N then lazy_wildcard else [c]) p.
Proof.
unfold replace. change (lit "*") with [42%N]. change (lit ".*?") with lazy_wildcard.
induction p as [|c p IH]; [reflexivity|].
cbn [replace_from flat_map startswith length Nat.sub].
rewrite N.eqb_sym, andb_true_r.
destruct (c =? 42)%N; simpl; now rewrite IH.
Qed.

Lemma escape_app (a b : str) : escape (a ++ b) = escape a ++ escape b.
Proof. unfold escape. apply flat_map_app. Qed.

Lemma escape_replaced (p : str) :
  escape (replace p (lit "*") (lit ".*?")) = flat_map escaped_piece p.
Proof.
rewrite replace_star. induction p as [|c p IH]; [reflexivity|].
cbn [flat_map]. rewrite escape_app, IH. f_equal.
unfold escaped_piece. destruct (c =? 42)%N eqn:Hc; [reflexivity|].
unfold escape. simpl. now rewrite app_nil_r.
Qed.

(** The escaped pattern never continues with an escaped star that is
    not part of a replaced wildcard, nor with a bare dot. *)
Lemma escaped_head (p : str) :
  startswith [92; 42]%N (flat_map escaped_piece p) = false
  /\ startswith [46%N] (flat_map escaped_piece p) = false.
Proof.
destruct p as [|c p]; [split; reflexivity|].
cbn [flat_map]. unfold escaped_piece at 1 3.
destruct (c =? 42)%N eqn:Hc; [split; reflexivity|].
unfold escape_char. destruct (is_special c) eqn:Hs.
- split; cbn [app startswith]; [|reflexivity].
  rewrite N.eqb_refl, (N.eqb_sym 42%N c), Hc. reflexivity.
- split; cbn [app startswith].
  + destruct (N.eqb_spec 92%N c) as [<-|]; [now rewrite special_92 in Hs | reflexivity].
  + destruct (N.eqb_spec 46%N c) as [<-|]; [now rewrite special_46 in Hs | reflexivity].
Qed.

Lemma restore_wildcards (p : str) :
  replace_from escaped_wildcard lazy_wildcard 0 (flat_map escaped_piece p)
  = flat_map final_piece p.
Proof.
induction p as [|c p IH]; [reflexivity|].
cbn [flat_map]. unfold escaped_piece at 1, final_piece at 1.
destruct (c =? 42)%N eqn:Hc.
- rewrite replace_from_hit by discriminate. now rewrite IH.
- destruct (escaped_head p) as [H1 H2].
  unfold escape_char. destruct (is_special c) eqn:Hs.
  + cbn [app].
    rewrite replace_from_miss.
    2:{ unfold escaped_wildcard. rewrite !startswith_cons.
        pose proof (startswith_app_false [92; 42]%N [92; 63]%N _ H1) as H.
        apply andb_false_intro2, andb_false_intro2. exact H. }
    rewrite replace_from_miss.
    2:{ unfold escaped_wildcard. rewrite startswith_cons.
        pose proof (startswith_app_false [46%N] [92; 42; 92; 63]%N _ H2) as H.
        apply andb_false_intro2. exact H. }
    now rewrite IH.
  + cbn [app].
    rewrite replace_from_miss.
    2:{ unfold escaped_wildcard. rewrite startswith_cons.
        destruct (N.eqb_spec 92%N c) as [<-|]; [now rewrite special_92 in Hs | reflexivity]. }
    now rewrite IH.
Qed.

(** The code's pattern, character by character. *)
Lemma wildcard_regex_pieces (p : str) :
  wildcard_regex p = flat_map final_piece p.
Proof.
unfold wildcard_regex. rewrite escape_replaced.
change (lit "\.\*\?") with escaped_wildcard. change (lit ".*?") with lazy_wildcard.
unfold replace, escaped_wildcard at 1. apply restore_wildcards.
Qed.

Lemma split_nonempty (sep : char) (s : str) : split sep s <> [].
Proof.
destruct s as [|c s]; simpl; [discriminate|].
destruct (c =? sep)%N; [discriminate|]. destruct (split sep s); discriminate.
Qed.

(** The specification's pattern, character by character. *)
Lemma wildcard_regex_spec_pieces (p : str) :
  wildcard_regex_spec p = flat_map final_piece p.
Proof.
unfold wildcard_regex_spec. change (lit ".*?") with lazy_wildcard.
induction p as [|c p IH]; [reflexivity|].
cbn [split flat_map]. unfold final_piece at 1.
pose proof (split_nonempty 42%N p) as Hne.
destruct (c =? 42)%N.
- destruct (split 42%N p) as [|seg segs] eqn:Hsp; [congruence|].
  cbn [map join] in *. rewrite <- IH. reflexivity.
- destruct (split 42%N p) as [|seg segs] eqn:Hsp; [congruence|].
  rewrite <- IH. cbn [map]. 
  change (escape (c :: seg)) with (escape_char c ++ escape seg).
  destruct segs as [|seg' segs]; cbn [map join]; [reflexivity|].
  now rewrite <- app_assoc.
Qed.

Lemma special_not_alnum (c : char) :
  is_special c = true -> is_ascii_alnum c = false.
Proof.
unfold is_special, has_char. set (l := special_chars). vm_compute in l. subst l.
intros H. char_cases H; reflexivity.
Qed.

Lemma meta_special (c : char) : is_meta c = true -> is_special c = true.
Proof.
unfold is_meta, has_char. set (l := lit _). vm_compute in l. subst l.
intros H. char_cases H; reflexivity.
Qed.

(** The compiled pattern is always inside the fragment, and reads as
    the remove-pattern with its stars as lazy wildcards. *)
Lemma parse_final_pieces (p : str) :
  parse (flat_map final_piece p) = Some (wildcard_tokens p).
Proof.
induction p as [|c p IH]; [reflexivity|].
cbn [flat_map wildcard_tokens map]. unfold final_piece at 1.
destruct (N.eqb_spec c 42) as [->|Hc].
- cbn [lazy_wildcard app parse]. fold (wildcard_tokens p).
  change (46 =? 92)%N with false. change (46 =? 46)%N with true.
  change (42 =? 42)%N with true. change (63 =? 63)%N with true.
  cbn [andb]. now rewrite IH.
- unfold escape_char. destruct (is_special c) eqn:Hs.
  + cbn [app parse]. rewrite N.eqb_refl.
    rewrite (special_not_alnum _ Hs), andb_false_r.
    fold (wildcard_tokens p). now rewrite IH.
  + cbn [app parse].
    destruct (N.eqb_spec c 92) as [->|_]; [now rewrite special_92 in Hs|].
    destruct (N.eqb_spec c 46) as [->|_]; [now rewrite special_46 in Hs|].
    destruct (is_meta c) eqn:Hm; [apply meta_special in Hm; congruence|].
    fold (wildcard_tokens p). now rewrite IH.
Qed.

Lemma parse_wildcard_regex (p : str) :
  parse (wildcard_regex p) = Some (wildcard_tokens p).
Proof. rewrite wildcard_regex_pieces. apply parse_final_pieces. Qed.

(** A turn of the loop over the remove-patterns never raises. *)
Lemma remove_pattern_total (name pattern : str) :
  remove_pattern name pattern
  = inr (if has_char 42%N pattern
         then sub_delete (wildcard_tokens pattern) name
         else replace name pattern []).
Proof.
unfold remove_pattern. rewrite parse_wildcard_regex. now destruct (has_char _ _).
Qed.

(** C5. For every remove-pattern the pattern string the code compiles
    (each star replaced by the lazy wildcard, the whole escaped, the
    escaped wildcards restored) is the string of the specified
    construction (split on the star, escape the segments, join with the
    lazy wildcard); it parses to the remove-pattern with its stars as
    lazy wildcards; and removing the pattern [[*]] from the stem of
    [Song [Copyright Free] Track.mp4] leaves [Song  Track]. *)
Theorem wildcard_regex_refines_spec :
  (forall pattern : str,
     wildcard_regex pattern = wildcard_regex_spec pattern
     /\ parse (wildcard_regex pattern) = Some (wildcard_tokens pattern))
  /\ remove_pattern (FS.stem [lit "Song [Copyright Free] Track.mp4"]) (lit "[*]")
     = inr (lit "Song  Track").
Proof.
split.
- intros pattern. split.
  + now rewrite wildcard_regex_pieces, wildcard_regex_spec_pieces.
  + apply parse_wildcard_regex.
- vm_compute. reflexivity.
Qed.

End Wildcard.

(** ** The cleaning of a file name *)

Section CleanFilename.
Import Re VideoPreprocessor WildcardSpec.
Context {U : UnicodeDB} {W : Type} {E : Env W}.

Lemma search_none_sub (r : regex) (s : str) :
  search r s = None -> sub_delete r s = s.
Proof.
unfold sub_delete. induction s as [|c s IH]; [reflexivity|].
cbn [search sub_from].
destruct (match_here r false (c :: s)); [discriminate|].
destruct (search r s); [destruct p; discriminate|].
intros _. f_equal. now apply IH.
Qed.

Lemma remove_pattern_no_match (name pattern : str) :
  pattern_matches pattern name = false -> remove_pattern name pattern = inr name.
Proof.
unfold pattern_matches. rewrite remove_pattern_total, parse_wildcard_regex.
destruct (has_char 42%N pattern); intros H; f_equal.
- apply search_none_sub. now destruct (search _ name).
- now apply replace_absent.
Qed.

Lemma remove_all_no_match (patterns : list str) (name : str) :
  Forall (fun p => pattern_matches p name = false) patterns ->
  remove_all patterns name = inr name.
Proof.
induction 1 as [|p ps Hp _ IH]; [reflexivity|].
cbn [remove_all]. now rewrite (remove_pattern_no_match _ _ Hp).
Qed.

(** The loop over the remove-patterns never raises. *)
Lemma remove_all_total (patterns : list str) (name : str) :
  exists name', remove_all patterns name = inr name'.
Proof.
revert name; induction patterns as [|p ps IH]; intros name; cbn [remove_all].
- now exists name.
- rewrite remove_pattern_total. apply IH.
Qed.

(** [_translate_text] never raises: it answers with the stripped
    translation, or with its argument. *)
Lemma translate_text_total (text : str) (st : state W) :
  exists out st', _translate_text text st = (inr out, st').
Proof.
unfold _translate_text, try_except, bind, ask, first_content_stripped, logging, modify, ret, raise.
destruct (chat_create TranslatePrompt text (world st)) as [[e|choices] w].
- eauto.
- destruct choices as [|[content|] rest]; eauto.
Qed.

Lemma before_truncation_total (cfg : Config) (filename : str) (st : state W) :
  exists name st',
    before_truncation cfg filename st = (inr (strip_special name), st').
Proof.
unfold before_truncation, bind, lift, ret.
destruct (remove_all_total (remove_patterns cfg) filename) as [n1 ->].
destruct (truthy (translate_to_chinese cfg)).
- destruct (translate_text_total n1 st) as (out & st' & ->). eauto.
- eauto.
Qed.

Lemma clean_filename_unfold (cfg : Config) (filename : str) (st : state W) :
  exists name st',
    before_truncation cfg filename st = (inr (strip_special name), st')
    /\ _clean_filename cfg filename st
       = (inr (strip (truncate cfg (strip_special name))), st').
Proof.
destruct (before_truncation_total cfg filename st) as (name & st' & H).
exists name, st'. split; [exact H|].
unfold _clean_filename, bind, ret. now rewrite H.
Qed.

Lemma truncate_length (cfg : Config) (name : str) :
  (0 <= max_length cfg)%Z ->
  (Z.of_nat (length (truncate cfg name)) <= max_length cfg)%Z
  /\ ((Z.of_nat (length name) > max_length cfg)%Z ->
      Z.of_nat (length (truncate cfg name)) = max_length cfg).
Proof.
intros Hmax. unfold truncate.
destruct (Z.gtb_spec (Z.of_nat (length name)) (max_length cfg)) as [Hgt|Hle].
- rewrite slice_to_firstn by exact Hmax. rewrite length_firstn. lia.
- lia.
Qed.

(** C7. With a maximum that is not negative: when the name after the
    removal of the patterns, the optional translation and the removal
    of the special characters is longer than [max_filename_length]
    (100 when the key is absent), the truncation step of
    [_clean_filename] leaves exactly that many characters; and the
    stem [_clean_filename] returns, which is the truncated name
    stripped of surrounding whitespace, is never longer than the
    maximum. *)
Theorem clean_filename_length (cfg : Config) (filename : str) (st : state W) :
  (0 <= max_length cfg)%Z ->
  (max_filename_length cfg = None -> max_length cfg = 100%Z)
  /\ exists pre st' cleaned,
       before_truncation cfg filename st = (inr pre, st')
       /\ _clean_filename cfg filename st = (inr cleaned, st')
       /\ cleaned = strip (truncate cfg pre)
       /\ ((Z.of_nat (length pre) > max_length cfg)%Z ->
           Z.of_nat (length (truncate cfg pre)) = max_length cfg)
       /\ (Z.of_nat (length cleaned) <= max_length cfg)%Z.
Proof.
intros Hmax. split; [unfold max_length; now intros ->|].
destruct (clean_filename_unfold cfg filename st) as (name & st' & Hb & Hc).
exists (strip_special name), st', (strip (truncate cfg (strip_special name))).
destruct (truncate_length cfg (strip_special name) Hmax) as [Hle Heq].
repeat split; try assumption.
pose proof (strip_length (truncate cfg (strip_special name))). lia.
Qed.

(** What every result of [_clean_filename] looks like: only
    characters of the kept class, and no whitespace at either end. *)
Lemma clean_filename_image (cfg : Config) (filename s : str) (st st' : state W) :
  _clean_filename cfg filename st = (inr s, st') ->
  (forall c, In c s -> keep_char c = true) /\ strip s = s.
Proof.
intros H.
destruct (clean_filename_unfold cfg filename st) as (name & st1 & _ & Hc).
rewrite Hc in H. injection H as <- _. split.
- intros c Hin. apply strip_In in Hin.
  assert (In c (strip_special name)) as Hin'.
  { unfold truncate in Hin. destruct (_ >? _)%Z; [now apply slice_to_In in Hin | exact Hin]. }
  unfold strip_special in Hin'. now apply filter_In in Hin'.
- apply strip_idem.
Qed.

(** C8. A stem that [_clean_filename] has produced, in which no
    remove-pattern of the configuration finds a match and which is
    within the maximum length, is returned unchanged by
    [_clean_filename] when translation is off; the state is unchanged
    as well. *)
Theorem clean_filename_idempotent
  (cfg cfg0 : Config) (filename s : str) (st0 st0' st : state W) :
  _clean_filename cfg0 filename st0 = (inr s, st0') ->
  truthy (translate_to_chinese cfg) = false ->
  Forall (fun p => pattern_matches p s = false) (remove_patterns cfg) ->
  (Z.of_nat (length s) <= max_length cfg)%Z ->
  _clean_filename cfg s st = (inr s, st).
Proof.
intros Himg Htr Hpat Hlen.
destruct (clean_filename_image _ _ _ _ _ Himg) as [Hkeep Hstrip].
unfold _clean_filename, before_truncation, bind, lift, ret.
rewrite (remove_all_no_match _ _ Hpat), Htr.
unfold strip_special. rewrite (filter_all _ _ _ Hkeep).
unfold truncate.
destruct (Z.gtb_spec (Z.of_nat (length s)) (max_length cfg)) as [Hgt|_]; [lia|].
now rewrite Hstrip.
Qed.

End CleanFilename.

Section CleanFilenameExamples.
Import VideoPreprocessor Sample.
#[local] Existing Instances ascii_only_db offline.

(** With the maximum 5 the name [Song  Track] is cut to [Song ] and
    returned as [Song]: four characters. *)
Lemma clean_filename_length_witness :
  _clean_filename short_cfg song start = (inr (lit "Song"), start)
  /\ exists pre st' cleaned,
       before_truncation short_cfg song start = (inr pre, st')
       /\ _clean_filename short_cfg song start = (inr cleaned, st')
       /\ cleaned = strip (truncate short_cfg pre)
       /\ ((Z.of_nat (length pre) > max_length short_cfg)%Z ->
           Z.of_nat (length (truncate short_cfg pre)) = max_length short_cfg)
       /\ (Z.of_nat (length cleaned) <= max_length short_cfg)%Z.
Proof.
split; [vm_compute; reflexivity|].
apply (clean_filename_length short_cfg song start).
vm_compute. discriminate.
Defined.

Lemma clean_filename_idempotent_witness :
  _clean_filename short_cfg (lit "Song") start = (inr (lit "Song"), start).
Proof.
apply (clean_filename_idempotent short_cfg short_cfg song (lit "Song") start start start).
- vm_compute. reflexivity.
- reflexivity.
- repeat constructor.
- vm_compute. discriminate.
Defined.

End CleanFilenameExamples.

(** ** Computations that keep a relation between states *)

Section Preserves.
Context {S E : Type} (R : S -> S -> Prop).
Hypothesis R_refl : forall s, R s s.
Hypothesis R_trans : forall a b c, R a b -> R b c -> R a c.

Lemma preserves_ret {A} (a : A) : preserves R (@ret S E A a).
Proof. intros s. apply R_refl. Qed.

Lemma preserves_raise {A} (e : E) : preserves R (@raise S E A e).
Proof. intros s. apply R_refl. Qed.

Lemma preserves_lift {A} (r : E + A) : preserves R (@lift S E A r).
Proof. intros s. apply R_refl. Qed.

Lemma preserves_get : preserves R (@get S E).
Proof. intros s. apply R_refl. Qed.

Lemma preserves_bind {A B} (m : M S E A) (k : A -> M S E B) :
  preserves R m -> (forall a, preserves R (k a)) -> preserves R (bind m k).
Proof.
intros Hm Hk s. specialize (Hm s). unfold bind.
destruct (m s) as [[e|a] s1]; simpl in *; [exact Hm|].
eapply R_trans; [exact Hm | apply Hk].
Qed.

(** The same, knowing that what is passed on was returned by [m]. *)
Lemma preserves_bind_returned {A B} (m : M S E A) (k : A -> M S E B) :
  preserves R m ->
  (forall a, (exists s s', m s = (inr a, s')) -> preserves R (k a)) ->
  preserves R (bind m k).
Proof.
intros Hm Hk s. specialize (Hm s). unfold bind.
destruct (m s) as [[e|a] s1] eqn:Hms; simpl in *; [exact Hm|].
eapply R_trans; [exact Hm | apply Hk; eauto].
Qed.

Lemma preserves_try {A E'} (m : M S E A) (h : E -> M S E' A) :
  preserves R m -> (forall e, preserves R (h e)) -> preserves R (try_except m h).
Proof.
intros Hm Hh s. specialize (Hm s). unfold try_except.
destruct (m s) as [[e|a] s1]; simpl in *; [|exact Hm].
eapply R_trans; [exact Hm | apply Hh].
Qed.

Lemma preserves_for_each {A} (xs : list A) (body : A -> M S E unit) :
  (forall x, In x xs -> preserves R (body x)) -> preserves R (for_each xs body).
Proof.
induction xs as [|x xs IH]; intros H; cbn [for_each].
- apply preserves_ret.
- apply preserves_bind; [apply H; now left|].
  intros _. apply IH. intros y Hy. apply H. now right.
Qed.

Lemma preserves_if {A} (b : bool) (m1 m2 : M S E A) :
  preserves R m1 -> preserves R m2 -> preserves R (if b then m1 else m2).
Proof. now destruct b. Qed.

End Preserves.

(** ** The file tree *)

Section TreeFacts.
Import FS.

Lemma name_snoc (dir : path) (x : str) : name (dir ++ [x]) = x.
Proof. unfold name. apply last_last. Qed.

Lemma parent_snoc (dir : path) (x : str) : parent (dir ++ [x]) = dir.
Proof. unfold parent. apply removelast_last. Qed.

Lemma endswith_app (ext s : str) : endswith ext (s ++ ext) = true.
Proof. unfold endswith. rewrite rev_app_distr. apply startswith_app. Qed.

Lemma assoc_set_same (x : str) (m : node) (es : list (str * node)) :
  assoc x (set_entry x m es) = Some m.
Proof.
induction es as [|[y m'] es IH]; simpl.
- now rewrite str_eqb_refl.
- destruct (str_eqb x y) eqn:Hxy; simpl; [now rewrite str_eqb_refl | now rewrite Hxy].
Qed.

Lemma assoc_set_other (x y : str) (m : node) (es : list (str * node)) :
  str_eqb y x = false -> assoc y (set_entry x m es) = assoc y es.
Proof.
intros Hyx. induction es as [|[z m'] es IH]; simpl.
- now rewrite Hyx.
- destruct (str_eqb x z) eqn:Hxz; simpl.
  + apply str_eqb_eq in Hxz as <-. now rewrite Hyx.
  + destruct (str_eqb y z); [reflexivity | exact IH].
Qed.

Lemma assoc_remove_other (x y : str) (es : list (str * node)) :
  str_eqb y x = false -> assoc y (remove_entry x es) = assoc y es.
Proof.
intros Hyx. induction es as [|[z m'] es IH]; simpl; [reflexivity|].
destruct (str_eqb x z) eqn:Hxz; simpl.
- apply str_eqb_eq in Hxz as <-. now rewrite Hyx.
- destruct (str_eqb y z); [reflexivity | exact IH].
Qed.

(** A rewriting of the listing of [dir] that leaves the entry [n] alone
    leaves everything below [dir/n] alone. *)
Lemma with_dir_other (dir : path) f (t t' : node) (n : str) (rest : path) :
  with_dir dir f t = inr t' ->
  (forall es es', f es = inr es' -> assoc n es' = assoc n es) ->
  lookup (dir ++ n :: rest) t' = lookup (dir ++ n :: rest) t.
Proof.
intros H Hf. revert t t' H. induction dir as [|x dir IH]; intros t t' H.
- destruct t as [d|es]; [discriminate|]. cbn [with_dir] in H.
  destruct (f es) as [e|es'] eqn:Hfe; [discriminate|]. injection H as <-.
  cbn [app lookup]. now rewrite (Hf _ _ Hfe).
- destruct t as [d|es]; [discriminate|]. cbn [with_dir] in H.
  destruct (assoc x es) as [m|] eqn:Hx; [|discriminate].
  destruct (with_dir dir f m) as [e|m'] eqn:Hm; [discriminate|]. injection H as <-.
  cbn [app lookup]. rewrite assoc_set_same, Hx. exact (IH m m' Hm).
Qed.


Lemma rename_entry_other (src dst n : str) (es es' : list (str * node)) :
  str_eqb n src = false -> str_eqb n dst = false ->
  rename_entry src dst es = inr es' -> assoc n es' = assoc n es.
Proof.
intros Hs Hd. unfold rename_entry.
destruct (assoc src es) as [m|]; [|discriminate].
destruct (str_eqb src dst); [now intros [= <-]|].
assert (assoc n (set_entry dst m (remove_entry src es)) = assoc n es) as Hgoal.
{ rewrite assoc_set_other by exact Hd. now apply assoc_remove_other. }
destruct m as [d|sub]; destruct (assoc dst es) as [[d'|[|e sub']]|];
  intros H; try discriminate; injection H as <-; exact Hgoal.
Qed.

Lemma write_entry_other (x data n : str) (es es' : list (str * node)) :
  str_eqb n x = false ->
  write_entry x data es = inr es' -> assoc n es' = assoc n es.
Proof.
intros Hx. unfold write_entry.
destruct (assoc x es) as [[d|sub]|]; intros H; try discriminate;
  injection H as <-; now apply assoc_set_other.
Qed.

(** Two names that end differently differ. *)
Lemma endswith_differs (ext n m : str) :
  endswith ext n = false -> endswith ext m = true -> str_eqb n m = false.
Proof.
intros Hn Hm. destruct (str_eqb n m) eqn:H; [|reflexivity].
apply str_eqb_eq in H. subst. congruence.
Qed.

(** The matches of the glob: the entries directly in [dir] whose name
    ends with the extension, as written. *)
Lemma glob_spec (t : node) (dir : path) (ext : str) (f : path) :
  In f (glob t dir ext) <->
  exists es n m, lookup dir t = Some (Dir es) /\ In (n, m) es
                 /\ endswith ext n = true /\ f = dir ++ [n].
Proof.
unfold glob, fnmatch_star. split.
- destruct (lookup dir t) as [[d|es]|]; try (intros []).
  intros H. apply in_map_iff in H as [[n m] [<- H]].
  apply filter_In in H as [Hin He]. now exists es, n, m.
- intros (es & n & m & -> & Hin & He & ->).
  apply in_map_iff. exists (n, m). split; [reflexivity|].
  apply filter_In. now split.
Qed.

End TreeFacts.

(** ** The writing of a file *)

Section Writing.
Import FS VideoPreprocessor.
Context {W : Type} {E : Env W}.

Lemma set_entry_twice (x : str) (m m' : node) (es : list (str * node)) :
  set_entry x m (set_entry x m' es) = set_entry x m es.
Proof.
induction es as [|[y k] es IH]; cbn [set_entry].
- now rewrite str_eqb_refl.
- destruct (str_eqb x y) eqn:Hxy; cbn [set_entry].
  + now rewrite str_eqb_refl.
  + now rewrite Hxy, IH.
Qed.

(** Writing to a file that was just written is writing to the file
    as it was before. *)
Lemma with_dir_rewrite (dir : path) (x a b : str) (t t0 : node) :
  with_dir dir (write_entry x a) t = inr t0 ->
  exists t1, with_dir dir (write_entry x b) t0 = inr t1
             /\ with_dir dir (write_entry x b) t = inr t1.
Proof.
revert t t0. induction dir as [|y dir IH]; intros t t0 H.
- destruct t as [d|es]; [discriminate|]. cbn [with_dir] in *.
  unfold write_entry in *.
  destruct (assoc x es) as [[d|sub]|] eqn:Hx; try discriminate; injection H as <-;
    cbn [with_dir]; rewrite assoc_set_same, set_entry_twice; eauto.
- destruct t as [d|es]; [discriminate|]. cbn [with_dir] in *.
  destruct (assoc y es) as [m|] eqn:Hy; [|discriminate].
  destruct (with_dir dir (write_entry x a) m) as [e|m0] eqn:Hm; [discriminate|].
  injection H as <-. destruct (IH m m0 Hm) as (m1 & H0 & H1).
  cbn [with_dir]. rewrite assoc_set_same, H0, H1, set_entry_twice. eauto.
Qed.

(** What [write_text] does, whatever happens: the operation is
    recorded, the log and the world stay, and the tree is as before
    (the opening failed) or has the file with some content, which is
    the text when the writing returned. *)
Lemma write_text_cases (file : path) (data : str) (s : state W) :
  exists r s',
    write_text file data s = (r, s')
    /\ calls s' = WriteText file data :: calls s
    /\ log s' = log s /\ world s' = world s
    /\ ((fs s' = fs s /\ exists e, r = inl e)
        \/ exists content,
             with_dir (parent file) (write_entry (name file) content) (fs s) = inr (fs s')
             /\ (forall u, r = inr u -> content = data)).
Proof.
unfold write_text, bind, perform.
destruct (io_fault (WriteText file data) (world s)) as [e|].
{ eexists _, _. split; [reflexivity|]. cbn [calls log world fs]. eauto 10. }
destruct (with_dir (parent file) (write_entry (name file) []) (fs s)) as [e|t0] eqn:Hopen.
{ eexists _, _. split; [reflexivity|]. cbn [calls log world fs]. eauto 10. }
destruct (negb (encodable data)).
{ unfold raise. eexists _, _. split; [reflexivity|]. cbn [calls log world fs].
  repeat split. right. exists []. split; [exact Hopen | discriminate]. }
unfold get. cbn [world].
destruct (write_fault file data (world s)) as [[e remains]|]; unfold store, raise; cbn [fs].
- destruct (with_dir_rewrite _ _ _ remains _ _ Hopen) as (t1 & -> & H1).
  eexists _, _. split; [reflexivity|]. cbn [calls log world fs].
  repeat split. right. exists remains. split; [exact H1 | discriminate].
- destruct (with_dir_rewrite _ _ _ data _ _ Hopen) as (t1 & -> & H1).
  eexists _, _. split; [reflexivity|]. cbn [calls log world fs].
  repeat split. right. exists data. split; [exact H1 | reflexivity].
Qed.

End Writing.

(** ** The batch of the normalizer *)

Section Batch.
Import FS VideoPreprocessor.
Context {U : UnicodeDB} {W : Type} {E : Env W}.

Variable named : path -> str -> Prop.
Variable dir : path.
Variable files : list path.

Lemma frame_same (s s' : state W) :
  fs s' = fs s -> calls s' = calls s -> frame named dir files s s'.
Proof.
intros Hf Hc. split; [intros n rest _ _; now rewrite Hf|].
exists []. split; [exact Hc | constructor].
Qed.

Lemma frame_refl (s : state W) : frame named dir files s s.
Proof. now apply frame_same. Qed.

Lemma frame_trans (a b c : state W) :
  frame named dir files a b -> frame named dir files b c -> frame named dir files a c.
Proof.
intros [U1 (i1 & C1 & A1)] [U2 (i2 & C2 & A2)]. split.
- intros n rest H1 H2. rewrite (U2 n rest H1 H2). now apply U1.
- exists (i2 ++ i1). split; [now rewrite C2, C1, app_assoc|].
  apply Forall_app. now split.
Qed.

Local Abbreviation keeps := (preserves (@frame W named dir files)).

Ltac keeps_step :=
  first [ apply preserves_ret; exact frame_refl
        | apply preserves_raise; exact frame_refl
        | apply preserves_lift; exact frame_refl
        | apply preserves_bind; [exact frame_trans | | intros ?]
        | apply preserves_try; [exact frame_trans | | intros ?]
        | apply preserves_if ].

Lemma logging_keeps (r : log_record) : keeps (logging r).
Proof. intros s. now apply frame_same. Qed.

Lemma ask_keeps (p : prompt) (text : str) : keeps (ask p text).
Proof.
intros s. unfold ask. destruct (chat_create p text (world s)) as [r w].
now apply frame_same.
Qed.

Lemma first_content_keeps (choices : list (option str)) :
  keeps (first_content_stripped choices).
Proof. destruct choices as [|[c|] rest]; simpl; keeps_step. Qed.

Lemma translate_keeps (text : str) : keeps (_translate_text text).
Proof.
unfold _translate_text. repeat keeps_step;
  auto using logging_keeps, ask_keeps, first_content_keeps.
Qed.

Lemma describe_keeps (video_name : str) : keeps (_get_video_description video_name).
Proof.
unfold _get_video_description. repeat keeps_step;
  auto using logging_keeps, ask_keeps, first_content_keeps.
Qed.

Lemma clean_keeps (cfg : Config) (filename : str) : keeps (_clean_filename cfg filename).
Proof.
unfold _clean_filename, before_truncation. repeat keeps_step;
  auto using translate_keeps, logging_keeps, ask_keeps, first_content_keeps.
Qed.

(** A file operation in [dir] that is allowed and leaves the other
    entries alone keeps the frame. *)
Lemma perform_keeps (c : fs_call) f :
  allowed_call named files c ->
  (forall n es es', endswith (lit ".mp4") n = false -> endswith (lit ".txt") n = false ->
                    f es = inr es' -> assoc n es' = assoc n es) ->
  keeps (perform c dir f).
Proof.
intros Hc Hf s. unfold perform.
assert (forall t, untouched dir (fs s) t ->
          frame named dir files s {| fs := t; log := log s; calls := c :: calls s; world := world s |})
  as Hframe.
{ intros t Ht. split; [exact Ht|]. exists [c]. split; [reflexivity | now constructor]. }
destruct (io_fault c (world s)); cbn [snd].
- apply Hframe. intros n rest _ _. reflexivity.
- destruct (with_dir dir f (fs s)) as [e|t] eqn:Ht; cbn [snd]; apply Hframe.
  + intros n rest _ _. reflexivity.
  + intros n rest H1 H2. eapply with_dir_other; [exact Ht|].
    intros es es'. now apply Hf.
Qed.

Lemma rename_keeps (n new_name : str) :
  In (dir ++ [n]) files -> endswith (lit ".mp4") n = true ->
  named (dir ++ [n]) new_name ->
  keeps (rename (dir ++ [n]) (dir ++ [new_name ++ lit ".mp4"])).
Proof.
intros Hin Hn Hnamed. unfold rename. rewrite parent_snoc, !name_snoc.
apply perform_keeps.
- split; [exact Hin|]. exists new_name. now rewrite parent_snoc.
- intros m es es' H1 _. apply rename_entry_other.
  + exact (endswith_differs _ _ _ H1 Hn).
  + exact (endswith_differs _ _ _ H1 (endswith_app _ _)).
Qed.

Lemma write_keeps (n new_name data : str) :
  In (dir ++ [n]) files ->
  named (dir ++ [n]) new_name ->
  keeps (write_text (dir ++ [new_name ++ lit ".txt"]) data).
Proof.
intros Hin Hnamed s.
destruct (write_text_cases (dir ++ [new_name ++ lit ".txt"]) data s)
  as (r & s' & -> & Hc & _ & _ & Hfs).
cbn [snd]. split.
- destruct Hfs as [[-> _] | (content & Hwd & _)]; [intros m rest _ _; reflexivity|].
  rewrite parent_snoc, name_snoc in Hwd.
  intros m rest _ H2. eapply with_dir_other; [exact Hwd|].
  intros es es'. apply write_entry_other.
  exact (endswith_differs _ _ _ H2 (endswith_app _ _)).
- exists [WriteText (dir ++ [new_name ++ lit ".txt"]) data]. split; [exact Hc|].
  constructor; [|constructor]. exists (dir ++ [n]), new_name. now rewrite parent_snoc.
Qed.

Lemma process_file_keeps (cfg : Config) (n : str) :
  (forall new_name, cleans_to cfg (dir ++ [n]) new_name -> named (dir ++ [n]) new_name) ->
  In (dir ++ [n]) files -> endswith (lit ".mp4") n = true ->
  keeps (process_file cfg (dir ++ [n])).
Proof.
intros Hnamed Hin Hn. unfold process_file. rewrite parent_snoc.
apply preserves_bind_returned; [exact frame_trans | apply clean_keeps|].
intros new_name Hclean. apply Hnamed in Hclean.
unfold rename_if_needed.
repeat first [ apply (write_keeps n); [exact Hin | exact Hclean] | keeps_step ];
  eauto using logging_keeps, ask_keeps, first_content_keeps,
              describe_keeps, rename_keeps.
Qed.

Lemma process_files_keeps (cfg : Config) (todo : list path) :
  (forall f new_name, cleans_to cfg f new_name -> named f new_name) ->
  (forall f, In f todo ->
     In f files /\ exists n, f = dir ++ [n] /\ endswith (lit ".mp4") n = true) ->
  keeps (process_files cfg todo).
Proof.
intros Hnamed H. unfold process_files.
apply preserves_for_each; [exact frame_refl | exact frame_trans|].
intros f Hf. destruct (H f Hf) as (Hin & n & -> & Hn).
keeps_step; [apply process_file_keeps; auto | apply logging_keeps].
Qed.

End Batch.

Section FailSoft.
Import FS VideoPreprocessor Turns.
Context {U : UnicodeDB} {W : Type} {E : Env W}.

(** [_get_video_description] never raises; it touches neither the tree
    nor the list of file operations. *)
Lemma describe_total (video_name : str) (st : state W) :
  exists st',
    _get_video_description video_name st
    = (inr (description_of video_name (world st)), st')
    /\ fs st' = fs st /\ calls st' = calls st
    /\ world st' = snd (chat_create DescribePrompt video_name (world st)).
Proof.
unfold _get_video_description, description_of, answer, try_except, bind, ask,
  first_content_stripped, logging, modify, ret, raise.
destruct (chat_create DescribePrompt video_name (world st)) as [[e|choices] w]; cbn [fst snd].
- eexists. split; [reflexivity|]. now cbn.
- destruct choices as [|[content|] rest]; (eexists; split; [reflexivity|]; now cbn).
Qed.


(** One turn of the loop never raises. *)
Lemma guarded_file_total (cfg : Config) (f : path) (st : state W) :
  exists st',
    try_except (process_file cfg f) (fun e => logging (ErrFile f e)) st = (inr tt, st').
Proof.
unfold try_except. destruct (process_file cfg f st) as [[e|[]] s1]; eauto.
unfold logging, modify. eauto.
Qed.


Lemma process_files_next (cfg : Config) (f : path) (rest : list path) (st : state W) :
  process_files cfg (f :: rest) st
  = process_files cfg rest (snd (process_files cfg [f] st)).
Proof.
unfold process_files. cbn [for_each]. unfold bind, ret.
destruct (guarded_file_total cfg f st) as [s1 ->]. reflexivity.
Qed.


(** The loop on a list is the turn of its first file, then the loop
    on the rest. *)
Lemma process_files_turn (cfg : Config) (f : path) (rest : list path) (st : state W) :
  process_files cfg (f :: rest) st = process_files cfg rest (snd (turn cfg f st)).
Proof.
unfold process_files, turn. cbn [for_each]. unfold bind.
destruct (guarded_file_total cfg f st) as [s1 ->]. reflexivity.
Qed.


(** What the [try] of a turn makes of the result of the body. *)
Lemma turn_result (cfg : Config) (f : path) (st s1 : state W) r :
  process_file cfg f st = (r, s1) ->
  turn cfg f st = (inr tt, match r with inl e => caught f e s1 | inr _ => s1 end).
Proof.
intros H. unfold turn, try_except. rewrite H. now destruct r as [e|[]].
Qed.














End FailSoft.

Section BatchFrame.
Import FS VideoPreprocessor.
Context {U : UnicodeDB} {W : Type} {E : Env W}.

(** C10. The files [process_directory] works on are the entries
    directly in the configured directory whose name ends in [.mp4] as
    written (lower case).  Every file operation of a run is the
    renaming of one of these to its cleaned stem with [.mp4], beside
    it, or the writing of the [.txt] file named by the cleaned stem of
    one of these, beside it.  Every entry of the directory whose name
    ends neither in [.mp4] nor in [.txt] (a video with another
    extension, a name in [.MP4], a subdirectory with all its files) is
    after the run what it was before. *)
Theorem process_directory_frame (cfg : Config) (st : state W) :
  let dir := video_directory cfg in
  let matches := glob (fs st) dir (lit ".mp4") in
  let st' := snd (process_directory cfg st) in
  (forall f, In f matches <->
             exists es n m, lookup dir (fs st) = Some (Dir es) /\ In (n, m) es
                            /\ endswith (lit ".mp4") n = true /\ f = dir ++ [n])
  /\ (exists issued, calls st' = issued ++ calls st
                     /\ Forall (allowed_call (cleans_to cfg) matches) issued)
  /\ (forall n rest,
        endswith (lit ".mp4") n = false ->
        endswith (lit ".txt") n = false ->
        lookup (dir ++ n :: rest) (fs st') = lookup (dir ++ n :: rest) (fs st)).
Proof.
intros dir matches st'.
split; [intros f; apply glob_spec|].
assert (frame (cleans_to cfg) dir matches st st') as [Hu Hc];
  [|split; [exact Hc | exact Hu]].
subst st'. unfold process_directory, bind, get.
destruct (negb (exists_ (fs st) (video_directory cfg))).
- now apply frame_same.
- apply process_files_keeps; [auto|]. intros f Hf. split; [exact Hf|].
  apply glob_spec in Hf as (es & n & m & _ & _ & Hn & ->). now exists n.
Qed.

End BatchFrame.

Section BatchExamples.
Import FS VideoPreprocessor Sample Cases.
#[local] Existing Instances ascii_only_db offline.



(** In the sample tree the run leaves [LOUD.MP4], [clip.mov] and the
    file below [sub] as they were. *)
Lemma process_directory_frame_witness :
  let st' := snd (process_directory default_cfg start) in
  lookup [lit "videos"; lit "LOUD.MP4"] (fs st') = Some (File (lit "c"))
  /\ lookup [lit "videos"; lit "clip.mov"] (fs st') = Some (File (lit "b"))
  /\ lookup [lit "videos"; lit "sub"; lit "deep.mp4"] (fs st') = Some (File (lit "e")).
Proof.
destruct (process_directory_frame default_cfg start) as (_ & _ & H).
intros st'. split; [|split].
- exact (H (lit "LOUD.MP4") [] eq_refl eq_refl).
- exact (H (lit "clip.mov") [] eq_refl eq_refl).
- exact (H (lit "sub") [lit "deep.mp4"] eq_refl eq_refl).
Defined.

End BatchExamples.

(** ** The schedule parser *)

Section ScheduleFacts.
Import Schedule.
Context {U : UnicodeDB}.
Local Open Scope N_scope.

Lemma reads_alt {A} (P : str -> A -> Prop) (p q : parser A) :
  reads P p -> reads P q -> reads P (alt p q).
Proof.
intros Hp Hq s v rest H. unfold alt in H. apply in_app_or in H as [H|H]; eauto.
Qed.

Lemma reads_weaken {A} (P Q : str -> A -> Prop) (p : parser A) :
  (forall t v, P t v -> Q t v) -> reads P p -> reads Q p.
Proof.
intros HPQ Hp s v rest H. destruct (Hp s v rest H) as (t & -> & Ht). eauto.
Qed.

Lemma in_pbind {A B} (p : parser A) (k : A -> parser B) s (b : B) rest :
  In (b, rest) (pbind p k s) ->
  exists a mid, In (a, mid) (p s) /\ In (b, rest) (k a mid).
Proof.
unfold pbind. intros H. apply in_flat_map in H as [[a mid] [H1 H2]]. eauto.
Qed.

Lemma in_pret {A} (a b : A) (s rest : str) :
  In (b, rest) (pret a s) -> b = a /\ rest = s.
Proof. intros [[= -> ->]|[]]. now split. Qed.

Lemma in_literal (c : char) (s rest : str) (u : unit) :
  In (u, rest) (literal c s) -> s = c :: rest.
Proof.
unfold literal. destruct s as [|x s]; [intros []|].
destruct (N.eqb_spec x c) as [->|]; [|intros []].
intros [H|[]]. now injection H as _ ->.
Qed.

Lemma in_any_digit (s rest : str) (v : N) :
  In (v, rest) (any_digit s) -> exists c, s = c :: rest /\ digit_value c = Some v.
Proof.
unfold any_digit. destruct s as [|c s]; [intros []|].
destruct (digit_value c) as [d|] eqn:Hd; [|intros []].
intros [[= -> ->]|[]]. eauto.
Qed.

Lemma ascii_digit_value (c : char) :
  48 <= c -> c <= 57 -> digit_value c = Some (c - 48).
Proof.
intros H1 H2. unfold digit_value, is_ascii_digit.
destruct (N.ltb_spec c 128); [|lia].
destruct (N.leb_spec 48 c); [|lia]. destruct (N.leb_spec c 57); [|lia]. reflexivity.
Qed.

Lemma in_digit_in (lo hi : N) (s rest : str) (v : N) :
  hi <= 9 ->
  In (v, rest) (digit_in lo hi s) ->
  exists c, s = c :: rest /\ digit_value c = Some v /\ lo <= v <= hi.
Proof.
intros Hhi. unfold digit_in. destruct s as [|c s]; [intros []|].
destruct (N.leb_spec (48 + lo) c); [|intros []].
destruct (N.leb_spec c (48 + hi)); [|intros []].
intros [[= <- <-]|[]]. exists c. split; [reflexivity|].
split; [apply ascii_digit_value; lia | lia].
Qed.

Lemma in_spaces1 (s rest : str) (u : unit) :
  In (u, rest) (spaces1 s) ->
  exists t, s = t ++ rest /\ t <> [] /\ Forall (fun c => is_space c = true) t.
Proof.
induction s as [|c s IH]; [intros []|]. cbn [spaces1].
destruct (is_space c) eqn:Hc; [|intros []].
intros H. apply in_app_or in H as [H|[H|[]]].
- destruct (IH H) as (t & -> & _ & Ht). exists (c :: t).
  split; [reflexivity|]. split; [discriminate | now constructor].
- inversion H; subst. exists [c]. split; [reflexivity|]. split; [discriminate | now repeat constructor].
Qed.

Lemma decimal_one (c : char) (v : N) : digit_value c = Some v -> decimal [c] = Some v.
Proof. intros H. cbn [decimal decimal_from]. rewrite H. f_equal; lia. Qed.

Lemma decimal_two (a b : char) (x y : N) :
  digit_value a = Some x -> digit_value b = Some y ->
  decimal [a; b] = Some (10 * x + y).
Proof. intros Ha Hb. cbn [decimal decimal_from]. rewrite Ha, Hb. f_equal; lia. Qed.

Lemma numeral_one (c : char) (v : N) : digit_value c = Some v -> numeral 1 2 [c] v.
Proof. intros H. split; [simpl; lia | now apply decimal_one]. Qed.

Lemma numeral_two (a b : char) (x y : N) :
  digit_value a = Some x -> digit_value b = Some y -> numeral 1 2 [a; b] (10 * x + y).
Proof. intros Ha Hb. split; [simpl; lia | now apply decimal_two]. Qed.

Lemma digit_in_one (lo hi : N) :
  hi <= 9 -> one_digit (fun v => lo <= v <= hi) (digit_in lo hi).
Proof. intros Hhi s v rest H. now apply in_digit_in. Qed.

Lemma any_digit_one : one_digit (fun _ => True) any_digit.
Proof.
intros s v rest H. apply in_any_digit in H as (c & -> & Hc). now exists c.
Qed.

Lemma single_reads (P : N -> Prop) (p : parser N) :
  one_digit P p -> reads (numeral 1 2) p.
Proof.
intros Hp s v rest H. destruct (Hp s v rest H) as (c & -> & Hc & _).
exists [c]. split; [reflexivity | now apply numeral_one].
Qed.

(** Two digits read one after the other, as the number they spell. *)
Lemma pair_reads (P Q : N -> Prop) (p q : parser N) (f : N -> N -> N) :
  one_digit P p -> one_digit Q q ->
  (forall a b, P a -> Q b -> f a b = 10 * a + b) ->
  reads (numeral 1 2) (pbind p (fun a => pbind q (fun b => pret (f a b)))).
Proof.
intros Hp Hq Hf s v rest H.
apply in_pbind in H as (a & s1 & Ha & H). apply in_pbind in H as (b & s2 & Hb & H).
apply in_pret in H as [-> ->].
destruct (Hp _ _ _ Ha) as (ca & -> & Hca & HPa).
destruct (Hq _ _ _ Hb) as (cb & -> & Hcb & HQb).
exists [ca; cb]. split; [reflexivity|]. rewrite (Hf a b HPa HQb). now apply numeral_two.
Qed.

Lemma dir_Y_reads : reads (numeral 4 4) dir_Y.
Proof.
intros s v rest H. unfold dir_Y in H.
apply in_pbind in H as (a & s1 & Ha & H). apply in_pbind in H as (b & s2 & Hb & H).
apply in_pbind in H as (c & s3 & Hc & H). apply in_pbind in H as (d & s4 & Hd & H).
apply in_pret in H as [-> ->].
apply in_any_digit in Ha as (ca & -> & Ha). apply in_any_digit in Hb as (cb & -> & Hb).
apply in_any_digit in Hc as (cc & -> & Hc). apply in_any_digit in Hd as (cd & -> & Hd).
exists [ca; cb; cc; cd]. split; [reflexivity|]. split; [simpl; lia|].
cbn [decimal decimal_from]. rewrite Ha, Hb, Hc, Hd. f_equal; lia.
Qed.

Lemma dir_m_reads : reads (numeral 1 2) dir_m.
Proof.
unfold dir_m. repeat apply reads_alt.
- apply (pair_reads _ _ _ _ (fun _ b => 10 + b) (digit_in_one 1 1 ltac:(lia))
           (digit_in_one 0 2 ltac:(lia))). intros; lia.
- apply (pair_reads _ _ _ _ (fun _ b => b) (digit_in_one 0 0 ltac:(lia))
           (digit_in_one 1 9 ltac:(lia))). intros; lia.
- exact (single_reads _ _ (digit_in_one 1 9 ltac:(lia))).
Qed.

(** A day: a numeral of one or two digits, or a blank and a digit. *)
Lemma dir_d_reads :
  reads (fun t v => numeral 1 2 t v \/ exists c, t = [32; c] /\ decimal [c] = Some v) dir_d.
Proof.
assert (forall p, reads (numeral 1 2) p ->
          reads (fun t v => numeral 1 2 t v \/
                            exists c, t = [32; c] /\ decimal [c] = Some v) p) as Hleft.
{ intros p. apply reads_weaken. intros t v Hn. now left. }
unfold dir_d. repeat apply reads_alt.
- apply Hleft.
  apply (pair_reads _ _ _ _ (fun _ b => 30 + b) (digit_in_one 3 3 ltac:(lia))
           (digit_in_one 0 1 ltac:(lia))). intros; lia.
- apply Hleft.
  apply (pair_reads _ _ _ _ (fun a b => 10 * a + b) (digit_in_one 1 2 ltac:(lia))
           any_digit_one). intros; lia.
- apply Hleft.
  apply (pair_reads _ _ _ _ (fun _ b => b) (digit_in_one 0 0 ltac:(lia))
           (digit_in_one 1 9 ltac:(lia))). intros; lia.
- apply Hleft. exact (single_reads _ _ (digit_in_one 1 9 ltac:(lia))).
- intros s v rest H. apply in_pbind in H as (u & s1 & Hu & H).
  apply in_pbind in H as (b & s2 & Hb & H). apply in_pret in H as [-> ->].
  apply in_literal in Hu as ->. apply in_digit_in in Hb as (c & -> & Hc & _); [|lia].
  exists [32; c]. split; [reflexivity|]. right. exists c.
  split; [reflexivity | now apply decimal_one].
Qed.

Lemma dir_H_reads : reads (numeral 1 2) dir_H.
Proof.
unfold dir_H. repeat apply reads_alt.
- apply (pair_reads _ _ _ _ (fun _ b => 20 + b) (digit_in_one 2 2 ltac:(lia))
           (digit_in_one 0 3 ltac:(lia))). intros; lia.
- apply (pair_reads _ _ _ _ (fun a b => 10 * a + b) (digit_in_one 0 1 ltac:(lia))
           any_digit_one). intros; lia.
- exact (single_reads _ _ any_digit_one).
Qed.

Lemma dir_M_reads : reads (numeral 1 2) dir_M.
Proof.
unfold dir_M. repeat apply reads_alt.
- apply (pair_reads _ _ _ _ (fun a b => 10 * a + b) (digit_in_one 0 5 ltac:(lia))
           any_digit_one). intros; lia.
- exact (single_reads _ _ any_digit_one).
Qed.

(** Every match of the whole pattern splits into the six fields. *)
Lemma format_regex_reads (s rest : str) (dt : datetime) :
  In (dt, rest) (format_regex s) ->
  exists Y m d ws H Mi,
    s = Y ++ [45] ++ m ++ [45] ++ d ++ ws ++ H ++ [58] ++ Mi ++ rest
    /\ numeral 4 4 Y (year dt) /\ numeral 1 2 m (month dt)
    /\ (numeral 1 2 d (day dt) \/ exists c, d = [32; c] /\ decimal [c] = Some (day dt))
    /\ ws <> [] /\ Forall (fun c => is_space c = true) ws
    /\ numeral 1 2 H (hour dt) /\ numeral 1 2 Mi (minute dt).
Proof.
unfold format_regex. intros H.
apply in_pbind in H as (y & s1 & Hy & H). apply in_pbind in H as (u1 & s2 & Hu1 & H).
apply in_pbind in H as (m & s3 & Hm & H). apply in_pbind in H as (u2 & s4 & Hu2 & H).
apply in_pbind in H as (d & s5 & Hd & H). apply in_pbind in H as (u3 & s6 & Hu3 & H).
apply in_pbind in H as (h & s7 & Hh & H). apply in_pbind in H as (u4 & s8 & Hu4 & H).
apply in_pbind in H as (mi & s9 & Hmi & H). apply in_pret in H as [-> ->].
apply dir_Y_reads in Hy as (tY & -> & HY). apply in_literal in Hu1 as ->.
apply dir_m_reads in Hm as (tm & -> & Hm'). apply in_literal in Hu2 as ->.
apply dir_d_reads in Hd as (td & -> & Hd'). apply in_spaces1 in Hu3 as (ws & -> & Hws1 & Hws2).
apply dir_H_reads in Hh as (tH & -> & HH). apply in_literal in Hu4 as ->.
apply dir_M_reads in Hmi as (tM & -> & HM).
exists tY, tm, td, ws, tH, tM. cbn [year month day hour minute].
split; [reflexivity|]. repeat (split; [assumption|]). assumption.
Qed.

(** [strptime] accepts only what reads as the instant it returns. *)
Lemma strptime_sound (s : str) (dt : datetime) :
  strptime s = inr dt -> reads_as s dt.
Proof.
unfold strptime. destruct (format_regex s) as [|[dt' rest] more] eqn:Hf; [discriminate|].
destruct rest as [|c rest]; [|discriminate].
destruct (valid_date dt') eqn:Hv; [|discriminate]. intros [= ->].
assert (In (dt, []) (format_regex s)) as Hin by (rewrite Hf; now left).
apply format_regex_reads in Hin as (Y & m & d & ws & H & Mi & Hs & HY & Hm & Hd & Hw1 & Hw2 & HH & HM).
exists Y, m, d, ws, H, Mi. rewrite app_nil_r in Hs.
repeat (split; [assumption|]). assumption.
Qed.

(** Whatever [strptime] raises is a [ValueError]. *)
Lemma strptime_raises (s : str) (e : exception) :
  strptime s = inl e -> exists msg, e = ValueError msg.
Proof.
unfold strptime. destruct (format_regex s) as [|[dt rest] more].
- intros [= <-]. eauto.
- destruct rest; [destruct (valid_date dt)|]; intros [= <-]; eauto.
Qed.

(** *** The fixed format is accepted *)

Lemma first_bind {A B} (p : parser A) (k : A -> parser B) s a mid b rest :
  first_is p s a mid -> first_is (k a) mid b rest -> first_is (pbind p k) s b rest.
Proof.
intros [m1 H1] [m2 H2]. unfold first_is, pbind. rewrite H1. cbn [flat_map].
rewrite H2. cbn [app]. eauto.
Qed.

Lemma first_ret {A} (a : A) (s : str) : first_is (pret a) s a s.
Proof. now exists []. Qed.

Lemma first_alt_l {A} (p q : parser A) s v rest :
  first_is p s v rest -> first_is (alt p q) s v rest.
Proof. intros [m H]. unfold first_is, alt. rewrite H. cbn [app]. eauto. Qed.

Lemma first_alt_r {A} (p q : parser A) s v rest :
  p s = [] -> first_is q s v rest -> first_is (alt p q) s v rest.
Proof. intros Hp [m H]. unfold first_is, alt. rewrite Hp, H. cbn [app]. eauto. Qed.

Lemma bind_nothing {A B} (p : parser A) (k : A -> parser B) s :
  p s = [] -> pbind p k s = [].
Proof. intros H. unfold pbind. now rewrite H. Qed.

Lemma first_literal (c : char) (s : str) : first_is (literal c) (c :: s) tt s.
Proof. exists []. unfold literal. now rewrite N.eqb_refl. Qed.

Lemma digit_in_hit (lo hi c : N) (s : str) :
  48 + lo <= c <= 48 + hi -> first_is (digit_in lo hi) (c :: s) (c - 48) s.
Proof.
intros [H1 H2]. exists []. unfold digit_in.
apply N.leb_le in H1, H2. now rewrite H1, H2.
Qed.

Lemma digit_in_miss (lo hi c : N) (s : str) :
  c < 48 + lo \/ 48 + hi < c -> digit_in lo hi (c :: s) = [].
Proof.
intros H. unfold digit_in.
destruct (N.leb_spec (48 + lo) c); [|reflexivity].
destruct (N.leb_spec c (48 + hi)); [lia | reflexivity].
Qed.

Lemma ascii_digit_range (c : char) : is_ascii_digit c = true -> 48 <= c <= 57.
Proof.
unfold is_ascii_digit. intros H. apply andb_true_iff in H as [H1 H2].
apply N.leb_le in H1, H2. lia.
Qed.

Lemma first_any_digit (c : char) (s : str) :
  48 <= c <= 57 -> first_is any_digit (c :: s) (c - 48) s.
Proof.
intros [H1 H2]. exists []. unfold any_digit. now rewrite (ascii_digit_value c H1 H2).
Qed.

Lemma first_value {A} (p : parser A) s v v' rest :
  v = v' -> first_is p s v rest -> first_is p s v' rest.
Proof. now intros ->. Qed.

Lemma first_blank (c : char) (s : str) :
  48 <= c <= 57 -> first_is spaces1 (32 :: c :: s) tt (c :: s).
Proof.
intros Hc. exists []. cbn [spaces1]. change (is_space 32) with true. cbn iota.
assert (is_space c = false) as ->; [|reflexivity].
unfold is_space.
repeat match goal with
       | |- context [N.leb ?a ?b] => destruct (N.leb_spec a b); try lia
       | |- context [N.eqb ?a ?b] => destruct (N.eqb_spec a b); try lia
       end; reflexivity.
Qed.

(** The preferred way of a matcher on ASCII digits, found by trying
    its alternatives in order. *)
Ltac digits :=
  cbv beta;
  lazymatch goal with
  | |- first_is (alt _ _) _ _ _ =>
    first [ apply first_alt_l; digits
          | apply first_alt_r;
              [first [apply digit_in_miss; lia
                     | apply bind_nothing; apply digit_in_miss; lia]
              | digits] ]
  | |- first_is (pbind _ _) _ _ _ => eapply first_bind; [digits | digits]
  | |- first_is (pret _) _ _ _ => apply first_ret
  | |- first_is (literal _) _ _ _ => apply first_literal
  | |- first_is (digit_in _ _) _ _ _ => apply digit_in_hit; lia
  | |- first_is any_digit _ _ _ => apply first_any_digit; lia
  | |- first_is spaces1 _ _ _ => apply first_blank; lia
  end.

Lemma first_dir_Y (a b c d : char) (s : str) :
  48 <= a <= 57 -> 48 <= b <= 57 -> 48 <= c <= 57 -> 48 <= d <= 57 ->
  first_is dir_Y (a :: b :: c :: d :: s)
    (1000 * (a - 48) + 100 * (b - 48) + 10 * (c - 48) + (d - 48)) s.
Proof. intros Ha Hb Hc Hd. unfold dir_Y. digits. Qed.

Lemma first_dir_m (a b : char) (s : str) :
  48 <= a <= 57 -> 48 <= b <= 57 ->
  1 <= 10 * (a - 48) + (b - 48) <= 12 ->
  first_is dir_m (a :: b :: s) (10 * (a - 48) + (b - 48)) s.
Proof.
intros Ha Hb Hv. unfold dir_m.
assert (a = 48 \/ a = 49) as [-> | ->] by lia.
- eapply first_value; [|digits]. lia.
- eapply first_value; [|digits]. lia.
Qed.

Lemma first_dir_d (a b : char) (s : str) :
  48 <= a <= 57 -> 48 <= b <= 57 ->
  1 <= 10 * (a - 48) + (b - 48) <= 31 ->
  first_is dir_d (a :: b :: s) (10 * (a - 48) + (b - 48)) s.
Proof.
intros Ha Hb Hv. unfold dir_d.
assert (a = 48 \/ a = 49 \/ a = 50 \/ a = 51) as [-> | [-> | [-> | ->]]] by lia.
- eapply first_value; [|digits]. lia.
- eapply first_value; [|digits]. lia.
- eapply first_value; [|digits]. lia.
- eapply first_value; [|digits]. lia.
Qed.

Lemma first_dir_H (a b : char) (s : str) :
  48 <= a <= 57 -> 48 <= b <= 57 ->
  10 * (a - 48) + (b - 48) <= 23 ->
  first_is dir_H (a :: b :: s) (10 * (a - 48) + (b - 48)) s.
Proof.
intros Ha Hb Hv. unfold dir_H.
assert (a = 48 \/ a = 49 \/ a = 50) as [-> | [-> | ->]] by lia.
- eapply first_value; [|digits]. lia.
- eapply first_value; [|digits]. lia.
- eapply first_value; [|digits]. lia.
Qed.

Lemma first_dir_M (a b : char) (s : str) :
  48 <= a <= 57 -> 48 <= b <= 57 ->
  10 * (a - 48) + (b - 48) <= 59 ->
  first_is dir_M (a :: b :: s) (10 * (a - 48) + (b - 48)) s.
Proof.
intros Ha Hb Hv. unfold dir_M.
eapply first_value; [|digits]. lia.
Qed.

Lemma valid_date_ranges (dt : datetime) :
  valid_date dt = true ->
  1 <= month dt <= 12 /\ 1 <= day dt <= 31 /\ hour dt <= 23 /\ minute dt <= 59.
Proof.
unfold valid_date. intros H.
repeat (apply andb_true_iff in H as [H ?]).
repeat match goal with H : (_ <=? _) = true |- _ => apply N.leb_le in H end.
assert (days_in_month (year dt) (month dt) <= 31).
{ unfold days_in_month. repeat match goal with |- context [if ?b then _ else _] => destruct b end; lia. }
lia.
Qed.

Lemma some_inj {A} (a b : A) : Some a = Some b -> a = b.
Proof. now intros [= ->]. Qed.

(** A string in the fixed format that names a minute of the calendar
    is parsed to that minute. *)
Lemma strptime_fixed_format (s : str) (dt : datetime) :
  fixed_format s = Some dt -> valid_date dt = true -> strptime s = inr dt.
Proof.
unfold fixed_format.
do 16 (destruct s as [|? s]; [discriminate|]). destruct s; [|discriminate].
match goal with |- (if ?b then _ else _) = _ -> _ => destruct b eqn:Hb end; [|discriminate].
intros Hdt Hv. apply some_inj in Hdt. subst dt.
cbn [forallb] in Hb. rewrite !andb_true_iff in Hb.
repeat match goal with H : _ /\ _ |- _ => destruct H end.
repeat match goal with H : is_ascii_digit _ = true |- _ => apply ascii_digit_range in H end.
repeat match goal with H : (_ =? _) = true |- _ => apply N.eqb_eq in H; subst end.
destruct (valid_date_ranges _ Hv) as (Hm & Hd & Hh & Hmi).
cbn [month day hour minute] in *.
match goal with
| |- strptime ?l = inr ?d => assert (first_is format_regex l d []) as [more Hfirst]
end.
{ unfold format_regex.
  eapply first_bind; [apply first_dir_Y; assumption|]. cbv beta.
  eapply first_bind; [apply first_literal|]. cbv beta.
  eapply first_bind; [apply first_dir_m; assumption|]. cbv beta.
  eapply first_bind; [apply first_literal|]. cbv beta.
  eapply first_bind; [apply first_dir_d; assumption|]. cbv beta.
  eapply first_bind; [apply first_blank; assumption|]. cbv beta.
  eapply first_bind; [apply first_dir_H; assumption|]. cbv beta.
  eapply first_bind; [apply first_literal|]. cbv beta.
  eapply first_bind; [apply first_dir_M; assumption|]. cbv beta.
  apply first_ret. }
unfold strptime. rewrite Hfirst. now rewrite Hv.
Qed.

End ScheduleFacts.

(** ** The router *)

Section RouterFacts.
Import FS Schedule Discovery Router.
Context {U : UnicodeDB} {W : Type} {A : Adapters W}.

Lemma added_refl (ok : event -> bool) (s : state W) : added ok s s.
Proof. now exists []. Qed.

Lemma added_trans (ok : event -> bool) (a b c : state W) :
  added ok a b -> added ok b c -> added ok a c.
Proof.
intros (n1 & E1 & F1) (n2 & E2 & F2). exists (n2 ++ n1).
split; [now rewrite E2, E1, app_assoc|]. rewrite forallb_app. now rewrite F1, F2.
Qed.

Lemma only_printed_refl (s : state W) : only_printed s s.
Proof. split; [reflexivity | apply added_refl]. Qed.

Lemma only_printed_trans (a b c : state W) :
  only_printed a b -> only_printed b c -> only_printed a c.
Proof.
intros [W1 A1] [W2 A2]. split; [congruence | eapply added_trans; eassumption].
Qed.

Lemma emit_added (ok : event -> bool) (e : event) :
  ok e = true -> preserves (added ok) (emit e : M (state W) raised unit).
Proof. intros H s. exists [e]. split; [reflexivity|]. cbn. now rewrite H. Qed.

Lemma call_added {B} (ok : event -> bool) (e : event) (f : W -> (raised + B) * W) :
  ok e = true -> preserves (added ok) (call e f).
Proof.
intros H s. unfold call. destruct (f (world s)) as [r w]. cbn [snd].
exists [e]. split; [reflexivity|]. cbn. now rewrite H.
Qed.

Lemma print_only (m : message) :
  preserves (@only_printed W) (print m : M (state W) raised unit).
Proof.
intros s. split; [reflexivity|]. exists [Print m]. now split.
Qed.

Ltac printed_step :=
  first [ apply preserves_ret; exact only_printed_refl
        | apply preserves_raise; exact only_printed_refl
        | apply print_only
        | apply preserves_bind; [exact only_printed_trans | | intros ?]
        | apply preserves_for_each;
            [exact only_printed_refl | exact only_printed_trans | intros ? ?] ].

(** Lines 64-75 do nothing but print. *)
Lemma collect_videos_prints (fs : node) (args : Args) :
  preserves (@only_printed W) (collect_videos fs args).
Proof.
unfold collect_videos.
destruct (files args) as [[|f l]|]; try printed_step;
  (destruct (directory args) as [[|c d]|]; try printed_step);
  (destruct (negb _); [printed_step|]);
  (destruct (get_video_files _ _) as [|v vs]; [printed_step|]);
  repeat printed_step.
Qed.

(** The loop of lines 77-79 changes nothing; it raises at the first
    path that does not exist. *)
Lemma check_exist_ok (fs : node) (vs : list str) (s : state W) :
  (forall v, In v vs -> os_exists fs v = true) ->
  for_each vs (fun video_file =>
     if negb (os_exists fs video_file)
     then raise (Exc (FileNotFoundError video_file)) else ret tt) s = (inr tt, s).
Proof.
induction vs as [|v vs IH]; intros H; [reflexivity|].
cbn [for_each]. unfold bind. rewrite (H v (or_introl eq_refl)). cbn.
apply IH. intros x Hx. apply H. now right.
Qed.

Lemma check_exist_missing (fs : node) (vs : list str) (s : state W) :
  (exists v, In v vs /\ os_exists fs v = false) ->
  exists v, In v vs /\ os_exists fs v = false
    /\ for_each vs (fun video_file =>
         if negb (os_exists fs video_file)
         then raise (Exc (FileNotFoundError video_file)) else ret tt) s
       = (inl (Exc (FileNotFoundError v)), s).
Proof.
induction vs as [|v vs IH]; intros (x & Hx & Hmiss); [destruct Hx|].
cbn [for_each]. unfold bind.
destruct (os_exists fs v) eqn:Hv; cbn.
- destruct Hx as [->|Hx]; [congruence|].
  destruct IH as (y & Hy & Hy' & Hrun); [now exists x|].
  exists y. split; [now right|]. now split.
- exists v. split; [now left|]. now split.
Qed.

(** Whatever it finds, the loop of lines 77-79 leaves the state as it
    was. *)
Lemma check_exist_dec (fs : node) (vs : list str) (s : state W) :
  snd (for_each vs (fun video_file =>
         if negb (os_exists fs video_file)
         then raise (Exc (FileNotFoundError video_file)) else ret tt) s) = s.
Proof.
induction vs as [|v vs IH]; [reflexivity|].
cbn [for_each]. unfold bind. destruct (os_exists fs v); cbn; [exact IH | reflexivity].
Qed.

(** C2. When one of the paths of the list the checks run on (the
    files given, or the videos found in the directory given) does not
    exist, [main] raises [FileNotFoundError] for the first such path,
    and up to then it has only printed: the world of the collaborators
    is what it was, and no directory creation, title extraction,
    session establishment, job construction or upload has taken
    place. *)
Theorem missing_file_aborts
  (fs : node) (args : Args) (vs : list str) (st st1 : state W) :
  arg_action args = Upload ->
  collect_videos fs args st = (inr vs, st1) ->
  (exists v, In v vs /\ os_exists fs v = false) ->
  exists v st',
    In v vs /\ os_exists fs v = false
    /\ main fs args st = (inl (Exc (FileNotFoundError v)), st')
    /\ only_printed st st'.
Proof.
intros Hact Hcollect Hmiss.
destruct (check_exist_missing fs vs st1 Hmiss) as (v & Hin & Hv & Hrun).
exists v, st1. split; [exact Hin|]. split; [exact Hv|]. split.
- unfold main, check_args. rewrite Hact. unfold bind at 1 2 3.
  rewrite Hcollect. unfold bind at 1. now rewrite Hrun.
- pose proof (collect_videos_prints fs args st) as H. now rewrite Hcollect in H.
Qed.

Lemma for_each_app {B} (xs ys : list B) (body : B -> M (state W) raised unit) s :
  for_each (xs ++ ys) body s = bind (for_each xs body) (fun _ => for_each ys body) s.
Proof.
revert s; induction xs as [|x xs IH]; intros s; cbn [app for_each]; [reflexivity|].
unfold bind in *. destruct (body x s) as [[e|[]] s1]; [reflexivity | apply IH].
Qed.

(** C3. When the checks have passed and the job of one video of the
    list raises in its [main], after the videos before it went through,
    [main] raises the same exception, and the state it leaves is the
    state of that moment: the event of the failed run is the last one,
    and nothing is extracted, established, constructed or uploaded for
    the videos that follow. *)
Theorem adapter_failure_stops_batch
  (fs : node) (args : Args) (before after : list str) (video : str)
  (st sa sb s1 s2 : state W) (app : job) (e : raised) (w : W) :
  arg_action args = Upload ->
  check_args fs args st = (inr tt, sa) ->
  call (Mkdir (cookie_of args)) (mkdir_cookies (cookie_of args)) sa = (inr tt, sb) ->
  upload_list fs args sb = (inr (before ++ video :: after), sb) ->
  for_each before (upload_one args (cookie_of args)) sb = (inr tt, s1) ->
  build_app args (cookie_of args) video s1 = (inr app, s2) ->
  app_main app (world s2) = (inl e, w) ->
  main fs args st = (inl e, {| events := Run app :: events s2; world := w |}).
Proof.
intros Hact Hcheck Hmkdir Hlist Hbefore Hbuild Hrun.
unfold main. unfold bind at 1. rewrite Hcheck. cbv zeta.
unfold bind at 1. rewrite Hmkdir. rewrite Hact.
unfold bind at 1. rewrite Hlist. rewrite for_each_app.
unfold bind at 1. rewrite Hbefore. cbn [for_each].
unfold bind at 1. unfold upload_one at 1. unfold bind at 1. rewrite Hbuild.
unfold bind at 1. unfold call at 1. now rewrite Hrun.
Qed.

(** Event lists that grow at the front by events satisfying [ok]. *)
Lemma grown_refl (ok : event -> bool) (l : list event) :
  exists new, l = new ++ l /\ forallb ok new = true.
Proof. now exists []. Qed.

Lemma grown_cons (ok : event -> bool) (e : event) (l l' : list event) :
  ok e = true ->
  (exists new, l' = new ++ l /\ forallb ok new = true) ->
  exists new, e :: l' = new ++ l /\ forallb ok new = true.
Proof.
intros He (new & -> & Hn). exists (e :: new). split; [reflexivity|].
cbn. now rewrite He.
Qed.

Ltac grown :=
  unfold added; cbn [events snd];
  repeat (apply grown_cons; [reflexivity|]); apply grown_refl.

Lemma added_weaken (ok ok' : event -> bool) (s s' : state W) :
  (forall e, ok e = true -> ok' e = true) -> added ok s s' -> added ok' s s'.
Proof.
intros H (new & E & F). exists new. split; [exact E|].
rewrite forallb_forall in *. auto.
Qed.

Lemma check_args_prints (fs : node) (args : Args) :
  preserves (@only_printed W) (check_args fs args).
Proof.
unfold check_args.
destruct (arg_action args); try (apply preserves_ret; exact only_printed_refl).
apply preserves_bind; [exact only_printed_trans | apply collect_videos_prints | intros vs].
apply preserves_bind; [exact only_printed_trans | | intros _].
- intros s. rewrite check_exist_dec. apply only_printed_refl.
- destruct (_ && _); printed_step.
Qed.

Lemma only_printed_added (ok : event -> bool) (s s' : state W) :
  (forall m, ok (Print m) = true) -> only_printed s s' -> added ok s s'.
Proof.
intros Hok [_ H]. eapply added_weaken; [|exact H].
intros [m| | | | |]; try discriminate. intros _. apply Hok.
Qed.

(** With [publish_type] 0 a turn of the loop adds only events whose
    job, if any, is dated [0]. *)
Lemma upload_one_dated_zero (args : Args) (cookie : account_file) (video : str) :
  publish_type args = 0%Z ->
  preserves (added dated_zero) (upload_one args cookie video).
Proof.
intros Hpt s. unfold upload_one, build_app, bind, call, print, emit, modify, ret, raise.
rewrite Hpt. change (0 =? 0)%Z with true. cbv iota.
destruct (get_title_and_hashtags video (world s)) as [[x|[title tags]] w1]; [grown|].
destruct (arg_platform args) as [| | | |other]; cbn [events world];
  try (destruct (platform_setup _ cookie _ w1) as [[x|[]] w2]; [grown|];
       cbn [events world];
       destruct (app_main _ w2) as [[x|[]] w3]; grown).
grown.
Qed.

Lemma main_dated_zero (fs : node) (args : Args) :
  publish_type args = 0%Z -> preserves (added dated_zero) (main fs args).
Proof.
intros Hpt. unfold main.
apply preserves_bind; [apply added_trans | | intros _].
{ intros s. apply only_printed_added; [reflexivity | apply check_args_prints]. }
apply preserves_bind; [apply added_trans | now apply call_added | intros _].
destruct (arg_action args).
- apply preserves_bind; [apply added_trans | now apply emit_added | intros _].
  destruct (arg_platform args);
    first [now apply call_added | apply preserves_ret; apply added_refl].
- apply preserves_bind; [apply added_trans | | intros vs].
  + unfold upload_list. destruct (files args) as [[|f l]|];
      try (destruct (directory args));
      first [apply preserves_ret | apply preserves_raise]; apply added_refl.
  + apply preserves_for_each; [apply added_refl | apply added_trans|].
    intros v _. now apply upload_one_dated_zero.
- apply preserves_ret. apply added_refl.
Qed.

(** C9. With [publish_type] 0 (the default) the value of [--schedule]
    has no part in what [main] does: the run with any other value, well
    formed or not, is the same run, result and state.  The job built
    for each video is dated [0], and so is every job the run constructs
    or executes. *)
Theorem immediate_ignores_schedule
  (fs : node) (args : Args) (st : state W) (t : option str) :
  publish_type args = 0%Z ->
  main fs (set_schedule t args) st = main fs args st
  /\ (forall video s app s',
        build_app args (cookie_of args) video s = (inr app, s') -> job_date app = Zero)
  /\ added dated_zero st (snd (main fs args st)).
Proof.
intros Hpt. split; [|split].
- destruct args as [p a act f d pt sch]. cbn in Hpt. subst pt. reflexivity.
- intros video s app s'. unfold build_app, bind, call, print, emit, modify, ret, raise.
  rewrite Hpt. change (0 =? 0)%Z with true. cbv iota.
  destruct (get_title_and_hashtags video (world s)) as [[x|[title tags]] w1]; [discriminate|].
  destruct (arg_platform args) as [| | | |other]; cbn [events world];
    try (destruct (platform_setup _ _ _ w1) as [[x|[]] w2]; [discriminate|];
         intros [= <- _]; reflexivity).
  discriminate.
- now apply main_dated_zero.
Qed.

(** With a schedule that does not parse and a [publish_type] other
    than 0, a turn of the loop raises before it reaches the platform. *)
Lemma upload_one_bad_schedule
  (args : Args) (cookie : account_file) (video : str) (e : exception) (s : state W) :
  publish_type args <> 0%Z ->
  parse_schedule (schedule args) = inl e ->
  (exists x s', upload_one args cookie video s = (inl x, s')
                /\ (forall r, fst (get_title_and_hashtags video (world s)) = inr r ->
                               x = Exc e))
  /\ added (fun ev => negb (is_upload_event ev)) s (snd (upload_one args cookie video s)).
Proof.
intros Hpt He. apply Z.eqb_neq in Hpt.
unfold upload_one, build_app, bind, call, print, emit, modify, ret, raise, of_exception.
rewrite Hpt, He. cbv iota.
destruct (get_title_and_hashtags video (world s)) as [[x|[title tags]] w1]; cbn [fst snd].
- split; [|grown]. eexists _, _. split; [reflexivity|]. discriminate.
- split; [|grown]. eexists _, _. split; [reflexivity|]. reflexivity.
Qed.

Lemma parse_schedule_raises (t : option str) (e : exception) :
  parse_schedule t = inl e -> exists msg, e = ValueError msg.
Proof.
unfold parse_schedule. destruct t as [[|c s]|]; try discriminate.
destruct (strptime (c :: s)) as [e'|dt] eqn:H; [|discriminate].
intros [= <-]. now apply strptime_raises in H.
Qed.

Lemma main_bad_schedule (fs : node) (args : Args) (e : exception) :
  arg_action args = Upload ->
  publish_type args <> 0%Z ->
  parse_schedule (schedule args) = inl e ->
  preserves (added (fun ev => negb (is_upload_event ev))) (main fs args).
Proof.
intros Hact Hpt He. unfold main. rewrite Hact.
apply preserves_bind; [apply added_trans | | intros _].
{ intros s. apply only_printed_added; [reflexivity | apply check_args_prints]. }
apply preserves_bind; [apply added_trans | now apply call_added | intros _].
apply preserves_bind; [apply added_trans | | intros vs].
- unfold upload_list. destruct (files args) as [[|f l]|];
    try (destruct (directory args));
    first [apply preserves_ret | apply preserves_raise]; apply added_refl.
- apply preserves_for_each; [apply added_refl | apply added_trans|].
  intros v _ s. now apply (upload_one_bad_schedule args _ v e s).
Qed.

(** C6, as the code has it.  [parse_schedule] of [None], and of the
    empty string, is [None]; of [2024-01-15 10:30] it is that minute,
    with no time zone; every string in the fixed format
    [YYYY-MM-DD HH:MM] that names a minute of the calendar is parsed to
    it; every other non-empty string is parsed or raises [ValueError],
    and it raises [ValueError] whenever it cannot be read as four
    digits, a hyphen, one or two digits, a hyphen, one or two digits
    (or a blank and a digit), whitespace, one or two digits, a colon
    and one or two digits naming a minute of the calendar; and in an
    upload with a [publish_type] other than 0 and a schedule that does
    not parse, every turn of the loop raises (the [ValueError], once
    the title is extracted) and [main] adds no session establishment,
    job construction or upload to the events. *)
Theorem parse_schedule_spec :
  parse_schedule None = inr None
  /\ parse_schedule (Some []) = inr None
  /\ parse_schedule (Some (lit "2024-01-15 10:30"))
     = inr (Some {| year := 2024; month := 1; day := 15; hour := 10; minute := 30 |})
  /\ (forall s dt, fixed_format s = Some dt -> valid_date dt = true ->
                   parse_schedule (Some s) = inr (Some dt))
  /\ (forall s, s <> [] ->
        (exists dt, parse_schedule (Some s) = inr (Some dt) /\ reads_as s dt)
        \/ (exists msg, parse_schedule (Some s) = inl (ValueError msg)))
  /\ (forall s, s <> [] -> (forall dt, ~ reads_as s dt) ->
        exists msg, parse_schedule (Some s) = inl (ValueError msg))
  /\ (forall fs args e (st : state W),
        arg_action args = Upload ->
        publish_type args <> 0%Z ->
        parse_schedule (schedule args) = inl e ->
        (forall video s,
           exists x s', upload_one args (cookie_of args) video s = (inl x, s')
             /\ (forall r, fst (get_title_and_hashtags video (world s)) = inr r ->
                            x = Exc e))
        /\ added (fun ev => negb (is_upload_event ev)) st (snd (main fs args st))).
Proof.
assert (forall s, s <> [] ->
          (exists dt, parse_schedule (Some s) = inr (Some dt) /\ reads_as s dt)
          \/ (exists msg, parse_schedule (Some s) = inl (ValueError msg))) as Hcases.
{ intros [|c s] Hs; [congruence|]. cbn [parse_schedule].
  destruct (strptime (c :: s)) as [e|dt] eqn:H.
  - right. apply strptime_raises in H as [msg ->]. eauto.
  - left. exists dt. split; [reflexivity | now apply strptime_sound]. }
repeat apply conj.
- reflexivity.
- reflexivity.
- vm_compute. reflexivity.
- intros s dt Hf Hv. pose proof (strptime_fixed_format s dt Hf Hv) as H.
  destruct s as [|c s]; [discriminate|]. cbn [parse_schedule]. now rewrite H.
- exact Hcases.
- intros s Hs Hno. destruct (Hcases s Hs) as [(dt & _ & Hr)|H]; [|exact H].
  now destruct (Hno dt).
- intros fs args e st Hact Hpt He. split.
  + intros video s. now apply (upload_one_bad_schedule args _ video e s).
  + now apply (main_bad_schedule fs args e).
Qed.

End RouterFacts.

Section RouterExamples.
Import FS Schedule Discovery Router Sample.
#[local] Existing Instances ascii_only_db flaky.

(** C6 in the specification's words does not hold:
    [2024-1-15 10:30] is not empty and is not in the fixed format (its
    month has one digit), and [parse_schedule] does not raise; it
    returns 15 January 2024, 10:30. *)
Lemma parse_schedule_accepts_unpadded :
  lit "2024-1-15 10:30" <> []
  /\ fixed_format (lit "2024-1-15 10:30") = None
  /\ parse_schedule (Some (lit "2024-1-15 10:30"))
     = inr (Some {| year := 2024; month := 1; day := 15; hour := 10; minute := 30 |}).
Proof.
split; [discriminate|]. split; vm_compute; reflexivity.
Qed.

(** The last minute of 2030 in the fixed format; and an upload planned
    with a schedule that is no date. *)
Lemma parse_schedule_spec_witness :
  parse_schedule (Some (lit "2030-12-31 23:59"))
  = inr (Some {| year := 2030; month := 12; day := 31; hour := 23; minute := 59 |})
  /\ added (fun ev => negb (is_upload_event ev)) quiet
       (snd (main tree
               (set_schedule (Some (lit "not-a-date"))
                  {| arg_platform := Tencent; account_name := lit "xiaoA";
                     arg_action := Upload; files := Some [lit "videos/plain.mp4"];
                     directory := None; publish_type := 1%Z; schedule := None |})
               quiet)).
Proof.
destruct (@parse_schedule_spec ascii_only_db nat flaky) as (_ & _ & _ & Hfixed & _ & _ & Htask).
split.
- apply Hfixed; vm_compute; reflexivity.
- refine (proj2 (Htask tree _ (ValueError msg_no_match) quiet _ _ _)).
  + reflexivity.
  + discriminate.
  + vm_compute. reflexivity.
Defined.

(** A list with a path that does not exist. *)
Lemma missing_file_aborts_witness :
  exists v st',
    In v [lit "videos/plain.mp4"; lit "videos/ghost.mp4"]
    /\ os_exists tree v = false
    /\ main tree (upload_args [lit "videos/plain.mp4"; lit "videos/ghost.mp4"]) quiet
       = (inl (Exc (FileNotFoundError v)), st')
    /\ only_printed quiet st'.
Proof.
apply (missing_file_aborts tree
         (upload_args [lit "videos/plain.mp4"; lit "videos/ghost.mp4"])
         [lit "videos/plain.mp4"; lit "videos/ghost.mp4"] quiet quiet).
- reflexivity.
- reflexivity.
- exists (lit "videos/ghost.mp4"). split; [right; left; reflexivity|].
  vm_compute. reflexivity.
Defined.

(** Three videos, the job of the second fails: the third is not
    touched. *)
Lemma adapter_failure_stops_batch_witness :
  exists (app : job) (s2 : Router.state nat),
    main tree (upload_args [lit "videos/plain.mp4"; lit "videos/clip.mov";
                            lit "videos/LOUD.MP4"]) quiet
    = (inl (Exc (OSError 5)), {| events := Run app :: events s2; world := 2%nat |})
    /\ job_file app = lit "videos/clip.mov".
Proof.
eexists _, _. split.
- eapply (adapter_failure_stops_batch tree _ [lit "videos/plain.mp4"]
           [lit "videos/LOUD.MP4"] (lit "videos/clip.mov") quiet).
  + reflexivity.
  + vm_compute. reflexivity.
  + vm_compute. reflexivity.
  + vm_compute. reflexivity.
  + vm_compute. reflexivity.
  + vm_compute. reflexivity.
  + vm_compute. reflexivity.
- reflexivity.
Defined.

(** An immediate upload with a schedule that is no date runs like the
    one without. *)
Lemma immediate_ignores_schedule_witness :
  main tree (set_schedule (Some (lit "not-a-date"))
               (upload_args [lit "videos/plain.mp4"])) quiet
  = main tree (upload_args [lit "videos/plain.mp4"]) quiet.
Proof.
exact (proj1 (immediate_ignores_schedule tree (upload_args [lit "videos/plain.mp4"])
                quiet (Some (lit "not-a-date")) eq_refl)).
Defined.

End RouterExamples.

(** ** The discovery of the video files *)

Section DiscoveryFacts.
Import FS Discovery.

Lemma str_leb_total (a b : str) : str_leb a b = false -> str_leb b a = true.
Proof.
unfold str_leb. rewrite negb_false_iff, negb_true_iff.
revert b; induction a as [|x a IH]; intros [|y b]; cbn [str_ltb]; try discriminate; try reflexivity.
intros H. apply orb_true_iff in H as [H|H].
- apply N.ltb_lt in H.
  destruct (N.ltb_spec x y); [lia|]. destruct (N.eqb_spec x y); [lia | reflexivity].
- apply andb_true_iff in H as [Hxy H]. apply N.eqb_eq in Hxy as ->.
  rewrite N.ltb_irrefl, N.eqb_refl. cbn. now apply IH.
Qed.

Lemma insert_sorted_perm (x : str) (l : list str) :
  Permutation (insert_sorted x l) (x :: l).
Proof.
induction l as [|y l IH]; cbn [insert_sorted]; [reflexivity|].
destruct (str_leb x y); [reflexivity|].
rewrite IH. apply perm_swap.
Qed.

(** [sorted] rearranges its argument... *)
Lemma sorted_perm (l : list str) : Permutation (sorted l) l.
Proof.
induction l as [|x l IH]; [reflexivity|]. cbn [sorted fold_right].
fold (sorted l). rewrite insert_sorted_perm. now constructor.
Qed.

Lemma insert_sorted_sorted (x : str) (l : list str) :
  Sorted (fun a b => str_leb a b = true) l ->
  Sorted (fun a b => str_leb a b = true) (insert_sorted x l).
Proof.
induction 1 as [|y l Hl IH Hhd]; cbn [insert_sorted]; [repeat constructor|].
destruct (str_leb x y) eqn:Hxy.
- constructor; [now constructor | now constructor].
- constructor; [exact IH|].
  destruct l as [|z l]; cbn [insert_sorted].
  + constructor. now apply str_leb_total.
  + destruct (str_leb x z); constructor; [now apply str_leb_total|].
    now inversion Hhd.
Qed.

(** ... in ascending order of code points. *)
Lemma sorted_sorted (l : list str) : Sorted (fun a b => str_leb a b = true) (sorted l).
Proof.
induction l as [|x l IH]; [constructor|]. cbn [sorted fold_right].
now apply insert_sorted_sorted.
Qed.

End DiscoveryFacts.

Section DiscoveryRuns.
Import FS Discovery Sample.
Context {U : UnicodeDB}.

Lemma lookup_app (p q : path) (t : node) :
  lookup (p ++ q) t = match lookup p t with
                      | Some d => lookup q d
                      | None => None
                      end.
Proof.
revert t; induction p as [|x p IH]; intros t; cbn [app lookup]; [reflexivity|].
destruct t as [d|es]; [reflexivity|]. destruct (assoc x es); [apply IH | reflexivity].
Qed.

Lemma assoc_In (x : str) (m : node) (es : list (str * node)) :
  assoc x es = Some m -> In (x, m) es.
Proof.
induction es as [|[y m'] es IH]; cbn [assoc]; [discriminate|].
destruct (str_eqb x y) eqn:Hxy.
- apply str_eqb_eq in Hxy as <-. intros [= ->]. now left.
- intros H. right. now apply IH.
Qed.

(** [**] reaches every directory below. *)
Lemma lookup_iterate (sub : path) (d : node) (es : list (str * node)) :
  lookup sub d = Some (Dir es) -> In sub (iterate_directories d).
Proof.
revert d; induction sub as [|x sub IH]; intros d H.
- cbn [lookup] in H. injection H as ->. now left.
- destruct d as [c|es']; [discriminate|]. cbn [lookup] in H.
  destruct (assoc x es') as [m|] eqn:Hx; [|discriminate].
  cbn [iterate_directories]. right. apply in_flat_map.
  exists (x, m). split; [now apply assoc_In|]. cbn [fst snd].
  apply in_map. now apply IH.
Qed.

(** The matches of [dir.glob('**/*<ext>')]: the entries of [dir] and of
    every directory below it whose name ends with [ext] as written. *)
Lemma rglob_spec (t : node) (dir : path) (ext : str) (f : path) :
  In f (rglob t dir ext) <->
  exists sub es n m, lookup (dir ++ sub) t = Some (Dir es) /\ In (n, m) es
                     /\ endswith ext n = true /\ f = dir ++ sub ++ [n].
Proof.
unfold rglob. split.
- destruct (lookup dir t) as [d|]; [|intros []].
  intros H. apply in_flat_map in H as (sub & _ & H).
  apply glob_spec in H as (es & n & m & Hl & Hin & He & ->).
  exists sub, es, n, m. now rewrite app_assoc.
- intros (sub & es & n & m & Hl & Hin & He & ->).
  rewrite lookup_app in Hl. destruct (lookup dir t) as [d|] eqn:Hd; [|discriminate].
  apply in_flat_map. exists sub. split; [now apply lookup_iterate with es|].
  rewrite app_assoc. apply glob_spec. exists es, n, m.
  rewrite lookup_app, Hd. now repeat split.
Qed.

(** What the directory branch of [get_video_files] returns: in
    ascending order, the entries below the directory whose name ends
    with one of the six extensions as they are written in the code, in
    lower case. *)
Lemma get_video_files_directory (fs : node) (path : str) :
  is_file fs (Path path) = false ->
  Sorted (fun a b => str_leb a b = true) (get_video_files fs path)
  /\ forall p,
       In p (get_video_files fs path) <->
       exists sub es n m ext,
         lookup (Path path ++ sub) fs = Some (Dir es) /\ In (n, m) es
         /\ In ext video_extensions /\ endswith ext n = true
         /\ p = path_str (Path path ++ sub ++ [n]).
Proof.
intros Hf. unfold get_video_files. rewrite Hf. split; [apply sorted_sorted|].
intros p. split.
- intros H. apply (Permutation_in _ (sorted_perm _)) in H.
  apply in_flat_map in H as (ext & Hext & H).
  apply in_map_iff in H as (f & <- & H).
  apply rglob_spec in H as (sub & es & n & m & Hl & Hin & He & ->).
  now exists sub, es, n, m, ext.
- intros (sub & es & n & m & ext & Hl & Hin & Hext & He & ->).
  apply (Permutation_in _ (Permutation_sym (sorted_perm _))).
  apply in_flat_map. exists ext. split; [exact Hext|].
  apply in_map. apply rglob_spec. now exists sub, es, n, m.
Qed.

(** What the file branch returns: the file, when its suffix in lower
    case is one of the six extensions. *)
Lemma get_video_files_file (fs : node) (path : str) :
  is_file fs (Path path) = true ->
  get_video_files fs path
  = if existsb (str_eqb (lower (suffix (Path path)))) video_extensions
    then [path_str (Path path)] else [].
Proof. intros Hf. unfold get_video_files. now rewrite Hf. Qed.

(** C4, at the input where the code and the specification part.  In the sample
    tree the directory [videos] holds [LOUD.MP4].  Asked for that file
    alone, [get_video_files] returns it: the extension is compared in
    lower case.  Asked for the directory, it returns the four videos
    whose extension is written in lower case, in ascending order, and
    not [LOUD.MP4]: the glob patterns are compared as written. *)
Theorem get_video_files_misses_upper_case :
  is_file tree (Path (lit "videos/LOUD.MP4")) = true
  /\ get_video_files tree (lit "videos/LOUD.MP4") = [lit "videos/LOUD.MP4"]
  /\ get_video_files tree (lit "videos")
     = [lit "videos/Song [Copyright Free] Track.mp4"; lit "videos/clip.mov";
        lit "videos/plain.mp4"; lit "videos/sub/deep.mp4"]
  /\ ~ In (lit "videos/LOUD.MP4") (get_video_files tree (lit "videos")).
Proof.
split; [reflexivity|]. split; [vm_compute; reflexivity|].
assert (get_video_files tree (lit "videos")
        = [lit "videos/Song [Copyright Free] Track.mp4"; lit "videos/clip.mov";
           lit "videos/plain.mp4"; lit "videos/sub/deep.mp4"]) as H
  by (vm_compute; reflexivity).
split; [exact H|]. rewrite H. vm_compute.
intros [H1|[H1|[H1|[H1|[]]]]]; discriminate H1.
Qed.

End DiscoveryRuns.

(** ** The models at a few inputs *)

Section Checks.
Import FS Re Schedule Discovery VideoPreprocessor.
Context {U : UnicodeDB}.

Example replace_does_not_overlap :
  replace (lit "aaa") (lit "aa") (lit "b") = lit "ba".
Proof. reflexivity. Qed.

Example replace_empty_old :
  replace (lit "abc") [] (lit "-") = lit "-a-b-c-".
Proof. reflexivity. Qed.

Example split_on_star :
  split 42%N (lit "a*b**c") = [lit "a"; lit "b"; []; lit "c"].
Proof. reflexivity. Qed.

Example slice_to_examples :
  slice_to (lit "hello") 3 = lit "hel"
  /\ slice_to (lit "hello") 9 = lit "hello"
  /\ slice_to (lit "hello") (-2) = lit "hel"
  /\ slice_to (lit "hello") (-9) = [].
Proof. repeat split. Qed.

Example strip_example :
  strip (lit "  a b " ++ [10%N]) = lit "a b".
Proof. reflexivity. Qed.

Example escape_example :
  escape (lit "[a.b] c") = lit "\[a\.b\]\ c".
Proof. reflexivity. Qed.

Example wildcard_regex_example :
  wildcard_regex (lit "[*]") = lit "\[.*?\]"
  /\ wildcard_regex (lit "(*).*") = lit "\(.*?\)\..*?".
Proof. split; vm_compute; reflexivity. Qed.

Example sub_delete_examples :
  sub_delete [Lit 91; LazyAny; Lit 93]%N (lit "[a][b]c[") = lit "c["
  /\ sub_delete [Lit 97; LazyAny]%N (lit "xabcaby") = lit "xbcby"
  /\ sub_delete [LazyAny] (lit "abc") = []
  /\ sub_delete [Lit 91; LazyAny; Lit 93]%N (lit "[a" ++ [10%N] ++ lit "b]") 
     = lit "[a" ++ [10%N] ++ lit "b]".
Proof. repeat split. Qed.

Example stem_examples :
  stem [lit "videos"; lit "a.tar.gz"] = lit "a.tar"
  /\ suffix [lit "videos"; lit "a.tar.gz"] = lit ".gz"
  /\ stem [lit ".mp4"] = lit ".mp4"
  /\ suffix [lit ".mp4"] = []
  /\ stem [lit "clip."] = lit "clip.".
Proof. repeat split. Qed.

Example path_examples :
  Path (lit "./videos//sub/") = [lit "videos"; lit "sub"]
  /\ path_str [lit "videos"; lit "sub"] = lit "videos/sub"
  /\ path_str (Path []) = lit ".".
Proof. repeat split. Qed.

Example sorted_by_code_points :
  sorted [lit "b"; lit "a/b"; lit "a-b"; lit "B"] = [lit "B"; lit "a-b"; lit "a/b"; lit "b"].
Proof. reflexivity. Qed.

Example strptime_examples :
  (exists msg, strptime (lit "not-a-date") = inl (ValueError msg))
  /\ (exists msg, strptime (lit "2024-02-30 10:00") = inl (ValueError msg))
  /\ (exists msg, strptime (lit "2024-01-15 10:30:00") = inl (ValueError msg))
  /\ (exists msg, strptime (lit "2024-01-15T10:30") = inl (ValueError msg))
  /\ strptime (lit "2024-02-29  7:05")
     = inr {| year := 2024; month := 2; day := 29; hour := 7; minute := 5 |}.
Proof. repeat split; try (eexists; vm_compute; reflexivity). Qed.

Example os_exists_examples :
  Router.os_exists Sample.tree (lit "videos/plain.mp4") = true
  /\ Router.os_exists Sample.tree (lit "videos/plain.mp4/") = false
  /\ Router.os_exists Sample.tree (lit "videos/") = true
  /\ Router.os_exists Sample.tree (lit "./videos//plain.mp4") = true
  /\ Router.os_exists Sample.tree (lit "videos/../videos/plain.mp4") = true
  /\ Router.os_exists Sample.tree (lit "videos/ghost/../plain.mp4") = false
  /\ Router.os_exists Sample.tree (lit "videos/plain.mp4/..") = false
  /\ Router.os_exists Sample.tree (lit "/videos/plain.mp4") = true
  /\ Router.os_exists Sample.tree (lit "..") = true
  /\ Router.os_exists Sample.tree [] = false.
Proof. repeat split; vm_compute; reflexivity. Qed.

Example write_text_examples :
  let file := [lit "videos"; lit "note.txt"] in
  (exists s, @VideoPreprocessor.write_text unit Sample.offline file (lit "abc") Sample.start
             = (inr tt, s)
             /\ lookup file (VideoPreprocessor.fs s) = Some (File (lit "abc")))
  /\ (exists s, @VideoPreprocessor.write_text unit Sample.offline file [97; 56320]%N Sample.start
                = (inl UnicodeEncodeError, s)
                /\ lookup file (VideoPreprocessor.fs s) = Some (File [])).
Proof. split; eexists; split; vm_compute; reflexivity. Qed.

End Checks.

(* ===================================================================== *)
(** * Part III. Further properties of the two programs                    *)
(* ===================================================================== *)

(** ** Paths and their strings *)

Section PathStrings.
Import FS Names.

Lemma has_char_false (c : char) (s : str) :
  has_char c s = false <-> forall x, In x s -> x <> c.
Proof.
unfold has_char. induction s as [|y s IH]; cbn [existsb].
- split; [intros _ x [] | reflexivity].
- rewrite orb_false_iff, IH. split.
  + intros [Hy Hs] x [<-|Hx]; [|now apply Hs].
    intros ->. now rewrite N.eqb_refl in Hy.
  + intros H. split.
    * destruct (N.eqb_spec c y) as [->|]; [|reflexivity].
      now destruct (H y (or_introl eq_refl)).
    * intros x Hx. apply H. now right.
Qed.

(** A string without the separator is its own single segment. *)
Lemma split_no_sep (sep : char) (s : str) :
  has_char sep s = false -> split sep s = [s].
Proof.
induction s as [|c s IH]; [reflexivity|]. cbn [has_char existsb split].
unfold has_char in IH. intros H. apply orb_false_iff in H as [Hc Hs].
rewrite N.eqb_sym, Hc, (IH Hs). reflexivity.
Qed.

Lemma split_app_sep (sep : char) (a b : str) :
  has_char sep a = false -> split sep (a ++ sep :: b) = a :: split sep b.
Proof.
induction a as [|c a IH]; cbn [app split has_char existsb].
- intros _. now rewrite N.eqb_refl.
- unfold has_char in IH. intros H. apply orb_false_iff in H as [Hc Ha].
  rewrite N.eqb_sym, Hc, (IH Ha). reflexivity.
Qed.

(** The segments [split] finds hold no separator. *)
Lemma split_segments (sep : char) (s seg : str) :
  In seg (split sep s) -> has_char sep seg = false.
Proof.
revert seg. induction s as [|c s IH]; intros seg; cbn [split].
- intros [<-|[]]. reflexivity.
- destruct (N.eqb_spec c sep) as [->|Hc].
  + intros [<-|H]; [reflexivity | now apply IH].
  + destruct (split sep s) as [|seg0 segs] eqn:Hs.
    * intros [<-|[]]. cbn. destruct (N.eqb_spec sep c); [congruence | reflexivity].
    * intros [<-|H].
      -- cbn [has_char existsb]. destruct (N.eqb_spec sep c); [congruence|].
         apply (IH seg0). now left.
      -- apply IH. now right.
Qed.

Lemma good_name_parts (n : str) :
  good_name n = true <-> n <> [] /\ n <> lit "." /\ has_char 47%N n = false.
Proof.
unfold good_name. rewrite !andb_true_iff, !negb_true_iff. split.
- intros [[H1 H2] H3]. repeat split; try assumption.
  + intros ->. discriminate.
  + intros ->. discriminate.
- intros (H1 & H2 & H3). repeat split; try assumption.
  + destruct (str_eqb n []) eqn:E; [|reflexivity]. apply str_eqb_eq in E. contradiction.
  + destruct (str_eqb n (lit ".")) eqn:E; [|reflexivity]. apply str_eqb_eq in E. contradiction.
Qed.

(** [Path] keeps only good names. *)
Lemma Path_good (s : str) : Forall (fun n => good_name n = true) (Path s).
Proof.
unfold Path. apply Forall_forall. intros n H. apply filter_In in H as [Hin Hf].
apply negb_true_iff, orb_false_iff in Hf as [H1 H2].
unfold good_name. rewrite H1, H2. cbn. apply negb_true_iff.
now apply (split_segments 47%N s).
Qed.

Lemma split_join (p : path) :
  p <> [] -> Forall (fun n => good_name n = true) p ->
  split 47%N (join (lit "/") p) = p.
Proof.
change (lit "/") with [47%N].
induction p as [|n p IH]; [congruence|]. intros _ H. inversion H as [|? ? Hn Hp]; subst.
apply good_name_parts in Hn as (_ & _ & Hn).
destruct p as [|n' p].
- cbn [join]. now apply split_no_sep.
- cbn [join]. cbn [app]. rewrite (split_app_sep 47%N n _ Hn).
  f_equal. apply IH; [discriminate | exact Hp].
Qed.

(** A path of good names is read back from its string. *)
Lemma Path_path_str (p : path) :
  Forall (fun n => good_name n = true) p -> Path (path_str p) = p.
Proof.
intros H. destruct p as [|n p]; [reflexivity|].
unfold Path, path_str. rewrite split_join by (discriminate || exact H).
apply filter_all. intros x Hx. rewrite Forall_forall in H. specialize (H x Hx).
unfold good_name in H. apply andb_true_iff in H as [H _].
apply andb_true_iff in H as [H1 H2]. apply negb_true_iff in H1, H2.
now rewrite H1, H2.
Qed.

Lemma path_str_nonempty (p : path) :
  Forall (fun n => good_name n = true) p -> path_str p <> [].
Proof.
intros H. destruct p as [|n p]; [discriminate|].
inversion H as [|? ? Hn _]; subst. apply good_name_parts in Hn as (Hn & _).
unfold path_str. destruct p; cbn [join]; [exact Hn|].
destruct n; [congruence | discriminate].
Qed.

End PathStrings.

(** ** What the discovery returns *)

Section DiscoveredPaths.
Import FS Names Discovery Router.
Context {U : UnicodeDB}.

Lemma In_assoc (n : str) (m : node) (es : list (str * node)) :
  In (n, m) es -> exists m', assoc n es = Some m'.
Proof.
induction es as [|[y m0] es IH]; [intros []|]. cbn [assoc].
destruct (str_eqb n y) eqn:Hny; [eauto|].
intros [H|H]; [|now apply IH].
injection H as -> _. now rewrite str_eqb_refl in Hny.
Qed.

(** The names along a path that leads somewhere are names of
    entries. *)
Lemma lookup_names (t : node) (sub pre : path) (d : node) :
  well_named t -> lookup (pre ++ sub) t = Some d ->
  Forall (fun n => good_name n = true) sub.
Proof.
intros Hw. revert pre. induction sub as [|x sub IH]; intros pre H; [constructor|].
constructor.
- rewrite lookup_app in H. destruct (lookup pre t) as [[c|es]|] eqn:Hp; try discriminate.
  cbn [lookup] in H. destruct (assoc x es) as [m|] eqn:Hx; [|discriminate].
  apply assoc_In in Hx. exact (Hw pre es x m Hp Hx).
- apply (IH (pre ++ [x])). rewrite <- app_assoc. exact H.
Qed.

(** What [get_video_files] returns is the string of a path of real
    names. *)
Lemma discovered_path_names (fs : node) (dir p : str) :
  well_named fs ->
  In p (get_video_files fs dir) ->
  exists q, p = path_str q /\ Forall (fun n => good_name n = true) q.
Proof.
intros Hw Hin.
destruct (is_file fs (Path dir)) eqn:Hf.
- rewrite (get_video_files_file fs dir Hf) in Hin.
  destruct (existsb _ _); [|destruct Hin]. destruct Hin as [<-|[]].
  exists (Path dir). split; [reflexivity | apply Path_good].
- destruct (get_video_files_directory fs dir Hf) as [_ Hspec].
  apply Hspec in Hin as (sub & es & n & m & ext & Hl & Hn & _ & _ & ->).
  exists (Path dir ++ sub ++ [n]). split; [reflexivity|].
  apply Forall_app. split; [apply Path_good|]. apply Forall_app. split.
  + exact (lookup_names fs sub (Path dir) _ Hw Hl).
  + constructor; [exact (Hw _ _ _ _ Hl Hn) | constructor].
Qed.

(** In a tree of real names every string [get_video_files] returns is
    a path in the form [pathlib] writes it: it is not empty, and
    [str(Path(p))] is [p] again, so that the string printed, the
    string checked and the string handed to the uploader name the
    same path. *)
Theorem discovered_paths_read_back (fs : node) (dir p : str) :
  well_named fs ->
  In p (get_video_files fs dir) ->
  p <> [] /\ path_str (Path p) = p.
Proof.
intros Hw Hin.
destruct (discovered_path_names fs dir p Hw Hin) as (q & Hp & Hgood).
subst p. split.
- exact (path_str_nonempty q Hgood).
- now rewrite (Path_path_str q Hgood).
Qed.

Lemma all_names_good_sound (t : node) : all_names_good t = true -> well_named t.
Proof.
intros H p. revert t H. induction p as [|x p IH]; intros t H es n m Hl Hin.
- cbn [lookup] in Hl. injection Hl as ->. cbn [all_names_good] in H.
  rewrite forallb_forall in H. specialize (H _ Hin). cbn [fst] in H.
  now apply andb_true_iff in H as [H _].
- destruct t as [c|es']; [discriminate|]. cbn [lookup] in Hl.
  destruct (assoc x es') as [m'|] eqn:Hx; [|discriminate].
  apply assoc_In in Hx. cbn [all_names_good] in H.
  rewrite forallb_forall in H. specialize (H _ Hx). cbn [snd] in H.
  apply andb_true_iff in H as [_ H]. exact (IH m' H es n m Hl Hin).
Qed.

End DiscoveredPaths.

(** ** The order of strings *)

Section StringOrder.
Import Discovery DiscoveryOrder.

Lemma str_ltb_irrefl (a : str) : str_ltb a a = false.
Proof.
induction a as [|x a IH]; [reflexivity|]. cbn [str_ltb].
now rewrite N.ltb_irrefl, N.eqb_refl, IH.
Qed.

(** Two strings of which neither is before the other are the same. *)
Lemma str_ltb_connected (a b : str) :
  str_ltb a b = false -> str_ltb b a = false -> a = b.
Proof.
revert b; induction a as [|x a IH]; intros [|y b]; cbn [str_ltb]; try discriminate;
  [reflexivity|].
intros H1 H2. apply orb_false_iff in H1 as [L1 E1], H2 as [L2 E2].
apply N.ltb_ge in L1, L2. assert (x = y) as -> by lia.
rewrite N.eqb_refl in E1, E2. cbn in E1, E2. f_equal. now apply IH.
Qed.

Lemma str_ltb_trans (a b c : str) :
  str_ltb a b = true -> str_ltb b c = true -> str_ltb a c = true.
Proof.
revert b c; induction a as [|x a IH]; intros [|y b] [|z c]; cbn [str_ltb];
  try discriminate; try reflexivity.
intros H1 H2. apply orb_true_iff in H1, H2. apply orb_true_iff.
destruct H1 as [H1|H1], H2 as [H2|H2].
- left. apply N.ltb_lt in H1, H2. apply N.ltb_lt. lia.
- apply andb_true_iff in H2 as [E2 _]. apply N.eqb_eq in E2 as <-. now left.
- apply andb_true_iff in H1 as [E1 _]. apply N.eqb_eq in E1 as ->. now left.
- apply andb_true_iff in H1 as [E1 H1], H2 as [E2 H2].
  apply N.eqb_eq in E1 as ->, E2 as ->. right. rewrite N.eqb_refl. cbn. eauto.
Qed.

Lemma str_leb_antisym (a b : str) :
  str_leb a b = true -> str_leb b a = true -> a = b.
Proof.
unfold str_leb. rewrite !negb_true_iff. intros H1 H2. now apply str_ltb_connected.
Qed.

Lemma str_leb_trans (a b c : str) :
  str_leb a b = true -> str_leb b c = true -> str_leb a c = true.
Proof.
unfold str_leb. rewrite !negb_true_iff. intros H1 H2.
destruct (str_ltb c a) eqn:Hca; [|reflexivity].
destruct (str_ltb a b) eqn:Hab.
- rewrite (str_ltb_trans c a b Hca Hab) in H2. discriminate.
- rewrite (str_ltb_connected a b Hab H1) in Hca. congruence.
Qed.

(** A list has one ascending arrangement. *)
Lemma ascending_unique (l l' : list str) :
  StronglySorted (fun a b => str_leb a b = true) l ->
  StronglySorted (fun a b => str_leb a b = true) l' ->
  Permutation l l' -> l = l'.
Proof.
intros Hl. revert l'. induction Hl as [|x l Hl IH Hx]; intros l' Hl' Hp.
- apply Permutation_nil in Hp. now subst.
- destruct Hl' as [|y l' Hl' Hy]; [apply Permutation_sym, Permutation_nil in Hp; discriminate|].
  assert (x = y) as ->.
  { assert (In x (y :: l')) as Hin by (apply (Permutation_in _ Hp); now left).
    assert (In y (x :: l)) as Hin'
      by (apply (Permutation_in _ (Permutation_sym Hp)); now left).
    destruct Hin as [->|Hin]; [reflexivity|]. destruct Hin' as [->|Hin']; [reflexivity|].
    rewrite Forall_forall in Hx, Hy. apply str_leb_antisym; auto. }
  f_equal. apply IH; [exact Hl'|]. now apply Permutation_cons_inv with y.
Qed.

Lemma sorted_strongly (l : list str) :
  StronglySorted (fun a b => str_leb a b = true) (sorted l).
Proof.
apply Sorted_StronglySorted; [|apply sorted_sorted].
intros a b c. apply str_leb_trans.
Qed.

(** [sorted] depends only on what the list holds, not on its order. *)
Lemma sorted_of_permutation (l l' : list str) :
  Permutation l l' -> sorted l = sorted l'.
Proof.
intros H. apply ascending_unique; try apply sorted_strongly.
rewrite (sorted_perm l), H. symmetry. apply sorted_perm.
Qed.

End StringOrder.

Section DiscoveryOrderFacts.
Import FS Discovery DiscoveryOrder.
Context {U : UnicodeDB}.

(** The list [get_video_files] returns for a directory does not depend
    on the order in which the set of extensions is gone through: with
    the six extensions in any order the result is the same list. *)
Theorem discovery_ignores_extension_order (exts : list str) (fs : node) (path : str) :
  Permutation exts video_extensions ->
  is_file fs (Path path) = false ->
  get_video_files fs path = discover exts fs (Path path).
Proof.
intros Hp Hf. unfold get_video_files, discover. rewrite Hf.
apply sorted_of_permutation. symmetry. now apply Permutation_flat_map.
Qed.

End DiscoveryOrderFacts.

(** ** The checks of [main] *)

Section Validation.
Import FS Names Schedule Discovery Router Checks.
Context {U : UnicodeDB} {W : Type} {A : Adapters W}.

(** The loop of lines 77-79 reports the first path that is not there
    and leaves the state alone. *)
Lemma existence_loop (fs : node) (vs : list str) (s : state W) :
  for_each vs (fun video_file =>
     if negb (os_exists fs video_file)
     then raise (Exc (FileNotFoundError video_file)) else ret tt) s
  = (match find (fun v => negb (os_exists fs v)) vs with
     | Some v => inl (Exc (FileNotFoundError v))
     | None => inr tt
     end, s).
Proof.
induction vs as [|v vs IH]; [reflexivity|].
cbn [for_each find]. unfold bind. destruct (os_exists fs v); cbn; [exact IH | reflexivity].
Qed.

Lemma checks_on_list (fs : node) (args : Args) (vs : list str) (s : state W) :
  bind (for_each vs (fun video_file =>
          if negb (os_exists fs video_file)
          then raise (Exc (FileNotFoundError video_file)) else ret tt))
       (fun _ => if ((publish_type args =? 1)%Z && negb (nonempty (schedule args)))
                 then raise (SystemExit 2) else ret tt) s
  = (checks_outcome fs args vs, s).
Proof.
unfold bind. rewrite existence_loop. unfold checks_outcome, schedule_missing.
destruct (find _ vs); [reflexivity|]. now destruct (_ && _).
Qed.

(** When the checks raise, [main] raises the same and stops there. *)
Lemma main_stops_at_checks (fs : node) (args : Args) (st s' : state W) (x : raised) :
  check_args fs args st = (inl x, s') -> main fs args st = (inl x, s').
Proof. intros H. unfold main. unfold bind at 1. now rewrite H. Qed.

(** With [--files]: the checks leave the state as it is and print
    nothing; the first path that does not exist is reported with
    [FileNotFoundError], before a missing schedule is; and when they
    raise, [main] ends in the very state it started in. *)
Theorem checks_with_files
  (fs : node) (args : Args) (f : str) (l : list str) (st : state W) :
  arg_action args = Upload ->
  files args = Some (f :: l) ->
  check_args fs args st = (checks_outcome fs args (f :: l), st)
  /\ (forall x, checks_outcome fs args (f :: l) = inl x ->
                main fs args st = (inl x, st)).
Proof.
intros Hact Hfiles.
assert (check_args fs args st = (checks_outcome fs args (f :: l), st)) as H.
{ unfold check_args, collect_videos. rewrite Hact, Hfiles.
  unfold bind at 1. unfold ret at 1. apply checks_on_list. }
split; [exact H|]. intros x Hx. apply main_stops_at_checks. now rewrite H, Hx.
Qed.

Lemma for_each_prints (vs : list str) (s : state W) :
  for_each vs (fun video => print (Item video)) s
  = (inr tt, {| events := rev (map (fun v => Print (Item v)) vs) ++ events s;
                world := world s |}).
Proof.
revert s; induction vs as [|v vs IH]; intros s; [now destruct s|].
cbn [for_each]. unfold bind, print, emit, modify at 1. rewrite IH.
cbn [events world map rev]. now rewrite <- app_assoc.
Qed.

(** With [--directory]: a directory that does not exist is reported
    with [FileNotFoundError] and one without videos with [ValueError],
    the state untouched; otherwise the count and the videos found are
    printed, and then the outcome is that of the checks on the list
    found: the first of the videos found that [os.path.exists] does
    not find is reported with [FileNotFoundError], else the missing
    schedule. *)
Theorem checks_with_directory
  (fs : node) (args : Args) (c : char) (d : str) (st : state W) :
  arg_action args = Upload ->
  nonempty (files args) = false ->
  directory args = Some (c :: d) ->
  check_args fs args st =
  if negb (os_exists fs (c :: d)) then (inl (Exc (FileNotFoundError (c :: d))), st)
  else match get_video_files fs (c :: d) with
       | [] => (inl (Exc (ValueError (c :: d))), st)
       | v :: vs =>
         (checks_outcome fs args (v :: vs),
          {| events := found_lines (v :: vs) ++ events st; world := world st |})
       end.
Proof.
intros Hact Hfiles Hdir. unfold check_args, collect_videos. rewrite Hact, Hdir.
assert (match files args with
        | Some (f :: fs') => False
        | _ => True
        end) as Hnone by (destruct (files args) as [[|? ?]|]; [exact I | discriminate | exact I]).
destruct (negb (os_exists fs (c :: d))).
- destruct (files args) as [[|? ?]|]; try contradiction; reflexivity.
- destruct (get_video_files fs (c :: d)) as [|v vs] eqn:Hg.
  + destruct (files args) as [[|? ?]|]; try contradiction; reflexivity.
  + assert (forall s : state W,
              bind (print (Found (length (v :: vs))))
                   (fun _ => bind (for_each (v :: vs) (fun video => print (Item video)))
                                  (fun _ => ret (v :: vs))) s
              = (inr (v :: vs),
                 {| events := found_lines (v :: vs) ++ events s; world := world s |})) as Hpr.
    { intros s. unfold bind at 1. unfold print at 1, emit, modify.
      unfold bind at 1. rewrite for_each_prints. unfold ret, found_lines.
      cbn [events world]. now rewrite <- app_assoc. }
    destruct (files args) as [[|? ?]|]; try contradiction;
      (unfold bind at 1; rewrite Hpr; apply checks_on_list).
Qed.

(** Whatever the checks raise, it is a [FileNotFoundError], a
    [ValueError] or the exit of [parser.error]; [main] raises it too,
    and nothing has happened but printing: the world of the
    collaborators is as it was, no directory was made. *)
Theorem failed_checks_have_no_effect
  (fs : node) (args : Args) (st s' : state W) (x : raised) :
  check_args fs args st = (inl x, s') ->
  main fs args st = (inl x, s')
  /\ only_printed st s'
  /\ ((exists p, x = Exc (FileNotFoundError p))
      \/ (exists p, x = Exc (ValueError p))
      \/ x = SystemExit 2).
Proof.
intros H. split; [now apply main_stops_at_checks|]. split.
- pose proof (check_args_prints fs args st) as Hp. now rewrite H in Hp.
- unfold check_args in H. destruct (arg_action args); try discriminate.
  unfold bind at 1 in H.
  destruct (collect_videos fs args st) as [[e|vs] s1] eqn:Hc.
  + injection H as <- _. unfold collect_videos in Hc.
    destruct (files args) as [[|? ?]|]; try discriminate;
      (destruct (directory args) as [[|? ?]|]; try discriminate;
       destruct (negb _); [injection Hc as <- _; eauto|];
       destruct (get_video_files _ _); [injection Hc as <- _; eauto|];
       unfold bind at 1 in Hc; unfold print at 1, emit, modify in Hc;
       unfold bind at 1 in Hc; rewrite for_each_prints in Hc; discriminate).
  + rewrite checks_on_list in H. injection H as H _. unfold checks_outcome in H.
    destruct (find _ vs); [injection H as <-; eauto|].
    destruct (schedule_missing args); [injection H as <-; eauto | discriminate].
Qed.

(** An empty string for [--directory] is not checked at all: the
    checks pass (unless the schedule is missing) without a look at the
    tree and without printing, and the loop runs on the videos of the
    working directory. *)
Theorem empty_directory_is_unchecked
  (fs : node) (args : Args) (st s : state W) :
  arg_action args = Upload ->
  nonempty (files args) = false ->
  directory args = Some [] ->
  check_args fs args st
  = (if schedule_missing args then inl (SystemExit 2) else inr tt, st)
  /\ upload_list fs args s = (inr (get_video_files fs (lit ".")), s).
Proof.
intros Hact Hfiles Hdir. split.
- unfold check_args, collect_videos. rewrite Hact, Hdir.
  destruct (files args) as [[|? ?]|]; try discriminate;
    (unfold bind at 1; unfold ret at 1; rewrite checks_on_list; reflexivity).
- unfold upload_list. rewrite Hdir.
  destruct (files args) as [[|? ?]|]; try discriminate; reflexivity.
Qed.

End Validation.

(** ** Whole runs of [main] *)

Ltac grown :=
  unfold Router.added; cbn [Router.events snd];
  repeat (apply grown_cons; [reflexivity|]); apply grown_refl.

Section WholeRuns.
Import FS Schedule Discovery Router Checks Runs.
Context {U : UnicodeDB} {W : Type} {A : Adapters W}.

Lemma upload_list_pure (fs : node) (args : Args) (s s0 : state W) :
  upload_list fs args s = (fst (upload_list fs args s0), s).
Proof.
unfold upload_list. destruct (files args) as [[|? ?]|];
  try (destruct (directory args)); reflexivity.
Qed.

(** One turn of the loop with collaborators that do not raise. *)
Lemma upload_one_succeeds
  (args : Args) (cookie : account_file) (d : publish_date) (video : str) (s : state W) :
  never_fail A -> known (arg_platform args) = true -> date_of args = Some d ->
  exists j s',
    upload_one args cookie video s = (inr tt, s')
    /\ job_file j = video /\ job_platform j = arg_platform args
    /\ job_account j = cookie /\ job_date j = d
    /\ job_category j = category_of (arg_platform args)
    /\ events s' = upload_events args j ++ events s.
Proof.
intros (Ht & Hs & Hm & _) Hk Hd.
unfold upload_one, build_app, of_exception, bind, call, print, emit, modify, ret, raise.
destruct (Ht video (world s)) as ([title tags] & w1 & ->).
unfold date_of in Hd. unfold upload_events, announce.
destruct (publish_type args =? 0)%Z eqn:Hpt.
- injection Hd as <-.
  destruct (arg_platform args) eqn:Hp; try discriminate Hk; cbn [events world];
    match goal with |- context [platform_setup ?p ?c ?h ?w] =>
      destruct (Hs p c h w) as [w2 ->] end;
    cbv beta iota zeta; cbn [events world].
  all:  match goal with |- context [app_main ?j ?w] =>
      destruct (Hm j w) as [w3 Hw3]; rewrite Hw3; exists j end.
  all: eexists; repeat split.
- destruct (parse_schedule (schedule args)) as [e|[t|]]; try discriminate Hd;
    injection Hd as <-; cbv beta iota zeta; cbn [events world].
  all: destruct (arg_platform args) eqn:Hp; try discriminate Hk; cbn [events world].
  all: match goal with |- context [platform_setup ?p ?c ?h ?w] =>
       destruct (Hs p c h w) as [w2 Hw2]; rewrite Hw2 end;
     cbv beta iota zeta; cbn [events world].
  all: match goal with |- context [app_main ?j ?w] =>
       destruct (Hm j w) as [w3 Hw3]; rewrite Hw3; exists j end.
  all: eexists; repeat split.
Qed.

Lemma upload_loop_succeeds
  (args : Args) (cookie : account_file) (d : publish_date) (vs : list str) (s : state W) :
  never_fail A -> known (arg_platform args) = true -> date_of args = Some d ->
  exists jobs s',
    for_each vs (upload_one args cookie) s = (inr tt, s')
    /\ map job_file jobs = vs
    /\ Forall (fun j => job_platform j = arg_platform args /\ job_account j = cookie
                        /\ job_date j = d
                        /\ job_category j = category_of (arg_platform args)) jobs
    /\ events s' = flat_map (upload_events args) (rev jobs) ++ events s.
Proof.
intros Hnf Hk Hd. revert s. induction vs as [|v vs IH]; intros s.
- exists [], s. repeat split. constructor.
- destruct (upload_one_succeeds args cookie d v s Hnf Hk Hd)
    as (j & s1 & Hrun & Hf & Hp & Ha & Hdt & Hc & He).
  destruct (IH s1) as (jobs & s2 & Hrest & Hfs & Hall & Hes).
  exists (j :: jobs), s2. cbn [for_each]. unfold bind. rewrite Hrun, Hrest.
  repeat split.
  + cbn [map]. now rewrite Hf, Hfs.
  + constructor; [repeat split; assumption | exact Hall].
  + rewrite Hes, He. cbn [rev]. rewrite flat_map_app. cbn [flat_map].
    now rewrite app_nil_r, <- app_assoc.
Qed.

(** When the checks pass, no collaborator raises, the platform is one
    of the four and the schedule (if one is needed) parses, [main]
    returns, and after the making of the cookie directory its events
    are, video by video in the order of the list, those of one upload:
    title, announcement, session, construction, run, completion.  Each
    video gets one job, for the platform and the account of the
    command line, all with the same publish date; only the session of
    douyin is set up without handling and only the jobs of tencent
    have a category. *)
Theorem all_videos_uploaded_in_order
  (fs : node) (args : Args) (d : publish_date) (vs : list str) (st sa : state W) :
  arg_action args = Upload ->
  check_args fs args st = (inr tt, sa) ->
  fst (upload_list fs args st) = inr vs ->
  never_fail A ->
  known (arg_platform args) = true ->
  date_of args = Some d ->
  exists jobs st',
    main fs args st = (inr tt, st')
    /\ map job_file jobs = vs
    /\ Forall (fun j => job_platform j = arg_platform args
                        /\ job_account j = cookie_of args
                        /\ job_date j = d
                        /\ job_category j = category_of (arg_platform args)) jobs
    /\ events st' = flat_map (upload_events args) (rev jobs)
                    ++ Mkdir (cookie_of args) :: events sa.
Proof.
intros Hact Hcheck Hlist Hnf Hk Hd.
destruct Hnf as (Ht & Hs & Hm & Hmk) eqn:Hnf'.
destruct (Hmk (cookie_of args) (world sa)) as [w1 Hmkdir].
set (sb := {| events := Mkdir (cookie_of args) :: events sa; world := w1 |}).
destruct (upload_loop_succeeds args (cookie_of args) d vs sb
            (conj Ht (conj Hs (conj Hm Hmk))) Hk Hd)
  as (jobs & s' & Hrun & Hfs & Hall & Hes).
exists jobs, s'. split; [|repeat split; assumption].
unfold main. unfold bind at 1. rewrite Hcheck. cbv zeta.
unfold bind at 1. unfold call at 1. rewrite Hmkdir. fold sb. rewrite Hact.
unfold bind at 1. rewrite (upload_list_pure fs args sb st), Hlist. exact Hrun.
Qed.

(** A login works on the platform and the account alone: the tree and
    the other options play no part.  It makes the cookie directory,
    prints, and sets up the session of the platform with handling; it
    extracts no title and constructs or runs no job. *)
Theorem login_only_sets_up (fs : node) (args : Args) (st : state W) :
  arg_action args = Login ->
  (forall fs' args',
     arg_action args' = Login -> arg_platform args' = arg_platform args ->
     account_name args' = account_name args ->
     main fs' args' st = main fs args st)
  /\ added login_event st (snd (main fs args st))
  /\ (forall w1,
        known (arg_platform args) = true ->
        mkdir_cookies (cookie_of args) (world st) = (inr tt, w1) ->
        main fs args st
        = (fst (platform_setup (arg_platform args) (cookie_of args) true w1),
           {| events := Setup (arg_platform args) (cookie_of args) true
                        :: Print (Logging_in (account_name args) (arg_platform args))
                        :: Mkdir (cookie_of args) :: events st;
              world := snd (platform_setup (arg_platform args) (cookie_of args) true w1) |})).
Proof.
intros Hact. split; [|split].
- intros fs' args' Hact' Hp Ha. unfold main, check_args, cookie_of.
  rewrite Hact, Hact', Hp, Ha. reflexivity.
- unfold main, check_args, bind, call, print, emit, modify, ret. rewrite Hact.
  destruct (mkdir_cookies _ (world st)) as [[x|[]] w1]; [grown|].
  cbn [events world].
  destruct (arg_platform args); cbn [events world]; try grown;
    match goal with |- context [platform_setup ?p ?c true w1] =>
      destruct (platform_setup p c true w1) as [[x|[]] w2]; grown end.
- intros w1 Hk Hmk. unfold main, check_args, bind, call, print, emit, modify, ret.
  rewrite Hact, Hmk. cbn [events world].
  destruct (arg_platform args); try discriminate Hk; cbn [events world];
    match goal with |- context [platform_setup ?p ?c true w1] =>
      destruct (platform_setup p c true w1) as [[x|[]] w2]; reflexivity end.
Qed.

(** With a platform that is none of the four, an upload prints
    [Wrong platform] and exits at the first video, after the title
    was extracted and before any session, job or upload; and a login
    makes the cookie directory, prints, and does nothing else. *)
Theorem unknown_platform_does_nothing
  (fs : node) (args : Args) (name : str) (st : state W) :
  arg_platform args = OtherPlatform name ->
  (arg_action args = Upload ->
     added (fun ev => negb (is_upload_event ev)) st (snd (main fs args st))
     /\ forall video d r w (s : state W),
          date_of args = Some d ->
          get_title_and_hashtags video (world s) = (inr r, w) ->
          upload_one args (cookie_of args) video s
          = (inl (SystemExit 0),
             {| events := Print Wrong_platform :: Print (announce args video)
                          :: Title_of video :: events s;
                world := w |}))
  /\ (arg_action args = Login ->
      forall w1, mkdir_cookies (cookie_of args) (world st) = (inr tt, w1) ->
        main fs args st
        = (inr tt, {| events := Print (Logging_in (account_name args) (arg_platform args))
                                :: Mkdir (cookie_of args) :: events st;
                      world := w1 |})).
Proof.
intros Hp. split.
- intros Hact. split.
  + unfold main. rewrite Hact.
    apply preserves_bind; [apply added_trans | | intros _].
    { intros s. apply only_printed_added; [reflexivity | apply check_args_prints]. }
    apply preserves_bind; [apply added_trans | now apply call_added | intros _].
    apply preserves_bind; [apply added_trans | | intros vs].
    * intros s. rewrite (upload_list_pure fs args s s). apply added_refl.
    * apply preserves_for_each; [apply added_refl | apply added_trans|].
      intros v _ s.
      unfold upload_one, build_app, of_exception, bind, call, print, emit, modify, ret, raise.
      rewrite Hp.
      destruct (get_title_and_hashtags v (world s)) as [[x|[title tags]] w1]; [grown|].
      destruct (publish_type args =? 0)%Z; [grown|].
      destruct (parse_schedule (schedule args)) as [e|t]; grown.
  + intros video d [title tags] w s Hd Ht.
    unfold upload_one, build_app, of_exception, bind, call, print, emit, modify, ret, raise.
    rewrite Hp, Ht. unfold date_of in Hd. unfold announce.
    destruct (publish_type args =? 0)%Z; [reflexivity|].
    destruct (parse_schedule (schedule args)) as [e|[t|]]; try discriminate; reflexivity.
- intros Hact w1 Hmk. unfold main, check_args, bind, call, print, emit, modify, ret.
  rewrite Hact, Hmk, Hp. reflexivity.
Qed.

End WholeRuns.

(** ** Strings with characters left out *)

Section Subsequences.
Import Re Measures.

Lemma subseq_refl (a : str) : subseq a a.
Proof. induction a; constructor; assumption. Qed.

Lemma subseq_trans (a b c : str) : subseq a b -> subseq b c -> subseq a c.
Proof.
intros Hab Hbc. revert a Hab. induction Hbc as [|x b c Hbc IH|x b c Hbc IH]; intros a Hab.
- exact Hab.
- inversion Hab; subst; constructor; auto.
- constructor. auto.
Qed.

Lemma subseq_nil_l (a : str) : subseq [] a.
Proof. induction a; constructor; assumption. Qed.

Lemma subseq_length (a b : str) : subseq a b -> (length a <= length b)%nat.
Proof. induction 1; simpl; lia. Qed.

Lemma subseq_In (a b : str) (c : char) : subseq a b -> In c a -> In c b.
Proof. induction 1; simpl; intuition. Qed.

Lemma subseq_app (a b a' b' : str) :
  subseq a b -> subseq a' b' -> subseq (a ++ a') (b ++ b').
Proof. induction 1; intros H'; cbn [app]; try constructor; auto. Qed.

Lemma subseq_rev (a b : str) : subseq a b -> subseq (rev a) (rev b).
Proof.
induction 1 as [|c a b H IH|c a b H IH]; cbn [rev].
- constructor.
- apply subseq_app; [exact IH | apply subseq_refl].
- rewrite <- (app_nil_r (rev a)). apply subseq_app; [exact IH | apply subseq_nil_l].
Qed.

Lemma subseq_filter (f : char -> bool) (a : str) : subseq (filter f a) a.
Proof.
induction a as [|c a IH]; cbn [filter]; [constructor|].
destruct (f c); constructor; exact IH.
Qed.

Lemma subseq_firstn (n : nat) (a : str) : subseq (firstn n a) a.
Proof.
revert a; induction n as [|n IH]; intros [|c a]; cbn [firstn]; try constructor.
- apply subseq_nil_l.
- apply IH.
Qed.

Lemma subseq_slice_to (a : str) (stop : Z) : subseq (slice_to a stop) a.
Proof. unfold slice_to. destruct (0 <=? stop)%Z; apply subseq_firstn. Qed.

Lemma subseq_lstrip (a : str) : subseq (lstrip a) a.
Proof.
induction a as [|c a IH]; cbn [lstrip]; [constructor|].
destruct (is_space c); [now constructor | apply subseq_refl].
Qed.

Lemma subseq_strip (a : str) : subseq (strip a) a.
Proof.
unfold strip, rstrip. apply subseq_trans with (lstrip a); [|apply subseq_lstrip].
rewrite <- (rev_involutive (lstrip a)) at 2. apply subseq_rev, subseq_lstrip.
Qed.

(** Replacing by nothing only leaves characters out. *)
Lemma subseq_replace_from (old : str) (skip : nat) (s : str) :
  subseq (replace_from old [] skip s) s.
Proof.
revert skip; induction s as [|c s IH]; intros skip; cbn [replace_from]; [constructor|].
destruct skip; [|constructor; apply IH].
destruct (startswith old (c :: s)); cbn [app]; constructor; apply IH.
Qed.

Lemma replace_nothing (s : str) : replace s [] [] = s.
Proof.
unfold replace. cbn [app]. induction s as [|c s IH]; [reflexivity|].
cbn [flat_map app]. now rewrite IH.
Qed.

Lemma subseq_replace (s old : str) : subseq (replace s old []) s.
Proof.
destruct old as [|o old]; [rewrite replace_nothing; apply subseq_refl|].
apply subseq_replace_from.
Qed.

(** So does the deletion of the matches of a pattern. *)
Lemma subseq_sub_from (r : regex) (skip : nat) (s : str) :
  subseq (sub_from r skip s) s.
Proof.
revert skip; induction s as [|c s IH]; intros skip; cbn [sub_from]; [constructor|].
destruct skip; [|constructor; apply IH].
destruct (match_here r false (c :: s)) as [[|n]|]; try (constructor; apply IH).
destruct (match_here r true (c :: s)) as [[|n]|]; constructor; apply IH.
Qed.

End Subsequences.

(** ** More on the cleaning of a file name *)

Section CleaningMore.
Import FS Names Re VideoPreprocessor WildcardSpec Measures.
Context {U : UnicodeDB} {W : Type} {E : Env W}.

(** On any failure of the text service [_translate_text] returns its
    argument and logs one error; when the service answers, it returns
    the stripped answer and logs nothing.  Either way it does not
    raise and leaves the tree and the file operations alone. *)
Theorem translate_text_fail_soft (text : str) (st : state W) :
  exists out st',
    _translate_text text st = (inr out, st')
    /\ fs st' = fs st /\ calls st' = calls st
    /\ world st' = snd (chat_create TranslatePrompt text (world st))
    /\ match answer TranslatePrompt text (world st) with
       | Some content => out = strip content /\ log st' = log st
       | None => out = text /\ exists e, log st' = ErrTranslate e :: log st
       end.
Proof.
unfold _translate_text, answer, try_except, bind, ask, first_content_stripped,
  logging, modify, ret, raise.
destruct (chat_create TranslatePrompt text (world st)) as [[e|choices] w]; cbn [fst snd].
- eexists _, _. split; [reflexivity|]. cbn. eauto 10.
- destruct choices as [|[content|] rest]; (eexists _, _; split; [reflexivity|]; cbn; eauto 10).
Qed.

Lemma remove_pattern_subseq (name pattern : str) :
  exists name', remove_pattern name pattern = inr name' /\ subseq name' name.
Proof.
rewrite remove_pattern_total. eexists. split; [reflexivity|].
destruct (has_char 42%N pattern); [apply subseq_sub_from | apply subseq_replace].
Qed.

Lemma remove_all_subseq (patterns : list str) (name : str) :
  exists name', remove_all patterns name = inr name' /\ subseq name' name.
Proof.
revert name; induction patterns as [|p ps IH]; intros name; cbn [remove_all].
- exists name. split; [reflexivity | apply subseq_refl].
- destruct (remove_pattern_subseq name p) as (n1 & -> & H1).
  destruct (IH n1) as (n2 & -> & H2). exists n2. split; [reflexivity|].
  now apply subseq_trans with n1.
Qed.

Lemma truncate_subseq (cfg : Config) (name : str) : subseq (truncate cfg name) name.
Proof.
unfold truncate. destruct (_ >? _)%Z; [apply subseq_slice_to | apply subseq_refl].
Qed.

(** With translation off, [_clean_filename] asks nothing of anyone:
    the state is as before; and it only leaves characters out, so the
    stem it returns is never longer than the one it was given. *)
Theorem clean_without_translation (cfg : Config) (filename : str) (st : state W) :
  truthy (translate_to_chinese cfg) = false ->
  exists cleaned,
    _clean_filename cfg filename st = (inr cleaned, st)
    /\ subseq cleaned filename
    /\ (length cleaned <= length filename)%nat.
Proof.
intros Htr.
destruct (remove_all_subseq (remove_patterns cfg) filename) as (n1 & Hrm & H1).
exists (strip (truncate cfg (strip_special n1))).
assert (subseq (strip (truncate cfg (strip_special n1))) filename) as Hsub.
{ eapply subseq_trans; [apply subseq_strip|].
  eapply subseq_trans; [apply truncate_subseq|].
  eapply subseq_trans; [apply subseq_filter | exact H1]. }
split; [|split; [exact Hsub | now apply subseq_length]].
unfold _clean_filename, before_truncation, bind, lift, ret. now rewrite Hrm, Htr.
Qed.

(** Whatever the patterns, the translation and the configuration, the
    stem [_clean_filename] returns is made of word characters,
    whitespace, hyphens and dots, with no whitespace at either end; it
    holds no separator, so that the stem with [.mp4] or [.txt] is one
    good name of a directory entry. *)
Theorem cleaned_stem_is_a_name (cfg : Config) (filename : str) (st : state W) :
  exists cleaned st',
    _clean_filename cfg filename st = (inr cleaned, st')
    /\ (forall c, In c cleaned -> keep_char c = true)
    /\ strip cleaned = cleaned
    /\ has_char 47%N cleaned = false
    /\ good_name (cleaned ++ lit ".mp4") = true
    /\ good_name (cleaned ++ lit ".txt") = true.
Proof.
destruct (clean_filename_unfold cfg filename st) as (name & st' & _ & Hc).
eexists _, st'. split; [exact Hc|].
destruct (clean_filename_image _ _ _ _ _ Hc) as [Hkeep Hstrip].
set (cleaned := strip (truncate cfg (strip_special name))) in *.
assert (has_char 47%N cleaned = false) as Hsep.
{ apply has_char_false. intros x Hx ->. now specialize (Hkeep _ Hx). }
assert (forall ext, (ext = lit ".mp4" \/ ext = lit ".txt") ->
                    good_name (cleaned ++ ext) = true) as Hgood.
{ intros ext Hext. apply good_name_parts. repeat split.
  - destruct Hext as [-> | ->]; destruct cleaned; discriminate.
  - intros Heq. apply (f_equal (@length char)) in Heq. rewrite length_app in Heq.
    destruct Hext as [-> | ->]; cbn in Heq; lia.
  - apply has_char_false. intros x Hx. apply in_app_or in Hx as [Hx|Hx].
    + rewrite has_char_false in Hsep. now apply Hsep.
    + destruct Hext as [-> | ->]; cbn in Hx; intuition (subst; discriminate). }
repeat split; auto.
Qed.

(** The fixed points of the cleaning (used below for files that are
    clean already). *)
Lemma clean_filename_fixed
  (cfg cfg0 : Config) (filename s : str) (st0 st0' st : state W) :
  _clean_filename cfg0 filename st0 = (inr s, st0') ->
  truthy (translate_to_chinese cfg) = false ->
  Forall (fun p => pattern_matches p s = false) (remove_patterns cfg) ->
  (Z.of_nat (length s) <= max_length cfg)%Z ->
  _clean_filename cfg s st = (inr s, st).
Proof.
intros Himg Htr Hpat Hlen.
destruct (clean_filename_image _ _ _ _ _ Himg) as [Hkeep Hstrip].
unfold _clean_filename, before_truncation, bind, lift, ret.
rewrite (remove_all_no_match _ _ Hpat), Htr.
unfold strip_special. rewrite (filter_all _ _ _ Hkeep).
unfold truncate.
destruct (Z.gtb_spec (Z.of_nat (length s)) (max_length cfg)) as [Hgt|_]; [lia|].
now rewrite Hstrip.
Qed.

(** The pattern that is one star matches everything but line feeds. *)
Lemma sub_delete_star (s : str) :
  sub_delete [LazyAny] s = filter (fun c => (c =? 10)%N) s.
Proof.
assert (forall t, match_here [LazyAny] false t = Some 0%nat) as Hfree
  by (now intros [|x t]).
assert (forall x t, match_here [LazyAny] true (x :: t)
                    = if (x =? 10)%N then None else Some 1%nat) as Hstep.
{ intros x t. cbn [match_here]. destruct (x =? 10)%N; [reflexivity|].
  now destruct t. }
unfold sub_delete. induction s as [|c s IH]; [reflexivity|].
cbn [sub_from filter]. rewrite Hfree, Hstep.
destruct (c =? 10)%N; [now rewrite IH | exact IH].
Qed.

Lemma remove_pattern_nothing (pattern : str) : remove_pattern [] pattern = inr [].
Proof.
rewrite remove_pattern_total. destruct (has_char 42%N pattern); [reflexivity|].
destruct pattern; reflexivity.
Qed.

Lemma remove_all_nothing (patterns : list str) : remove_all patterns [] = inr [].
Proof.
induction patterns as [|p ps IH]; [reflexivity|].
cbn [remove_all]. now rewrite remove_pattern_nothing.
Qed.

(** A remove-pattern that is a single star wipes the name: with
    translation off, every stem without a line feed is cleaned to the
    empty stem, wherever in the list the pattern stands; and an empty
    remove-pattern removes nothing. *)
Theorem star_pattern_wipes_names (cfg : Config) (filename : str) (st : state W) :
  In (lit "*") (remove_patterns cfg) ->
  truthy (translate_to_chinese cfg) = false ->
  has_char 10%N filename = false ->
  _clean_filename cfg filename st = (inr [], st)
  /\ remove_pattern filename [] = inr filename.
Proof.
intros Hin Htr Hnl. split.
- assert (remove_all (remove_patterns cfg) filename = inr []) as Hrm.
  { revert filename Hnl. induction (remove_patterns cfg) as [|p ps IH]; [destruct Hin|].
    intros name Hnl. cbn [remove_all]. destruct Hin as [->|Hin].
    - rewrite remove_pattern_total.
      change (has_char 42%N (lit "*")) with true. cbv iota.
      change (wildcard_tokens (lit "*")) with [LazyAny]. rewrite sub_delete_star.
      replace (filter (fun c => (c =? 10)%N) name) with (@nil char);
        [apply remove_all_nothing|].
      symmetry. rewrite has_char_false in Hnl.
      induction name as [|c name IHn]; [reflexivity|]. cbn [filter].
      destruct (N.eqb_spec c 10) as [->|_].
      + now destruct (Hnl 10%N (or_introl eq_refl)).
      + apply IHn. intros x Hx. apply Hnl. now right.
    - destruct (remove_pattern_subseq name p) as (n1 & -> & H1).
      apply (IH Hin). apply has_char_false. intros x Hx.
      rewrite has_char_false in Hnl. apply Hnl. exact (subseq_In _ _ _ H1 Hx). }
  unfold _clean_filename, before_truncation, bind, lift, ret. rewrite Hrm, Htr.
  unfold strip_special, truncate. cbn [filter length].
  destruct (_ >? _)%Z; [|reflexivity].
  unfold slice_to. destruct (0 <=? max_length cfg)%Z; now rewrite firstn_nil.
- rewrite remove_pattern_total. cbn [has_char existsb]. now rewrite replace_nothing.
Qed.

End CleaningMore.

(** ** More on the batch of the normalizer *)

Section TreeMore.
Import FS.

Lemma path_eqb_refl (p : path) : path_eqb p p = true.
Proof.
unfold path_eqb. rewrite Nat.eqb_refl. cbn [andb].
induction p as [|x p IH]; [reflexivity|]. cbn [combine forallb].
now rewrite str_eqb_refl.
Qed.

Lemma rfind_dot_ext (s e : str) :
  rfind_dot e = None -> rfind_dot (s ++ 46%N :: e) = Some (length s).
Proof.
intros He. induction s as [|c s IH]; cbn [app rfind_dot length].
- now rewrite He.
- now rewrite IH.
Qed.

(** The stem of a name that is a non-empty stem and [.mp4]. *)
Lemma stem_mp4 (d : path) (s : str) :
  s <> [] -> stem (d ++ [s ++ lit ".mp4"]) = s.
Proof.
intros Hs. unfold stem. rewrite name_snoc.
change (lit ".mp4") with (46%N :: lit "mp4").
rewrite rfind_dot_ext by reflexivity.
rewrite firstn_app, Nat.sub_diag, firstn_all. cbn [firstn]. rewrite app_nil_r.
rewrite length_app.
change (@length char (46%N :: lit "mp4")) with 4%nat.
replace ((0 <? length s)%nat && (length s <? length s + 4 - 1)%nat) with true;
  [reflexivity|].
symmetry. apply andb_true_iff. split; apply Nat.ltb_lt; [|lia].
destruct s; [contradiction | cbn [length]; lia].
Qed.

Lemma assoc_remove_same (x : str) (es : list (str * node)) :
  assoc x (remove_entry x es) = None.
Proof.
induction es as [|[y m] es IH]; [reflexivity|]. cbn [remove_entry].
destruct (str_eqb x y) eqn:Hxy; [exact IH|]. cbn [assoc]. now rewrite Hxy.
Qed.

(** [rename(2)] onto the name of an existing file replaces that file. *)
Lemma with_dir_rename_replaces (d : path) (a b x y : str) (t : node) :
  lookup (d ++ [a]) t = Some (File x) ->
  lookup (d ++ [b]) t = Some (File y) ->
  str_eqb a b = false ->
  exists t', with_dir d (rename_entry a b) t = inr t'
             /\ lookup (d ++ [b]) t' = Some (File x)
             /\ lookup (d ++ [a]) t' = None.
Proof.
intros Ha Hb Hab. revert t Ha Hb. induction d as [|z d IH]; intros t Ha Hb.
- destruct t as [c|es]; [discriminate|]. cbn [app lookup with_dir] in *.
  unfold rename_entry.
  destruct (assoc a es) as [[xa|?]|]; try discriminate. injection Ha as ->.
  destruct (assoc b es) as [[yb|?]|]; try discriminate. rewrite Hab.
  eexists. split; [reflexivity|]. cbn [lookup]. split.
  + now rewrite assoc_set_same.
  + rewrite assoc_set_other by exact Hab. now rewrite assoc_remove_same.
- destruct t as [c|es]; [discriminate|]. cbn [app lookup with_dir] in *.
  destruct (assoc z es) as [m|]; [|discriminate].
  destruct (IH m Ha Hb) as (m' & -> & H1 & H2).
  eexists. split; [reflexivity|]. cbn [lookup]. now rewrite assoc_set_same.
Qed.

Lemma app_differs (s a b : str) : a <> b -> str_eqb (s ++ a) (s ++ b) = false.
Proof.
intros Hab. destruct (str_eqb (s ++ a) (s ++ b)) eqn:H; [|reflexivity].
apply str_eqb_eq, app_inv_head in H. contradiction.
Qed.

End TreeMore.

Section BatchMore.
Import FS Names VideoPreprocessor Measures.
Context {U : UnicodeDB} {W : Type} {E : Env W}.
Local Open Scope py_scope.

Lemma path_eqb_snoc (d : path) (a b : str) :
  path_eqb (d ++ [a]) (d ++ [b]) = str_eqb a b.
Proof.
unfold path_eqb. rewrite !length_app, Nat.eqb_refl. cbn [andb].
induction d as [|x d IH]; cbn [app combine forallb].
- apply andb_true_r.
- now rewrite str_eqb_refl.
Qed.

Lemma describe_outcome (video_name : str) (st : state W) :
  exists st',
    _get_video_description video_name st
    = (inr (description_of video_name (world st)), st')
    /\ fs st' = fs st /\ calls st' = calls st
    /\ (log st' = log st \/ exists e, log st' = ErrDescribe e :: log st).
Proof.
unfold _get_video_description, description_of, answer, try_except, bind, ask,
  first_content_stripped, logging, modify, ret, raise.
destruct (chat_create DescribePrompt video_name (world st)) as [[e|choices] w]; cbn [fst snd].
- eexists. split; [reflexivity|]. cbn. eauto.
- destruct choices as [|[content|] rest]; (eexists; split; [reflexivity|]; cbn; eauto).
Qed.


(** A video whose stem is clean already is left where it is: for a
    stem [s] that some cleaning returned, that is not empty, that no
    remove-pattern matches and that fits the maximum, with translation
    off, the turn of [s.mp4] issues one file operation only, the
    writing of [s.txt] with the description of [s]; the video is not
    renamed, and no renaming is logged. *)
Theorem clean_file_is_not_renamed
  (cfg cfg0 : Config) (filename s : str) (d : path) (st0 st0' st : state W) :
  _clean_filename cfg0 filename st0 = (inr s, st0') ->
  s <> [] ->
  truthy (translate_to_chinese cfg) = false ->
  Forall (fun p => pattern_matches p s = false) (remove_patterns cfg) ->
  (Z.of_nat (length s) <= max_length cfg)%Z ->
  let video_file := d ++ [s ++ lit ".mp4"] in
  let txt_path := d ++ [s ++ lit ".txt"] in
  let st' := snd (process_file cfg video_file st) in
  calls st' = WriteText txt_path (description_of s (world st)) :: calls st
  /\ lookup video_file (fs st') = lookup video_file (fs st)
  /\ (forall a b, In (InfoRenamed a b) (log st') -> In (InfoRenamed a b) (log st)).
Proof.
intros Himg Hs Htr Hpat Hlen video_file txt_path st'.
pose proof (clean_filename_fixed cfg cfg0 filename s st0 st0' st Himg Htr Hpat Hlen) as Hc.
destruct (describe_outcome s st) as (s3 & Hd & Hfs & Hcalls & Hlog).
assert (process_file cfg video_file st
        = (write_text txt_path (description_of s (world st)) ;;;
           logging (InfoSidecar txt_path)) s3) as Hrun.
{ unfold process_file. subst video_file. rewrite stem_mp4 by exact Hs.
  rewrite parent_snoc. unfold bind at 1. rewrite Hc.
  unfold rename_if_needed. rewrite path_eqb_refl. cbn [negb].
  unfold bind at 1, ret at 1. unfold bind at 1. rewrite Hd. reflexivity. }
assert (forall a b l, In (InfoRenamed a b) l -> l = log s3 \/ l = InfoSidecar txt_path :: log s3 ->
                      In (InfoRenamed a b) (log st)) as Hin.
{ intros a b l Hl Hcase.
  assert (In (InfoRenamed a b) (log s3)) as H3.
  { destruct Hcase as [-> | ->]; [exact Hl|]. destruct Hl as [Hl|Hl]; [discriminate | exact Hl]. }
  destruct Hlog as [Heq | [e Heq]]; rewrite Heq in H3; [exact H3|].
  destruct H3 as [H3|H3]; [discriminate | exact H3]. }
subst st'. rewrite Hrun. unfold bind.
destruct (write_text_cases txt_path (description_of s (world st)) s3)
  as (r & s4 & -> & Hc4 & Hl4 & _ & Hfs4).
assert (lookup video_file (fs s4) = lookup video_file (fs st)) as Hsame.
{ destruct Hfs4 as [[-> _] | (content & Hwd & _)]; [now rewrite Hfs|].
  subst txt_path video_file. rewrite parent_snoc, name_snoc in Hwd. rewrite <- Hfs.
  eapply with_dir_other; [exact Hwd|].
  intros es es'. apply write_entry_other. apply app_differs. discriminate. }
destruct r as [e|[]]; unfold logging, modify; cbn [snd fs calls log];
  rewrite Hc4, Hcalls; (split; [reflexivity|]); (split; [exact Hsame|]);
  intros a b Hl; (eapply Hin; [exact Hl|]); rewrite Hl4; auto.
Qed.

(** When the renaming of a video raises, its turn ends there: no
    description is requested, nothing is written, the error is logged
    under the name of the video, and the loop goes on with the next
    file from the state the renaming was attempted in. *)
Theorem failed_rename_skips_sidecar
  (cfg : Config) (video_file : path) (rest : list path) (new_name : str)
  (e : exception) (st st1 st2 : state W) :
  let new_video_path := parent video_file ++ [new_name ++ lit ".mp4"] in
  _clean_filename cfg (stem video_file) st = (inr new_name, st1) ->
  path_eqb video_file new_video_path = false ->
  rename video_file new_video_path st1 = (inl e, st2) ->
  process_files cfg (video_file :: rest) st
  = process_files cfg rest
      {| fs := fs st1; log := ErrFile video_file e :: log st1;
         calls := Rename video_file new_video_path :: calls st1;
         world := world st1 |}.
Proof.
intros new_video_path Hclean Hne Hren.
assert (st2 = {| fs := fs st1; log := log st1;
                 calls := Rename video_file new_video_path :: calls st1;
                 world := world st1 |}) as ->.
{ unfold rename, perform in Hren.
  destruct (io_fault _ (world st1)); [now injection Hren as _ <-|].
  destruct (with_dir _ _ (fs st1)); [now injection Hren as _ <-| discriminate]. }
unfold process_files. cbn [for_each]. unfold bind at 1, try_except.
unfold process_file. unfold bind at 1. rewrite Hclean.
unfold rename_if_needed. fold new_video_path. rewrite Hne. cbn [negb].
unfold bind at 1. unfold bind at 1. rewrite Hren.
unfold logging, modify. reflexivity.
Qed.

(** [Path.rename] replaces. When the cleaned name of a video is the
    name of another file of the directory, that file is overwritten
    by the video without an error: after the turn the cleaned name
    holds the content of the renamed video, the old name is gone, and
    the renaming is logged as any other. *)
Theorem rename_replaces_existing_video
  (cfg : Config) (d : path) (n new_name x y : str) (st st1 : state W) :
  let video_file := d ++ [n] in
  let new_video_path := d ++ [new_name ++ lit ".mp4"] in
  _clean_filename cfg (stem video_file) st = (inr new_name, st1) ->
  endswith (lit ".mp4") n = true ->
  str_eqb n (new_name ++ lit ".mp4") = false ->
  lookup video_file (fs st1) = Some (File x) ->
  lookup new_video_path (fs st1) = Some (File y) ->
  io_fault (Rename video_file new_video_path) (world st1) = None ->
  let st' := snd (process_file cfg video_file st) in
  lookup new_video_path (fs st') = Some (File x)
  /\ lookup video_file (fs st') = None
  /\ In (InfoRenamed video_file new_video_path) (log st')
  /\ exists description,
       calls st' = [WriteText (d ++ [new_name ++ lit ".txt"]) description;
                    Rename video_file new_video_path] ++ calls st1.
Proof.
intros video_file new_video_path Hclean Hn Hne Hx Hy Hio st'.
destruct (with_dir_rename_replaces d n (new_name ++ lit ".mp4") x y (fs st1) Hx Hy Hne)
  as (t & Ht & Hnew & Hold).
set (s2 := {| fs := t; log := InfoRenamed video_file new_video_path :: log st1;
              calls := Rename video_file new_video_path :: calls st1;
              world := world st1 |}).
destruct (describe_outcome new_name s2) as (s3 & Hd & Hfs & Hcalls & Hlog).
set (txt_path := d ++ [new_name ++ lit ".txt"]).
assert (process_file cfg video_file st
        = (write_text txt_path (description_of new_name (world s2)) ;;;
           logging (InfoSidecar txt_path)) s3) as Hrun.
{ unfold process_file. unfold bind at 1. rewrite Hclean.
  unfold video_file at 1 2. rewrite parent_snoc. fold video_file new_video_path txt_path.
  unfold rename_if_needed. unfold video_file at 1, new_video_path at 1.
  rewrite path_eqb_snoc, Hne. cbn [negb]. fold video_file new_video_path.
  unfold bind at 1. unfold bind at 1. unfold rename, perform.
  rewrite Hio. unfold video_file at 1 2, new_video_path at 1.
  rewrite parent_snoc, !name_snoc, Ht. fold video_file new_video_path.
  unfold logging at 1, modify. cbn [log fs calls world]. fold s2.
  unfold bind at 1. rewrite Hd. unfold video_file, txt_path.
  now rewrite parent_snoc. }
assert (In (InfoRenamed video_file new_video_path) (log s3)) as Hin.
{ destruct Hlog as [-> | [e ->]]; [now left | right; now left]. }
assert (str_eqb n (new_name ++ lit ".txt") = false) as Hntxt.
{ destruct (str_eqb n (new_name ++ lit ".txt")) eqn:Heq; [|reflexivity].
  apply str_eqb_eq in Heq. subst n. unfold endswith in Hn.
  rewrite rev_app_distr in Hn. discriminate Hn. }
subst st'. rewrite Hrun. unfold bind.
destruct (write_text_cases txt_path (description_of new_name (world s2)) s3)
  as (r & s4 & -> & Hc4 & Hl4 & _ & Hfs4).
assert (fs s3 = t) as Hfs3 by (now rewrite Hfs).
assert (calls s3 = Rename video_file new_video_path :: calls st1) as Hcalls3
  by (now rewrite Hcalls).
assert (lookup new_video_path (fs s4) = Some (File x)
        /\ lookup video_file (fs s4) = None) as [Hnew4 Hold4].
{ destruct Hfs4 as [[-> _] | (content & Hwd & _)]; [rewrite Hfs3; now split|].
  rewrite Hfs3 in Hwd.
  replace (parent txt_path) with d in Hwd by (symmetry; apply parent_snoc).
  replace (name txt_path) with (new_name ++ lit ".txt") in Hwd
    by (symmetry; apply name_snoc).
  split.
  - rewrite <- Hnew. eapply with_dir_other; [exact Hwd|].
    intros es es'. apply write_entry_other. apply app_differs. discriminate.
  - rewrite <- Hold. eapply with_dir_other; [exact Hwd|].
    intros es es'. now apply write_entry_other. }
destruct r as [e|[]]; unfold logging, modify; cbn [snd fs calls log];
  rewrite Hc4, Hcalls3, ?Hl4;
  (split; [exact Hnew4 | split; [exact Hold4 | split; [|eexists; reflexivity]]]).
- exact Hin.
- right. exact Hin.
Qed.

End BatchMore.

Section Accounting.
Import FS VideoPreprocessor Measures Turns.
Context {U : UnicodeDB} {W : Type} {E : Env W}.
Local Open Scope py_scope.

Lemma quiet_refl (s : state W) : quiet_step s s.
Proof. split; [reflexivity|]. now exists []. Qed.

Lemma quiet_trans (a b c : state W) : quiet_step a b -> quiet_step b c -> quiet_step a c.
Proof.
intros (C1 & l1 & L1 & F1) (C2 & l2 & L2 & F2). split; [now rewrite C2|].
exists (l2 ++ l1). split; [now rewrite L2, L1, app_assoc|].
now rewrite filter_app, F1, F2.
Qed.

Lemma logging_quiet (r : log_record) :
  closes_file r = false -> preserves (@quiet_step W) (logging r).
Proof.
intros Hr s. split; [reflexivity|]. exists [r]. split; [reflexivity|].
cbn [filter]. now rewrite Hr.
Qed.

Lemma ask_quiet (p : prompt) (text : str) : preserves (@quiet_step W) (ask p text).
Proof.
intros s. unfold ask. destruct (chat_create p text (world s)) as [r w].
split; [reflexivity|]. now exists [].
Qed.

Ltac quiet_tac :=
  first [ apply preserves_ret; exact quiet_refl
        | apply preserves_raise; exact quiet_refl
        | apply preserves_lift; exact quiet_refl
        | apply ask_quiet
        | apply logging_quiet; reflexivity
        | apply preserves_bind; [exact quiet_trans | | intros ?]
        | apply preserves_try; [exact quiet_trans | | intros ?]
        | apply preserves_if ].

Lemma first_content_quiet (choices : list (option str)) :
  preserves (@quiet_step W) (first_content_stripped choices).
Proof. destruct choices as [|[c|] rest]; simpl; quiet_tac. Qed.

Lemma describe_quiet (video_name : str) :
  preserves (@quiet_step W) (_get_video_description video_name).
Proof.
unfold _get_video_description. repeat first [apply first_content_quiet | quiet_tac].
Qed.

Lemma clean_quiet (cfg : Config) (filename : str) :
  preserves (@quiet_step W) (_clean_filename cfg filename).
Proof.
unfold _clean_filename, before_truncation, _translate_text.
repeat first [apply first_content_quiet | quiet_tac].
Qed.

(** The end of a turn, from the request of the description on: one
    writing is issued, and the sidecar is logged when it returned. *)
Lemma sidecar_shape (new_name : str) (txt : path) (s : state W) :
  exists r s' d added,
    (description <- _get_video_description new_name ;;
     write_text txt description ;;; logging (InfoSidecar txt)) s = (r, s')
    /\ calls s' = WriteText txt d :: calls s
    /\ filter closes_file added = []
    /\ log s' = match r with
                | inr _ => InfoSidecar txt :: added ++ log s
                | inl _ => added ++ log s
                end.
Proof.
unfold bind at 1.
pose proof (describe_quiet new_name s) as Hq.
destruct (describe_total new_name s) as (s3 & Hd & _). rewrite Hd in Hq |- *.
cbn [snd] in Hq. destruct Hq as (Hc3 & added & Hl3 & Hf3).
unfold bind.
destruct (write_text_cases txt (description_of new_name (world s)) s3)
  as (r & s4 & -> & Hc4 & Hl4 & _).
destruct r as [e|[]].
- exists (inl e), s4, (description_of new_name (world s)), added.
  split; [reflexivity|]. rewrite Hc4, Hc3, Hl4, Hl3. auto.
- eexists (inr tt), _, (description_of new_name (world s)), added.
  split; [reflexivity|]. unfold logging, modify. cbn [calls log snd].
  rewrite Hc4, Hc3, Hl4, Hl3. auto.
Qed.

(** The turn of one file: what it adds to the log holds exactly one
    closing record, that of the file, and its file operations are
    those of the file. *)
Lemma body_shape (cfg : Config) (f : path) (s s' : state W) r :
  process_file cfg f s = (r, s') ->
  let s'' := match r with inl e => caught f e s' | inr _ => s' end in
  exists added ops,
    log s'' = added ++ log s
    /\ calls s'' = ops ++ calls s
    /\ (exists c, filter closes_file added = [c] /\ closes cfg f c)
    /\ turn_ops cfg f ops.
Proof.
assert (forall e (s1 : state W) added ops,
          log s1 = added ++ log s -> calls s1 = ops ++ calls s ->
          filter closes_file added = [] -> turn_ops cfg f ops ->
          exists added' ops',
            log (caught f e s1) = added' ++ log s
            /\ calls (caught f e s1) = ops' ++ calls s
            /\ (exists c, filter closes_file added' = [c] /\ closes cfg f c)
            /\ turn_ops cfg f ops') as Hcaught.
{ intros e s1 added ops Hl Hc Hf Hops. exists (ErrFile f e :: added), ops.
  cbn [caught log calls]. rewrite Hl. repeat split; auto.
  exists (ErrFile f e). cbn [filter closes_file]. rewrite Hf. split; [reflexivity|].
  left. now exists e. }
unfold process_file. unfold bind at 1.
pose proof (clean_quiet cfg (stem f) s) as H1.
destruct (_clean_filename cfg (stem f) s) as [[e|new_name] s1] eqn:Hclean;
  cbn [snd] in H1; destruct H1 as (Hc1 & la1 & Hl1 & Hf1).
{ intros [= <- <-]. apply (Hcaught e s1 la1 []); auto. now left. }
assert (cleans_to cfg f new_name) as Hct by (now exists s, s1).
set (mv := Rename f (parent f ++ [new_name ++ lit ".mp4"])).
set (txt := parent f ++ [new_name ++ lit ".txt"]).
assert (forall (s2 : state W) la2 ops2,
          log s2 = la2 ++ log s -> calls s2 = ops2 ++ calls s ->
          filter closes_file la2 = [] -> (ops2 = [] \/ ops2 = [mv]) ->
          forall r0 s0,
            (description <- _get_video_description new_name ;;
             write_text txt description ;;; logging (InfoSidecar txt)) s2 = (r0, s0) ->
            let s'' := match r0 with inl e => caught f e s0 | inr _ => s0 end in
            exists added ops,
              log s'' = added ++ log s /\ calls s'' = ops ++ calls s
              /\ (exists c, filter closes_file added = [c] /\ closes cfg f c)
              /\ turn_ops cfg f ops) as Htail.
{ intros s2 la2 ops2 Hl2 Hc2 Hf2 Hops2 r0 s0 Hout.
  destruct (sidecar_shape new_name txt s2) as (r1 & s4 & d & la & Heq & Hc4 & Hf4 & Hl4).
  rewrite Heq in Hout. injection Hout as <- <-.
  assert (turn_ops cfg f (WriteText txt d :: ops2)) as Hops.
  { right. exists new_name. split; [exact Hct|]. right. exists d.
    destruct Hops2 as [-> | ->]; [now left | now right]. }
  destruct r1 as [e|[]]; cbv zeta.
  - apply (Hcaught e s4 (la ++ la2) (WriteText txt d :: ops2)).
    + now rewrite Hl4, Hl2, app_assoc.
    + now rewrite Hc4, Hc2.
    + now rewrite filter_app, Hf4, Hf2.
    + exact Hops.
  - exists (InfoSidecar txt :: la ++ la2), (WriteText txt d :: ops2).
    split; [rewrite Hl4, Hl2; cbn [app]; now rewrite app_assoc|].
    split; [now rewrite Hc4, Hc2|]. split; [|exact Hops].
    exists (InfoSidecar txt). cbn [filter closes_file].
    rewrite filter_app, Hf4, Hf2. split; [reflexivity|].
    right. now exists new_name. }
unfold bind at 1. unfold rename_if_needed. fold mv txt.
destruct (negb (path_eqb f (parent f ++ [new_name ++ lit ".mp4"]))).
- unfold bind at 1. unfold rename, perform. fold mv.
  assert (turn_ops cfg f [mv]) as Hmv.
  { right. exists new_name. split; [exact Hct|]. now left. }
  destruct (io_fault mv (world s1)) as [e|].
  { intros [= <- <-]. apply (Hcaught e _ la1 [mv]); cbn [log calls]; auto.
    now rewrite Hc1. }
  destruct (with_dir (parent f) _ (fs s1)) as [e|t].
  { intros [= <- <-]. apply (Hcaught e _ la1 [mv]); cbn [log calls]; auto.
    now rewrite Hc1. }
  unfold logging at 1, modify. cbv beta iota. intros Hout.
  refine (Htail _ (InfoRenamed f (parent f ++ [new_name ++ lit ".mp4"]) :: la1) [mv]
            _ _ _ _ _ _ Hout).
  + cbn [log]. now rewrite Hl1.
  + cbn [calls]. now rewrite Hc1.
  + cbn [filter closes_file]. exact Hf1.
  + now right.
- unfold ret at 1. cbv beta iota. intros Hout.
  refine (Htail s1 la1 [] Hl1 Hc1 Hf1 _ _ _ Hout). now left.
Qed.

Lemma turn_shape (cfg : Config) (f : path) (s : state W) :
  exists added ops,
    log (snd (turn cfg f s)) = added ++ log s
    /\ calls (snd (turn cfg f s)) = ops ++ calls s
    /\ (exists c, filter closes_file added = [c] /\ closes cfg f c)
    /\ turn_ops cfg f ops.
Proof.
destruct (process_file cfg f s) as [r s'] eqn:Hpf.
rewrite (turn_result _ _ _ _ _ Hpf). cbn [snd].
exact (body_shape cfg f s s' r Hpf).
Qed.

Lemma process_files_shape (cfg : Config) (files : list path) (s : state W) :
  exists added segs,
    log (snd (process_files cfg files s)) = added ++ log s
    /\ Forall2 (closes cfg) files (rev (filter closes_file added))
    /\ calls (snd (process_files cfg files s)) = concat (rev segs) ++ calls s
    /\ Forall2 (turn_ops cfg) files segs.
Proof.
revert s. induction files as [|f files IH]; intros s.
- exists [], []. cbn. repeat split; constructor.
- rewrite process_files_turn.
  destruct (turn_shape cfg f s) as (la1 & ops1 & Hl1 & Hc1 & (r & Hf1 & Hr) & Hops1).
  destruct (IH (snd (turn cfg f s))) as (la2 & segs2 & Hl2 & Hcl2 & Hc2 & Hops2).
  exists (la2 ++ la1), (ops1 :: segs2).
  split; [now rewrite Hl2, Hl1, app_assoc|]. split; [|split].
  + rewrite filter_app, Hf1, rev_app_distr. cbn [rev app]. now constructor.
  + rewrite Hc2, Hc1. cbn [rev]. rewrite concat_app. cbn [concat].
    now rewrite app_nil_r, <- app_assoc.
  + now constructor.
Qed.

Lemma turn_ops_length (cfg : Config) (f : path) (ops : list fs_call) :
  turn_ops cfg f ops -> (length ops <= 2)%nat.
Proof.
intros [-> | (n & _ & [-> | (d & [-> | ->])])]; cbn [length]; lia.
Qed.

Lemma segments_length (cfg : Config) (files : list path) (segs : list (list fs_call)) :
  Forall2 (turn_ops cfg) files segs ->
  (length (concat (rev segs)) <= 2 * length files)%nat.
Proof.
intros H. induction H as [|f ops files segs Hops _ IH]; [cbn; lia|].
cbn [rev]. rewrite concat_app, length_app. cbn [concat length].
rewrite app_nil_r. apply turn_ops_length in Hops. lia.
Qed.

(** Every video the glob matched has a turn of its own in the run of
    [process_directory].  What the run adds to the log holds, in the
    order of the matches, exactly one closing record for each match:
    the record of the error that ended its turn, under its name, or
    the record of the sidecar of its cleaned stem; never both, never
    none, and none for anything else.  The file operations of the run
    are, match by match, those of its turn: the renaming of the match
    to its cleaned stem, the writing of the sidecar of that stem,
    both, or none.  So the closing records are as many as the
    matches, and the operations at most twice as many; a missing
    directory gets neither. *)
Theorem every_file_is_closed (cfg : Config) (st : state W) :
  let matches := glob (fs st) (video_directory cfg) (lit ".mp4") in
  let st' := snd (process_directory cfg st) in
  (exists added segs,
     log st' = added ++ log st
     /\ Forall2 (closes cfg) matches (rev (filter closes_file added))
     /\ calls st' = concat (rev segs) ++ calls st
     /\ Forall2 (turn_ops cfg) matches segs)
  /\ files_closed (log st') = (length matches + files_closed (log st))%nat
  /\ (length (calls st') <= 2 * length matches + length (calls st))%nat.
Proof.
intros matches st'.
assert (exists added segs,
          log st' = added ++ log st
          /\ Forall2 (closes cfg) matches (rev (filter closes_file added))
          /\ calls st' = concat (rev segs) ++ calls st
          /\ Forall2 (turn_ops cfg) matches segs) as Hshape.
{ subst st'. unfold process_directory, bind, get.
  destruct (exists_ (fs st) (video_directory cfg)) eqn:Hex; cbn [negb].
  - apply process_files_shape.
  - assert (matches = []) as ->.
    { subst matches. unfold glob. unfold exists_ in Hex.
      now destruct (lookup (video_directory cfg) (fs st)). }
    exists [ErrNoDirectory (video_directory cfg)], [].
    unfold logging, modify. cbn. repeat split; constructor. }
split; [exact Hshape|].
destruct Hshape as (added & segs & Hl & Hcl & Hc & Hops).
split.
- rewrite Hl. unfold files_closed. rewrite filter_app, length_app.
  apply Forall2_length in Hcl. rewrite length_rev in Hcl. lia.
- rewrite Hc, length_app. pose proof (segments_length cfg matches segs Hops). lia.
Qed.

End Accounting.

(** ** The properties above on sample inputs *)

Section DiscoveryCases.
Import FS Names Discovery DiscoveryOrder Router Sample.
#[local] Existing Instances ascii_only_db.

Lemma tree_well_named : well_named tree.
Proof. apply all_names_good_sound. vm_compute. reflexivity. Qed.

(** A video of the sample tree, found from [./videos/]. *)
Lemma discovered_paths_read_back_witness :
  lit "videos/sub/deep.mp4" <> []
  /\ path_str (Path (lit "videos/sub/deep.mp4")) = lit "videos/sub/deep.mp4".
Proof.
apply (discovered_paths_read_back tree (lit "./videos/") (lit "videos/sub/deep.mp4")).
- exact tree_well_named.
- vm_compute. repeat first [left; reflexivity | right].
Defined.

(** The six extensions from the last to the first. *)
Lemma discovery_ignores_extension_order_witness :
  get_video_files tree (lit "videos")
  = discover (rev video_extensions) tree (Path (lit "videos")).
Proof.
apply (discovery_ignores_extension_order (rev video_extensions) tree (lit "videos")).
- apply Permutation_sym, Permutation_rev.
- vm_compute. reflexivity.
Defined.

End DiscoveryCases.

Section RouterCases.
Import FS Names Schedule Discovery Router Checks Runs Sample Cases.
#[local] Existing Instances ascii_only_db.

Lemma steady_never_fail : never_fail steady.
Proof. repeat split; intros; eexists; try eexists; reflexivity. Qed.

(** Two files of which the second is not there, planned without a
    schedule: the missing file is what is reported. *)
Lemma checks_with_files_witness :
  main (A:=steady) tree
    (set_schedule None
       {| arg_platform := Tiktok; account_name := lit "xiaoA"; arg_action := Upload;
          files := Some [lit "videos/plain.mp4"; lit "videos/ghost.mp4"];
          directory := None; publish_type := 1%Z; schedule := None |}) quiet
  = (inl (Exc (FileNotFoundError (lit "videos/ghost.mp4"))), quiet).
Proof.
refine (proj2 (checks_with_files (A:=steady) tree _ (lit "videos/plain.mp4")
                 [lit "videos/ghost.mp4"] quiet _ _) _ _).
- reflexivity.
- reflexivity.
- vm_compute. reflexivity.
Defined.

(** The directory of the sample tree, planned without a schedule: the
    four videos are printed before the exit. *)
Lemma checks_with_directory_witness :
  check_args (W:=nat) tree (directory_args (lit "videos") 1) quiet
  = (inl (SystemExit 2),
     {| events := found_lines (get_video_files tree (lit "videos")); world := 0%nat |}).
Proof.
etransitivity.
- apply (checks_with_directory (W:=nat) tree (directory_args (lit "videos") 1)
           118%N (lit "ideos") quiet).
  + reflexivity.
  + reflexivity.
  + reflexivity.
- vm_compute. reflexivity.
Defined.

(** The same run: [main] exits as the checks do, and has only printed. *)
Lemma failed_checks_have_no_effect_witness :
  let printed := snd (check_args (W:=nat) tree (directory_args (lit "videos") 1) quiet) in
  main (A:=steady) tree (directory_args (lit "videos") 1) quiet = (inl (SystemExit 2), printed)
  /\ only_printed quiet printed.
Proof.
intros printed.
destruct (failed_checks_have_no_effect (A:=steady) tree (directory_args (lit "videos") 1)
            quiet printed (SystemExit 2)) as (H1 & H2 & _).
- vm_compute. reflexivity.
- split; [exact H1 | exact H2].
Defined.

(** [--directory] with the empty string. *)
Lemma empty_directory_is_unchecked_witness :
  check_args (W:=nat) tree (directory_args [] 0) quiet = (inr tt, quiet)
  /\ upload_list (W:=nat) tree (directory_args [] 0) quiet
     = (inr (get_video_files tree (lit ".")), quiet).
Proof.
apply (empty_directory_is_unchecked (W:=nat) tree (directory_args [] 0) quiet quiet).
- reflexivity.
- reflexivity.
- reflexivity.
Defined.

(** Two videos of the sample tree, uploaded to douyin at once. *)
Lemma all_videos_uploaded_in_order_witness :
  exists (jobs : list job) (st' : Router.state nat),
    main (A:=steady) tree (upload_args [lit "videos/plain.mp4"; lit "videos/clip.mov"]) quiet
    = (inr tt, st')
    /\ map job_file jobs = [lit "videos/plain.mp4"; lit "videos/clip.mov"]
    /\ events st'
       = flat_map (upload_events (upload_args [lit "videos/plain.mp4"; lit "videos/clip.mov"]))
           (rev jobs)
         ++ [Mkdir {| cookie_platform := Douyin; cookie_account := lit "xiaoA" |}].
Proof.
destruct (all_videos_uploaded_in_order (A:=steady) tree
            (upload_args [lit "videos/plain.mp4"; lit "videos/clip.mov"]) Zero
            [lit "videos/plain.mp4"; lit "videos/clip.mov"] quiet quiet)
  as (jobs & st' & H1 & H2 & _ & H3).
- reflexivity.
- vm_compute. reflexivity.
- reflexivity.
- exact steady_never_fail.
- reflexivity.
- reflexivity.
- exists jobs, st'. split; [exact H1 | split; [exact H2 | exact H3]].
Defined.

(** A login on tencent. *)
Lemma login_only_sets_up_witness :
  main (A:=steady) tree (login_args Tencent) quiet
  = (inr tt,
     {| events := [ Setup Tencent (cookie_of (login_args Tencent)) true;
                    Print (Logging_in (lit "xiaoA") Tencent);
                    Mkdir (cookie_of (login_args Tencent)) ];
        world := 0%nat |}).
Proof.
refine (proj2 (proj2 (login_only_sets_up (A:=steady) tree (login_args Tencent) quiet _))
          0%nat _ _).
- reflexivity.
- reflexivity.
- reflexivity.
Defined.

(** A login on a platform that is none of the four. *)
Lemma unknown_platform_does_nothing_witness :
  main (A:=steady) tree (login_args (OtherPlatform (lit "bilibili"))) quiet
  = (inr tt,
     {| events := [ Print (Logging_in (lit "xiaoA") (OtherPlatform (lit "bilibili")));
                    Mkdir (cookie_of (login_args (OtherPlatform (lit "bilibili")))) ];
        world := 0%nat |}).
Proof.
refine (proj2 (unknown_platform_does_nothing (A:=steady) tree
                 (login_args (OtherPlatform (lit "bilibili"))) (lit "bilibili") quiet _)
          _ 0%nat _).
- reflexivity.
- reflexivity.
- reflexivity.
Defined.

End RouterCases.

Section NormalizerCases.
Import FS VideoPreprocessor Measures Sample Cases.
#[local] Existing Instances ascii_only_db offline.

(** The sample name under the short configuration. *)
Lemma clean_without_translation_witness :
  exists cleaned,
    _clean_filename short_cfg song start = (inr cleaned, start)
    /\ subseq cleaned song
    /\ (length cleaned <= length song)%nat.
Proof.
apply (clean_without_translation short_cfg song start). reflexivity.
Defined.

(** The sample name under a configuration with the pattern [*]. *)
Lemma star_pattern_wipes_names_witness :
  _clean_filename star_cfg song start = (inr [], start)
  /\ remove_pattern song [] = inr song.
Proof.
apply (star_pattern_wipes_names star_cfg song start).
- right. left. reflexivity.
- reflexivity.
- vm_compute. reflexivity.
Defined.


(** [plain.mp4] of the sample tree is clean already. *)
Lemma clean_file_is_not_renamed_witness :
  let st' := snd (process_file plain_cfg [lit "videos"; lit "plain.mp4"] start) in
  calls st' = [WriteText [lit "videos"; lit "plain.txt"] (fallback_prefix ++ lit "plain")]
  /\ lookup [lit "videos"; lit "plain.mp4"] (fs st') = Some (File (lit "d")).
Proof.
destruct (clean_file_is_not_renamed plain_cfg plain_cfg (lit "plain") (lit "plain")
            [lit "videos"] start start start) as (H1 & H2 & _).
- vm_compute. reflexivity.
- discriminate.
- reflexivity.
- constructor; [vm_compute; reflexivity | constructor].
- vm_compute. discriminate.
- split; [exact H1 | exact H2].
Defined.

(** The cleaned name of [a b!.mp4] is that of a directory: the
    renaming raises, and the turn ends with the error record. *)
Lemma failed_rename_skips_sidecar_witness :
  process_files plain_cfg [[lit "videos"; lit "a b!.mp4"]] blocked
  = (inr tt,
     {| fs := fs blocked;
        log := [ErrFile [lit "videos"; lit "a b!.mp4"] IsADirectoryError];
        calls := [Rename [lit "videos"; lit "a b!.mp4"] [lit "videos"; lit "a b.mp4"]];
        world := tt |}).
Proof.
refine (failed_rename_skips_sidecar plain_cfg [lit "videos"; lit "a b!.mp4"] []
          (lit "a b") IsADirectoryError blocked blocked
          {| fs := fs blocked; log := [];
             calls := [Rename [lit "videos"; lit "a b!.mp4"] [lit "videos"; lit "a b.mp4"]];
             world := tt |} _ _ _).
- vm_compute. reflexivity.
- vm_compute. reflexivity.
- vm_compute. reflexivity.
Defined.

(** The cleaned name of [a b!.mp4] is that of another video: that
    video is replaced. *)
Lemma rename_replaces_existing_video_witness :
  let st' := snd (process_file plain_cfg [lit "videos"; lit "a b!.mp4"] crowded) in
  lookup [lit "videos"; lit "a b.mp4"] (fs st') = Some (File (lit "x"))
  /\ lookup [lit "videos"; lit "a b!.mp4"] (fs st') = None.
Proof.
destruct (rename_replaces_existing_video plain_cfg [lit "videos"] (lit "a b!.mp4")
            (lit "a b") (lit "x") (lit "y") crowded crowded) as (H1 & H2 & _).
- vm_compute. reflexivity.
- vm_compute. reflexivity.
- vm_compute. reflexivity.
- vm_compute. reflexivity.
- vm_compute. reflexivity.
- reflexivity.
- split; [exact H1 | exact H2].
Defined.

End NormalizerCases.

(** ** The discovery as a whole *)

Section DiscoveryWhole.
Import FS Discovery Sample.



End DiscoveryWhole.
